(** * Shinonome: chart parsing, timeline and judgment, verified against
      [shinonome.cc].

    Conventions of the embedding.
    - A C++ [int] is a [Z] kept in the signed 32-bit range by [wrap]
      (two's complement wrap-around written out at every operation);
      an integer division by zero has no result ([None]).
    - A C++ [double] kept in a structure is the rational of [Q] it
      stands for, and the arithmetic that only produces such a value is
      exact.  Where the source decides a branch on the result of
      arithmetic (the windows of [judge], the tests of [update] on a
      lane) that arithmetic is IEEE 754 binary64, round to nearest
      even, as [SpecFloat] defines it, on the stored values; the
      [float] arithmetic of the chart reader is binary32.  A value that
      is not finite cannot be kept in a structure: a step that would
      store one has no result ([None]); [Raw] follows the chart reader
      on such values.
    - A [std::vector] is a [list]; an iterator into it is an index
      ([nat]); a bounds-checked [at] or a dereference outside the vector
      has no result ([None]).
    - Calls into SDL_mixer are recorded in a log of played channels. *)

From Stdlib Require Import ZArith QArith Qabs Lia Lqa String Ascii Sorted.
From Corelib Require Import SpecFloat.
From stdpp Require Import base option list.

#[local] Open Scope Z_scope.

(** ** Machine integers *)

Module Int.

Definition max : Z := 2147483647.            (* INT_MAX *)
Definition min : Z := -2147483648.

Definition wrap (z : Z) : Z := (z + 2147483648) mod 4294967296 - 2147483648.

Definition in_range (z : Z) : Prop := min <= z <= max.

Definition add (a b : Z) : Z := wrap (a + b).
Definition sub (a b : Z) : Z := wrap (a - b).
Definition mul (a b : Z) : Z := wrap (a * b).
Definition neg (a : Z) : Z := wrap (- a).

(** [a / b] of C++: truncation toward zero, undefined for [b = 0]. *)
Definition div (a b : Z) : option Z :=
  if b =? 0 then None else Some (wrap (Z.quot a b)).

End Int.

(** ** Floating point *)

Module IEEE.

(** The float of precision [prec] nearest to [q], ties to even: the
    correctly rounded quotient of its numerator and denominator. *)
Definition of_Q (prec emax : Z) (q : Q) : spec_float :=
  match Qnum q with
  | Z0 => S754_zero false
  | Zpos n => SFdiv prec emax (S754_finite false n 0) (S754_finite false (Qden q) 0)
  | Zneg n => SFdiv prec emax (S754_finite true n 0) (S754_finite false (Qden q) 0)
  end.

(** The number a float stands for; none for an infinity or a NaN. *)
Definition to_Q (x : spec_float) : option Q :=
  match x with
  | S754_zero _ => Some 0%Q
  | S754_finite s m e =>
      let n := if s then Zneg m else Zpos m in
      Some (Qred match e with
                 | Z0 => n # 1
                 | Zpos p => (n * Z.pow_pos 2 p) # 1
                 | Zneg p => n # Pos.pow 2 p
                 end)
  | _ => None
  end.

End IEEE.

(** [double] *)
Module F64.

Definition t : Type := spec_float.

Definition of_Q : Q -> t := IEEE.of_Q 53 1024.
Definition of_Z (z : Z) : t := binary_normalize 53 1024 z 0 false.
Definition zero : t := S754_zero false.

Definition add : t -> t -> t := SFadd 53 1024.
Definition sub : t -> t -> t := SFsub 53 1024.
Definition mul : t -> t -> t := SFmul 53 1024.
Definition div : t -> t -> t := SFdiv 53 1024.
Definition opp : t -> t := SFopp.

Definition ltb : t -> t -> bool := SFltb.   (* x <  y *)
Definition leb : t -> t -> bool := SFleb.   (* x <= y *)

End F64.

(** [float] *)
Module F32.

Definition t : Type := spec_float.

Definition of_Q : Q -> t := IEEE.of_Q 24 128.
Definition of_Z (z : Z) : t := binary_normalize 24 128 z 0 false.

Definition mul : t -> t -> t := SFmul 24 128.
Definition div : t -> t -> t := SFdiv 24 128.

End F32.

Arguments IEEE.of_Q : simpl never.
Arguments IEEE.to_Q : simpl never.
Arguments F64.of_Q : simpl never.
Arguments F64.of_Z : simpl never.
Arguments F64.add : simpl never.
Arguments F64.sub : simpl never.
Arguments F64.mul : simpl never.
Arguments F64.div : simpl never.
Arguments F64.opp : simpl never.
Arguments F64.ltb : simpl never.
Arguments F64.leb : simpl never.
Arguments F32.of_Q : simpl never.
Arguments F32.of_Z : simpl never.
Arguments F32.mul : simpl never.
Arguments F32.div : simpl never.

(** ** The score ([struct Score]) *)

Module Score.

Record t : Type := mk {
  judges      : list Z;      (* int judges[JUDGE_PHASES] *)
  combo       : Z;
  comboBonus  : Z;
  maxCombo    : Z;
  point       : Z;
  totalJudges : Z;
  totalNotes  : Z
}.

(** [Score score = {}] *)
Definition zero : t := mk [0; 0; 0; 0] 0 0 0 0 0 0.

Definition set_judges (v : list Z) (s : t) : t :=
  mk v (combo s) (comboBonus s) (maxCombo s) (point s) (totalJudges s) (totalNotes s).
Definition set_combo (v : Z) (s : t) : t :=
  mk (judges s) v (comboBonus s) (maxCombo s) (point s) (totalJudges s) (totalNotes s).
Definition set_comboBonus (v : Z) (s : t) : t :=
  mk (judges s) (combo s) v (maxCombo s) (point s) (totalJudges s) (totalNotes s).
Definition set_maxCombo (v : Z) (s : t) : t :=
  mk (judges s) (combo s) (comboBonus s) v (point s) (totalJudges s) (totalNotes s).
Definition set_point (v : Z) (s : t) : t :=
  mk (judges s) (combo s) (comboBonus s) (maxCombo s) v (totalJudges s) (totalNotes s).
Definition set_totalJudges (v : Z) (s : t) : t :=
  mk (judges s) (combo s) (comboBonus s) (maxCombo s) (point s) v (totalNotes s).
Definition set_totalNotes (v : Z) (s : t) : t :=
  mk (judges s) (combo s) (comboBonus s) (maxCombo s) (point s) (totalJudges s) v.

End Score.

Definition JUDGE_PHASES : nat := 4.

(** [score.judges[k]++]; an index outside the array has no result. *)
Definition incr_judge (k : nat) (s : Score.t) : option Score.t :=
  j ← Score.judges s !! k;
  Some (Score.set_judges (<[k := Int.add j 1]> (Score.judges s)) s).

(** [calculate]: a hit of tier [judge] (1 cool, 2 great, 3 good). *)
Definition calculate (score : Score.t) (judge : Z) : option Score.t :=
  if judge <? 1 then None else
  s1 ← incr_judge (Z.to_nat (judge - 1)) score;
  let s2 := Score.set_combo (Int.add (Score.combo s1) 1) s1 in
  Some (Score.set_totalJudges (Int.add (Score.totalJudges s2) 1) s2).

(** The numerator and the divisor of [comboBonus], as the source
    evaluates them. *)
Definition comboBonus_num (c : Z) : Z :=
  let p := if Int.sub c 11 <? 0 then Int.neg (Int.sub c 11) else Int.sub c 11 in
  Int.mul 1250
    (Int.sub (Int.add (Int.sub (Int.mul c c) (Int.mul (Int.sub c 10) p))
                      (Int.mul 19 c))
             110).

Definition comboBonus_den (t : Z) : Z := Int.sub (Int.mul 2 t) 11.

(** [comboBonus]: the field is assigned, not incremented. *)
Definition comboBonus (score : Score.t) : option Score.t :=
  let c := Score.combo score in
  let t := Score.totalNotes score in
  b ← Int.div (comboBonus_num c) (comboBonus_den t);
  Some (Score.set_comboBonus b score).

Definition comboCount (score : Score.t) : option Score.t :=
  let s1 := if Score.maxCombo score <? Score.combo score
            then Score.set_maxCombo (Score.combo score) score
            else score in
  s2 ← comboBonus s1;
  Some (Score.set_combo 0 s2).

(** [calcReset]: a miss. *)
Definition calcReset (score : Score.t) : option Score.t :=
  s1 ← incr_judge (JUDGE_PHASES - 1) score;
  s2 ← comboCount s1;
  Some (Score.set_totalJudges (Int.add (Score.totalJudges s2) 1) s2).

Definition scoreCount (score : Score.t) : option Score.t :=
  j0 ← Score.judges score !! 0%nat;
  j1 ← Score.judges score !! 1%nat;
  j2 ← Score.judges score !! 2%nat;
  let t := Score.totalNotes score in
  let c := Score.comboBonus score in
  a ← Int.div (Int.mul 75000 j0) t;
  b ← Int.div (Int.add (Int.mul 50000 j1) (Int.mul 10000 j2)) t;
  Some (Score.set_point (Int.add (Int.add a b) c) score).

(** ** Chips, segments and the chart ([struct Chip], [Segment], [BMS]) *)

(** The comparisons of [double]. *)
Definition Qleb (x y : Q) : bool := Qle_bool x y.          (* x <= y *)
Definition Qltb (x y : Q) : bool := negb (Qle_bool y x).   (* x <  y *)

Definition INT_MAX : Q := inject_Z Int.max.

Module Chip.

Record t : Type := mk { beat : Q; beat2 : Q; value : Q }.

Definition set_beat2 (v : Q) (c : t) : t := mk (beat c) v (value c).

End Chip.

Module Segment.

Record t : Type := mk { time : Q; beat : Q; velocity : Q; bpm : Q }.

End Segment.

Abbreviation Chips := (list Chip.t).
Abbreviation Segments := (list Segment.t).

Definition LANES_COUNT : nat := 8.

(** The end-of-chart chip [{ INT_MAX, 0, 0 }]. *)
Definition sentinel : Chip.t := Chip.mk INT_MAX 0 0.

Module BMS.

(** [chunkTable] and [basePath] only hold audio handles and the
    directory they are loaded from; they are left to SDL_mixer. *)
Record t : Type := mk {
  title      : string;
  artist     : string;
  genre      : string;
  level      : string;
  lnobj      : string;
  beats      : list Q;         (* std::array<double, 1000> *)
  bpmTable   : list Q;         (* std::array<double, 1296> *)
  stopTable  : list Q;
  bgms       : Chips;
  bpms       : Chips;
  lanes      : list Chips;     (* Chips lanes[LANES_COUNT] *)
  segments   : Segments;
  totalNotes : Z
}.

Definition set_title (v : string) (b : t) : t :=
  mk v (artist b) (genre b) (level b) (lnobj b) (beats b) (bpmTable b)
     (stopTable b) (bgms b) (bpms b) (lanes b) (segments b) (totalNotes b).
Definition set_artist (v : string) (b : t) : t :=
  mk (title b) v (genre b) (level b) (lnobj b) (beats b) (bpmTable b)
     (stopTable b) (bgms b) (bpms b) (lanes b) (segments b) (totalNotes b).
Definition set_genre (v : string) (b : t) : t :=
  mk (title b) (artist b) v (level b) (lnobj b) (beats b) (bpmTable b)
     (stopTable b) (bgms b) (bpms b) (lanes b) (segments b) (totalNotes b).
Definition set_level (v : string) (b : t) : t :=
  mk (title b) (artist b) (genre b) v (lnobj b) (beats b) (bpmTable b)
     (stopTable b) (bgms b) (bpms b) (lanes b) (segments b) (totalNotes b).
Definition set_lnobj (v : string) (b : t) : t :=
  mk (title b) (artist b) (genre b) (level b) v (beats b) (bpmTable b)
     (stopTable b) (bgms b) (bpms b) (lanes b) (segments b) (totalNotes b).
Definition set_beats (v : list Q) (b : t) : t :=
  mk (title b) (artist b) (genre b) (level b) (lnobj b) v (bpmTable b)
     (stopTable b) (bgms b) (bpms b) (lanes b) (segments b) (totalNotes b).
Definition set_bpmTable (v : list Q) (b : t) : t :=
  mk (title b) (artist b) (genre b) (level b) (lnobj b) (beats b) v
     (stopTable b) (bgms b) (bpms b) (lanes b) (segments b) (totalNotes b).
Definition set_stopTable (v : list Q) (b : t) : t :=
  mk (title b) (artist b) (genre b) (level b) (lnobj b) (beats b) (bpmTable b)
     v (bgms b) (bpms b) (lanes b) (segments b) (totalNotes b).
Definition set_bgms (v : Chips) (b : t) : t :=
  mk (title b) (artist b) (genre b) (level b) (lnobj b) (beats b) (bpmTable b)
     (stopTable b) v (bpms b) (lanes b) (segments b) (totalNotes b).
Definition set_bpms (v : Chips) (b : t) : t :=
  mk (title b) (artist b) (genre b) (level b) (lnobj b) (beats b) (bpmTable b)
     (stopTable b) (bgms b) v (lanes b) (segments b) (totalNotes b).
Definition set_lanes (v : list Chips) (b : t) : t :=
  mk (title b) (artist b) (genre b) (level b) (lnobj b) (beats b) (bpmTable b)
     (stopTable b) (bgms b) (bpms b) v (segments b) (totalNotes b).
Definition set_segments (v : Segments) (b : t) : t :=
  mk (title b) (artist b) (genre b) (level b) (lnobj b) (beats b) (bpmTable b)
     (stopTable b) (bgms b) (bpms b) (lanes b) v (totalNotes b).
Definition set_totalNotes (v : Z) (b : t) : t :=
  mk (title b) (artist b) (genre b) (level b) (lnobj b) (beats b) (bpmTable b)
     (stopTable b) (bgms b) (bpms b) (lanes b) (segments b) v.

(** [BMS bms = {}] *)
Definition zero : t :=
  mk "" "" "" "" "" (replicate 1000 0%Q) (replicate 1296 0%Q)
     (replicate 1296 0%Q) [] [] (replicate LANES_COUNT []) [] 0.

End BMS.

(** ** [std::stoi(str, NULL, base)] on a token

    The tokens come out of [\w] groups, so the leading white space and
    the sign that [strtol] accepts never occur; the conversion reads the
    longest prefix of digits of the base and throws when there is
    none.  Every string converted is two characters long, so the value
    stays below 1296. *)

Definition digit_of (a : ascii) : option Z :=
  let n := Z.of_nat (nat_of_ascii a) in
  if (48 <=? n) && (n <=? 57) then Some (n - 48)
  else if (65 <=? n) && (n <=? 90) then Some (n - 55)
  else if (97 <=? n) && (n <=? 122) then Some (n - 87)
  else None.

Fixpoint stoi_digits (base acc : Z) (s : string) : Z :=
  match s with
  | EmptyString => acc
  | String a s' =>
      match digit_of a with
      | Some d => if d <? base then stoi_digits base (acc * base + d) s' else acc
      | None => acc
      end
  end.

Definition stoi (s : string) (base : Z) : option Z :=
  match s with
  | EmptyString => None
  | String a s' =>
      d ← digit_of a;
      if d <? base then Some (stoi_digits base d s') else None
  end.

(** ** Building the chip sequences ([calcChip]) *)

(** [while (chips.at(i).beat <= beat) i++;] where [rest] is the part of
    the vector from index [i] on; running off the end makes [at] throw. *)
Fixpoint scan_from (rest : Chips) (i : nat) (beat : Q) : option nat :=
  match rest with
  | [] => None
  | ch :: rest' =>
      if Qleb (Chip.beat ch) beat then scan_from rest' (S i) beat else Some i
  end.

Definition scan (chips : Chips) (i : nat) (beat : Q) : option nat :=
  scan_from (drop i chips) i beat.

(** [chips.insert(chips.cbegin() + i, chip)] *)
Definition insert_at (i : nat) (chip : Chip.t) (chips : Chips) : Chips :=
  take i chips ++ chip :: drop i chips.

(** [std::accumulate(beats.cbegin(), beats.cbegin() + measure, 0.0)] *)
Definition accumulate (beats : list Q) (measure : nat) : Q :=
  fold_left Qplus (take measure beats) 0%Q.

(** [string str(&notation[c * 2], 2)] *)
Definition token (notation : string) (c : nat) : string :=
  substring (c * 2) 2 notation.

(** [init_beat + c * bms.beats[measure] / length] *)
Definition chip_beat (init_beat : Q) (c : nat) (b : Q) (length : nat) : Q :=
  (init_beat + inject_Z (Z.of_nat c) * b / inject_Z (Z.of_nat length))%Q.

Definition is_note_channel (channel : Z) : bool :=
  (11 <=? channel) && (channel <=? 16) || (18 <=? channel) && (channel <=? 19).

Definition is_long_channel (channel : Z) : bool :=
  (51 <=? channel) && (channel <=? 56) || (58 <=? channel) && (channel <=? 59).

(** The loop state of [calcChip]: the index [i], the vector being built
    and [bms.totalNotes]. *)
Definition ChipState : Type := nat * Chips * Z.

(** One iteration of the [for] loop of [calcChip], for the token at
    index [c]. *)
Definition calcChip_token (bms : BMS.t) (measure : nat) (notation : string)
    (channel : Z) (length : nat) (init_beat : Q) (c : nat) (st : ChipState)
    : option ChipState :=
  let '(i0, chips, total) := st in
  let str := token notation c in
  if String.eqb str "00" then Some st else
  b ← BMS.beats bms !! measure;
  let beat := chip_beat init_beat c b length in
  i ← scan chips i0 beat;
  if channel =? 1 then
    v ← stoi str 36;
    Some (i, insert_at i (Chip.mk beat 0 (inject_Z v)) chips, total)
  else if channel =? 3 then
    v ← stoi str 16;
    Some (i, insert_at i (Chip.mk beat 0 (inject_Z v)) chips, total)
  else if channel =? 8 then
    k ← stoi str 36;
    v ← BMS.bpmTable bms !! Z.to_nat k;
    Some (i, insert_at i (Chip.mk beat 0 v) chips, total)
  else if channel =? 9 then
    k ← stoi str 36;
    v ← BMS.stopTable bms !! Z.to_nat k;
    Some (i, insert_at i (Chip.mk beat v 0) chips, total)
  else if is_note_channel channel then
    if negb (i =? 0)%nat && String.eqb str (BMS.lnobj bms) then
      prev ← chips !! (i - 1)%nat;
      Some (i, <[(i - 1)%nat := Chip.set_beat2 beat prev]> chips, total)
    else
      v ← stoi str 36;
      Some (i, insert_at i (Chip.mk beat 0 (inject_Z v)) chips, Int.add total 1)
  else if is_long_channel channel then
    open ← (if (i =? 0)%nat then Some None
            else prev ← chips !! (i - 1)%nat;
                 Some (if Qltb (Chip.beat2 prev) 0 then Some prev else None));
    match open with
    | Some prev =>
        Some (i, <[(i - 1)%nat := Chip.set_beat2 beat prev]> chips, total)
    | None =>
        v ← stoi str 36;
        Some (i, insert_at i (Chip.mk beat (-1) (inject_Z v)) chips, Int.add total 1)
    end
  else Some (i, chips, total).

Fixpoint calcChip_loop (bms : BMS.t) (measure : nat) (notation : string)
    (channel : Z) (length : nat) (init_beat : Q) (cs : list nat)
    (st : ChipState) : option ChipState :=
  match cs with
  | [] => Some st
  | c :: cs' =>
      st' ← calcChip_token bms measure notation channel length init_beat c st;
      calcChip_loop bms measure notation channel length init_beat cs' st'
  end.

(** [calcChip]: the vector [chips] is one of [bms.bgms], [bms.bpms] and
    [bms.lanes[c]]; the result is the new vector and the new
    [bms.totalNotes]. *)
Definition calcChip (chips : Chips) (measure : nat) (notation : string)
    (bms : BMS.t) (channel : Z) : option (Chips * Z) :=
  let length := (String.length notation / 2)%nat in
  let init_beat := accumulate (BMS.beats bms) measure in
  '(_, chips', total) ←
    calcChip_loop bms measure notation channel length init_beat
      (seq 0 length) (0%nat, chips, BMS.totalNotes bms);
  Some (chips', total).

(** ** Reading the chart ([parseBMS])

    A line of the chart is kept as what the three regular expressions of
    the parser make of it.
    - [Measure m num]: the line matches [#(\d{3})02:([.0-9]+)\r?];
      [m] is [std::stoi(m[1])] and [num] is the [float]
      [std::stof(m[2])], [None] when the conversion throws (as it does
      when the number does not fit a [float]).  Such a line has no
      blank, and its channel is 02, so the second pass does nothing
      with it.
    - [Command name arg num]: the line matches [#(\w+)\ (.+)\r?];
      [num] is the [float] [std::stof(arg)], [None] when the conversion
      throws, and also when it gives an infinity or a NaN (for an
      argument such as inf or nan), which no structure here can keep.
    - [Channel m channel notation]: the line matches
      [#(\d{3})(\d{2}):(\w+)\r?] and not the first expression.
    - [Other]: none of them matches. *)
Inductive Line : Type :=
  | Measure (measure : nat) (num : option Q)
  | Command (name arg : string) (num : option Q)
  | Channel (measure : nat) (channel : Z) (notation : string)
  | Other.

(** The start of [parseBMS]: the sentinels and [beats.fill(4)]. *)
Definition parseBMS_init (bms : BMS.t) : BMS.t :=
  let b1 := BMS.set_bgms (BMS.bgms bms ++ [sentinel]) bms in
  let b2 := BMS.set_bpms (BMS.bpms b1 ++ [sentinel]) b1 in
  let b3 := BMS.set_lanes (map (fun l => l ++ [sentinel]) (BMS.lanes b2)) b2 in
  BMS.set_beats (map (fun _ => 4%Q) (BMS.beats b3)) b3.

(** [std::stof(m[2]) * 4], a product of [float]s. *)
Definition measure_length (x : Q) : option Q :=
  IEEE.to_Q (F32.mul (F32.of_Q x) (F32.of_Z 4)).

Arguments measure_length : simpl never.

Definition parseBMSMeasure (bms : BMS.t) (line : Line) : option BMS.t :=
  match line with
  | Measure m num =>
      x ← num;
      len ← measure_length x;
      _ ← BMS.beats bms !! m;
      Some (BMS.set_beats (<[m := len]> (BMS.beats bms)) bms)
  | _ => Some bms
  end.

(** The lane of a note channel: [c = 0], then [channel - 10] up to
    channel 15 (resp. [channel - 50] up to 55) and [channel - 12] from
    18 (resp. [channel - 52] from 58). *)
Definition lane_of_channel (lo channel : Z) : nat :=
  let c := 0 in
  let c := if channel <=? lo + 5 then channel - lo else c in
  let c := if lo + 8 <=? channel then channel - (lo + 2) else c in
  Z.to_nat c.

Definition calcChip_lane (bms : BMS.t) (c measure : nat) (notation : string)
    (channel : Z) : option BMS.t :=
  chips ← BMS.lanes bms !! c;
  '(chips', total) ← calcChip chips measure notation bms channel;
  Some (BMS.set_totalNotes total (BMS.set_lanes (<[c := chips']> (BMS.lanes bms)) bms)).

Definition parseBMSChannel (bms : BMS.t) (line : Line) : option BMS.t :=
  match line with
  | Channel m channel notation =>
      if channel =? 1 then
        '(chips', total) ← calcChip (BMS.bgms bms) m notation bms channel;
        Some (BMS.set_totalNotes total (BMS.set_bgms chips' bms))
      else if (channel =? 3) || (8 <=? channel) && (channel <=? 9) then
        '(chips', total) ← calcChip (BMS.bpms bms) m notation bms channel;
        Some (BMS.set_totalNotes total (BMS.set_bpms chips' bms))
      else if is_note_channel channel then
        calcChip_lane bms (lane_of_channel 10 channel) m notation channel
      else if is_long_channel channel then
        calcChip_lane bms (lane_of_channel 50 channel) m notation channel
      else Some bms
  | _ => Some bms
  end.

(** [std::stof(m[2]) / 48], a quotient of [float]s. *)
Definition stop_length (x : Q) : option Q :=
  IEEE.to_Q (F32.div (F32.of_Q x) (F32.of_Z 48)).

Arguments stop_length : simpl never.

(** The table assignments [#BPMxx], [#STOPxx] and [#WAVxx]: [name] is
    split by [(\w+)(\w{2})]. *)
Definition parseBMSTable (bms : BMS.t) (name : string) (num : option Q)
    : option BMS.t :=
  let n := String.length name in
  if (n <? 3)%nat then Some bms else
  let n1 := substring 0 (n - 2) name in
  let n2 := substring (n - 2) 2 name in
  if String.eqb n1 "BPM" then
    k ← stoi n2 36;
    x ← num;
    _ ← BMS.bpmTable bms !! Z.to_nat k;
    Some (BMS.set_bpmTable (<[Z.to_nat k := x]> (BMS.bpmTable bms)) bms)
  else if String.eqb n1 "STOP" then
    k ← stoi n2 36;
    x ← num;
    v ← stop_length x;
    _ ← BMS.stopTable bms !! Z.to_nat k;
    Some (BMS.set_stopTable (<[Z.to_nat k := v]> (BMS.stopTable bms)) bms)
  else if String.eqb n1 "WAV" then
    _ ← stoi n2 36;
    Some bms
  else Some bms.

Definition parseBMSCommand (bms : BMS.t) (line : Line) : option BMS.t :=
  match line with
  | Command name arg num =>
      if String.eqb name "TITLE" then Some (BMS.set_title arg bms)
      else if String.eqb name "ARTIST" then Some (BMS.set_artist arg bms)
      else if String.eqb name "GENRE" then Some (BMS.set_genre arg bms)
      else if String.eqb name "PLAYLEVEL" then Some (BMS.set_level arg bms)
      else if String.eqb name "LNOBJ" then Some (BMS.set_lnobj arg bms)
      else if String.eqb name "BPM" then
        x ← num;
        Some (BMS.set_bpms (Chip.mk 0 0 x :: BMS.bpms bms) bms)
      else parseBMSTable bms name num
  | _ => parseBMSChannel bms line
  end.

(** A [while (std::getline ...)] loop over the lines. *)
Fixpoint each_line (f : BMS.t -> Line -> option BMS.t) (lines : list Line)
    (bms : BMS.t) : option BMS.t :=
  match lines with
  | [] => Some bms
  | line :: lines' => bms' ← f bms line; each_line f lines' bms'
  end.

(** ** The timeline ([calcSegment]) *)

(** The running state [(state_time, state_beat, state_bpm)]. *)
Definition SegState : Type := Q * Q * Q.

(** One iteration of [for (auto &bpm : bpms)]: the new state and the
    segments pushed. *)
Definition calcSegment_chip (st : SegState) (bpm : Chip.t) : SegState * Segments :=
  let '(state_time, state_beat, state_bpm) := st in
  let beat := Chip.beat bpm in
  let time := (state_time + (beat - state_beat) * 60 / state_bpm)%Q in
  if Qltb 0 (Chip.value bpm) then
    let state_bpm := Chip.value bpm in
    ((time, beat, state_bpm),
     [Segment.mk time beat (state_bpm / 60) state_bpm])
  else if Qltb 0 (Chip.beat2 bpm) then
    let time' := (time + Chip.beat2 bpm * 60 / state_bpm)%Q in
    ((time', beat, state_bpm),
     [Segment.mk time beat 0 state_bpm;
      Segment.mk time' beat (state_bpm / 60) state_bpm])
  else (st, []).

Fixpoint calcSegment_loop (st : SegState) (bpms : Chips) : Segments :=
  match bpms with
  | [] => []
  | bpm :: bpms' =>
      let '(st', pushed) := calcSegment_chip st bpm in
      pushed ++ calcSegment_loop st' bpms'
  end.

(** The state after the loop has gone through [bpms]. *)
Definition calcSegment_state (st : SegState) (bpms : Chips) : SegState :=
  fold_left (fun st bpm => fst (calcSegment_chip st bpm)) bpms st.

(** [calcSegment]; [bpms.front()] of an empty vector has no result. *)
Definition calcSegment (bpms : Chips) (segments : Segments) : option Segments :=
  front ← head bpms;
  let state_bpm := Chip.value front in
  Some (segments
        ++ [Segment.mk 0 0 (state_bpm / 60) state_bpm]
        ++ calcSegment_loop (0%Q, 0%Q, state_bpm) bpms
        ++ [Segment.mk INT_MAX INT_MAX 0 0]).

Definition parseBMS (lines : list Line) (bms : BMS.t) : option BMS.t :=
  let b0 := parseBMS_init bms in
  b1 ← each_line parseBMSMeasure lines b0;
  b2 ← each_line parseBMSCommand lines b1;
  segments ← calcSegment (BMS.bpms b2) (BMS.segments b2);
  Some (BMS.set_segments segments b2).

(** ** The session ([struct Option], [Player]) *)

Module Option.

Record t : Type := mk { speed : Q; keyBinds : string; autoPlay : Z }.

Definition set_speed (v : Q) (o : t) : t := mk v (keyBinds o) (autoPlay o).

End Option.

Module Lane.

(** [begin] and [end] are iterators into the lane's chips. *)
Record t : Type := mk { begin : nat; end_ : nat }.

End Lane.

Module Player.

(** The strings and [chunkTable] moved out of the chart are only
    shown or handed to SDL_mixer and are not kept here. *)
Record t : Type := mk {
  segments   : nat;          (* Segments_i, into bms.segments *)
  startTime  : Q;
  beat       : Q;
  bpm        : Q;
  bgm        : nat;          (* Chips_i, into bms.bgms *)
  lanes      : list Lane.t;  (* Lane lanes[LANES_COUNT] *)
  inputs     : list Z;       (* unsigned inputs[LANES_COUNT] *)
  judges     : list Z;       (* int judges[LANES_COUNT] *)
  totalNotes : Z;
  gameover   : Z;
  quit       : Z
}.

Definition set_segments (v : nat) (p : t) : t :=
  mk v (startTime p) (beat p) (bpm p) (bgm p) (lanes p) (inputs p) (judges p)
     (totalNotes p) (gameover p) (quit p).
Definition set_startTime (v : Q) (p : t) : t :=
  mk (segments p) v (beat p) (bpm p) (bgm p) (lanes p) (inputs p) (judges p)
     (totalNotes p) (gameover p) (quit p).
Definition set_beat (v : Q) (p : t) : t :=
  mk (segments p) (startTime p) v (bpm p) (bgm p) (lanes p) (inputs p) (judges p)
     (totalNotes p) (gameover p) (quit p).
Definition set_bpm (v : Q) (p : t) : t :=
  mk (segments p) (startTime p) (beat p) v (bgm p) (lanes p) (inputs p) (judges p)
     (totalNotes p) (gameover p) (quit p).
Definition set_bgm (v : nat) (p : t) : t :=
  mk (segments p) (startTime p) (beat p) (bpm p) v (lanes p) (inputs p) (judges p)
     (totalNotes p) (gameover p) (quit p).
Definition set_lanes (v : list Lane.t) (p : t) : t :=
  mk (segments p) (startTime p) (beat p) (bpm p) (bgm p) v (inputs p) (judges p)
     (totalNotes p) (gameover p) (quit p).
Definition set_inputs (v : list Z) (p : t) : t :=
  mk (segments p) (startTime p) (beat p) (bpm p) (bgm p) (lanes p) v (judges p)
     (totalNotes p) (gameover p) (quit p).
Definition set_judges (v : list Z) (p : t) : t :=
  mk (segments p) (startTime p) (beat p) (bpm p) (bgm p) (lanes p) (inputs p) v
     (totalNotes p) (gameover p) (quit p).
Definition set_gameover (v : Z) (p : t) : t :=
  mk (segments p) (startTime p) (beat p) (bpm p) (bgm p) (lanes p) (inputs p) (judges p)
     (totalNotes p) v (quit p).
Definition set_quit (v : Z) (p : t) : t :=
  mk (segments p) (startTime p) (beat p) (bpm p) (bgm p) (lanes p) (inputs p) (judges p)
     (totalNotes p) (gameover p) v.

End Player.

(** [newGame]: every cursor at the start of its vector. *)
Definition newGame (bms : BMS.t) : Player.t :=
  Player.mk 0 0 0 0 0 (replicate LANES_COUNT (Lane.mk 0 0))
            (replicate LANES_COUNT 0) (replicate LANES_COUNT 0)
            (BMS.totalNotes bms) 0 0.

(** ** Looking up the timeline ([getSegment]) *)

(** [while ((segments + 1)->time <= time) segments++;] where [next] is
    the part of the vector after the cursor [i]; reading past the end
    has no result. *)
Fixpoint getSegment_from (next : Segments) (i : nat) (time : Q) : option nat :=
  match next with
  | [] => None
  | s :: next' =>
      if Qleb (Segment.time s) time then getSegment_from next' (S i) time
      else Some i
  end.

(** [getSegment]: the new cursor; the segment returned is the one it
    points to. *)
Definition getSegment (all : Segments) (segments : nat) (time : Q) : option nat :=
  getSegment_from (drop (S segments) all) segments time.

(** The cursor threaded through successive calls, with the index
    returned by each. *)
Fixpoint getSegment_calls (all : Segments) (segments : nat) (times : list Q)
    : option (list nat) :=
  match times with
  | [] => Some []
  | time :: times' =>
      i ← getSegment all segments time;
      rest ← getSegment_calls all i times';
      Some (i :: rest)
  end.

(** ** Judgment ([judge], [judgeln]) *)

Definition JUDGE_BORDER_COOL  : Q := 0.025.
Definition JUDGE_BORDER_GREAT : Q := 0.050.
Definition JUDGE_BORDER_GOOD  : Q := 0.100.
Definition LIFETIME_BEATS     : Q := 5.

Module Game.

(** Everything the play loop touches: the player, the options (the
    speed keys change them), the score, the channels handed to
    [Mix_PlayChannel] so far (oldest first) and the function-static
    [lastHandledTime] of [update]. *)
Record t : Type := mk {
  player          : Player.t;
  opt             : Option.t;
  score           : Score.t;
  played          : list Z;
  lastHandledTime : Q
}.

Definition set_player (v : Player.t) (g : t) : t :=
  mk v (opt g) (score g) (played g) (lastHandledTime g).
Definition set_opt (v : Option.t) (g : t) : t :=
  mk (player g) v (score g) (played g) (lastHandledTime g).
Definition set_score (v : Score.t) (g : t) : t :=
  mk (player g) (opt g) v (played g) (lastHandledTime g).
Definition set_played (v : list Z) (g : t) : t :=
  mk (player g) (opt g) (score g) v (lastHandledTime g).
Definition set_lastHandledTime (v : Q) (g : t) : t :=
  mk (player g) (opt g) (score g) (played g) v.

End Game.

(** [int ch = value]: a [double] becomes an [int] by truncation. *)
Definition to_int (q : Q) : Z := Int.wrap (Z.quot (Qnum q) (Zpos (Qden q))).

(** [Mix_PlayChannel(ch, chunkTable.at(ch), 0)]: [at] throws outside the
    1296 entries of the table. *)
Definition play_chunk (value : Q) (played : list Z) : option (list Z) :=
  let ch := to_int value in
  if (0 <=? ch) && (ch <? 1296) then Some (played ++ [ch]) else None.

(** [*lane.begin] for the lane [index] of the player. *)
Definition begin_chip (bms : BMS.t) (player : Player.t) (index : nat)
    : option Chip.t :=
  lane ← Player.lanes player !! index;
  chips ← BMS.lanes bms !! index;
  chips !! Lane.begin lane.

(** [*lane.end] *)
Definition end_chip (bms : BMS.t) (player : Player.t) (index : nat)
    : option Chip.t :=
  lane ← Player.lanes player !! index;
  chips ← BMS.lanes bms !! index;
  chips !! Lane.end_ lane.

(** [lane.begin++] *)
Definition begin_incr (index : nat) (player : Player.t) : option Player.t :=
  lane ← Player.lanes player !! index;
  Some (Player.set_lanes
          (<[index := Lane.mk (S (Lane.begin lane)) (Lane.end_ lane)]>
             (Player.lanes player)) player).

(** [lane.end++] *)
Definition end_incr (index : nat) (player : Player.t) : option Player.t :=
  lane ← Player.lanes player !! index;
  Some (Player.set_lanes
          (<[index := Lane.mk (Lane.begin lane) (S (Lane.end_ lane))]>
             (Player.lanes player)) player).

(** [player.judges[index] = v] *)
Definition set_judge (index : nat) (v : Z) (player : Player.t) : option Player.t :=
  _ ← Player.judges player !! index;
  Some (Player.set_judges (<[index := v]> (Player.judges player)) player).

(** [player.inputs[index] = v] *)
Definition set_input (index : nat) (v : Z) (player : Player.t) : option Player.t :=
  _ ← Player.inputs player !! index;
  Some (Player.set_inputs (<[index := v]> (Player.inputs player)) player).

(** [judgeln]: a long note being held.  The parameter [lane] of the
    source is always [player.lanes[index]]. *)
Definition judgeln (bms : BMS.t) (index : nat) (g : Game.t) : option Game.t :=
  let player := Game.player g in
  inp ← Player.inputs player !! index;
  if (Option.autoPlay (Game.opt g) =? 0) && (inp =? 0) then
    score ← calcReset (Game.score g);
    p1 ← set_judge index 0 player;
    p2 ← begin_incr index p1;
    Some (Game.set_player p2 (Game.set_score score g))
  else
    note ← begin_chip bms player index;
    let time := ((Chip.beat2 note - Player.beat player) * 60 / Player.bpm player)%Q in
    if Qltb 0 time then Some g else
    pending ← Player.judges player !! index;
    score ← calculate (Game.score g) pending;
    p1 ← set_input index 0 player;
    p2 ← set_judge index 0 p1;
    p3 ← begin_incr index p2;
    Some (Game.set_player p3 (Game.set_score score g)).

(** [(lane.begin->beat - player.beat) * 60 / player.bpm], in
    [double]s. *)
Definition judge_time (note : Chip.t) (player : Player.t) : F64.t :=
  F64.div
    (F64.mul (F64.sub (F64.of_Q (Chip.beat note)) (F64.of_Q (Player.beat player)))
             (F64.of_Z 60))
    (F64.of_Q (Player.bpm player)).

Arguments judge_time : simpl never.

(** The tier of [abs]: 1 cool, 2 great, 3 good, [None] for the final
    [else return]. *)
Definition classify (abs : F64.t) : option Z :=
  if F64.ltb abs (F64.of_Q JUDGE_BORDER_COOL) then Some 1
  else if F64.ltb abs (F64.of_Q JUDGE_BORDER_GREAT) then Some 2
  else if F64.ltb abs (F64.of_Q JUDGE_BORDER_GOOD) then Some 3
  else None.

(** [judge], called by [update] (time-driven) and by [handler]
    (input-driven). *)
Definition judge (bms : BMS.t) (index : nat) (g : Game.t) : option Game.t :=
  let player := Game.player g in
  pending ← Player.judges player !! index;
  if negb (pending =? 0) then judgeln bms index g else
  note ← begin_chip bms player index;
  let time := judge_time note player in
  if F64.leb (F64.of_Q JUDGE_BORDER_GOOD) time then Some g else
  if F64.leb time (F64.opp (F64.of_Q JUDGE_BORDER_GOOD)) then
    score ← calcReset (Game.score g);
    p1 ← begin_incr index player;
    Some (Game.set_player p1 (Game.set_score score g))
  else
    played ← play_chunk (Chip.value note) (Game.played g);
    let g1 := Game.set_played played g in
    let abs := if F64.ltb time F64.zero then F64.opp time else time in
    match classify abs with
    | None => Some g1
    | Some tier =>
        if Qltb 0 (Chip.beat2 note) then
          p1 ← set_judge index tier player;
          Some (Game.set_player p1 g1)
        else
          score ← calculate (Game.score g1) tier;
          p1 ← begin_incr index player;
          Some (Game.set_player p1 (Game.set_score score g1))
    end.

(** ** The play loop ([update], [handler], [gameOver], [play]) *)

(** What one call of [update] reads from outside: the clock
    ([getTime()]), whether a channel is still playing
    ([Mix_Playing(-1)]) and the key read by [getch()]. *)
Record Frame : Type := mkFrame { now : Q; playing : bool; input : Z }.

Definition MAX_SPEED : Q := 5.00.

Definition gameOver (g : Game.t) : option Game.t :=
  s1 ← comboCount (Game.score g);
  s2 ← scoreCount s1;
  Some (Game.set_player
          (Player.set_quit 1 (Player.set_gameover 1 (Game.player g)))
          (Game.set_score s2 g)).

(** [option.keyBinds[i]] as the [int] it is compared with: the
    character, a signed [char] (a byte from 128 on is negative), the
    terminating zero at the end of the string, nothing beyond. *)
Definition keyBind (keyBinds : string) (i : nat) : option Z :=
  match String.get i keyBinds with
  | Some a =>
      let n := Z.of_nat (nat_of_ascii a) in
      Some (if n <? 128 then n else n - 256)
  | None => if (i =? String.length keyBinds)%nat then Some 0 else None
  end.

(** The second loop of [handler], over the lanes [is]. *)
Fixpoint handler_lanes (bms : BMS.t) (input : Z) (lanes : list nat)
    (g : Game.t) : option Game.t :=
  match lanes with
  | [] => Some g
  | i :: lanes' =>
      k ← keyBind (Option.keyBinds (Game.opt g)) i;
      if negb (input =? k) then handler_lanes bms input lanes' g else
      inp ← Player.inputs (Game.player g) !! i;
      p1 ← set_input i (Z.lor inp 1) (Game.player g);
      judge bms i (Game.set_player p1 g)
  end.

Definition handler (bms : BMS.t) (input : Z) (g : Game.t) : option Game.t :=
  let player := Game.player g in
  let g :=
    Game.set_player
      (Player.set_inputs
         (map (fun x => Z.shiftl x 1 mod 4294967296) (Player.inputs player))
         player) g in
  let option := Game.opt g in
  if input =? 51 then                                   (* '3' *)
    let speed := (Option.speed option - 0.25)%Q in
    let speed := if Qltb speed 1.00 then 1.00%Q else speed in
    Some (Game.set_opt (Option.set_speed speed option) g)
  else if input =? 52 then                              (* '4' *)
    let speed := (Option.speed option + 0.25)%Q in
    let speed := if Qltb MAX_SPEED speed then MAX_SPEED else speed in
    Some (Game.set_opt (Option.set_speed speed option) g)
  else if input =? 113 then                             (* 'q' *)
    Some (Game.set_player (Player.set_quit 1 (Game.player g)) g)
  else if input =? 12 then Some g                       (* 'l' & 0x1f *)
  else if negb (Option.autoPlay option =? 0) then Some g
  else handler_lanes bms input (seq 0 LANES_COUNT) g.

(** [while (player.beat >= player.bgm->beat) { ...; player.bgm++; }]
    where [rest] is the part of [bms.bgms] from the cursor [bgm] on. *)
Fixpoint update_bgm (rest : Chips) (beat : Q) (bgm : nat) (played : list Z)
    : option (nat * list Z) :=
  match rest with
  | [] => None
  | chip :: rest' =>
      if Qleb (Chip.beat chip) beat then
        played' ← play_chunk (Chip.value chip) played;
        update_bgm rest' beat (S bgm) played'
      else Some (bgm, played)
  end.

(** The body of the loop of [update] over the lanes. *)
Definition update_lane (bms : BMS.t) (padding : F64.t) (i : nat) (g : Game.t)
    : option Game.t :=
  note ← begin_chip bms (Game.player g) i;
  g1 ← (if F64.leb (F64.add (F64.of_Q (Chip.beat note)) padding)
                   (F64.of_Q (Player.beat (Game.player g)))
        then judge bms i g else Some g);
  last ← end_chip bms (Game.player g1) i;
  g2 ← (if F64.leb (F64.sub (F64.of_Q (Chip.beat last)) (F64.of_Q LIFETIME_BEATS))
                   (F64.of_Q (Player.beat (Game.player g1)))
        then p ← end_incr i (Game.player g1); Some (Game.set_player p g1)
        else Some g1);
  pending ← Player.judges (Game.player g2) !! i;
  if negb (pending =? 0) then judgeln bms i g2 else Some g2.

Fixpoint update_lanes (bms : BMS.t) (padding : F64.t) (lanes : list nat)
    (g : Game.t) : option Game.t :=
  match lanes with
  | [] => Some g
  | i :: lanes' => g' ← update_lane bms padding i g; update_lanes bms padding lanes' g'
  end.

Definition update (bms : BMS.t) (frame : Frame) (g : Game.t) : option Game.t :=
  let player := Game.player g in
  let currentTime := ((now frame - Player.startTime player) / 1000)%Q in
  cursor ← getSegment (BMS.segments bms) (Player.segments player) currentTime;
  segment ← BMS.segments bms !! cursor;
  let beat := (Segment.beat segment
               + (currentTime - Segment.time segment) * Segment.velocity segment)%Q in
  let player :=
    Player.set_bpm (Segment.bpm segment)
      (Player.set_beat beat (Player.set_segments cursor player)) in
  '(bgm, played) ←
    update_bgm (drop (Player.bgm player) (BMS.bgms bms)) beat
               (Player.bgm player) (Game.played g);
  let player := Player.set_bgm bgm player in
  let g := Game.set_played played (Game.set_player player g) in
  let padding :=
    if Option.autoPlay (Game.opt g) =? 0
    then F64.div (F64.mul (F64.add (F64.of_Q JUDGE_BORDER_GOOD) (F64.of_Q 0.001))
                          (F64.of_Q (Player.bpm player)))
                 (F64.of_Z 60)
    else F64.zero in
  g ← update_lanes bms padding (seq 0 LANES_COUNT) g;
  cue ← BMS.bgms bms !! Player.bgm (Game.player g);
  g ← (if Qleb INT_MAX (Chip.beat cue) && negb (playing frame)
       then gameOver g else Some g);
  if Qleb 15 ((currentTime - Game.lastHandledTime g) * 1000)
  then
    g ← handler bms (input frame) g;
    Some (Game.set_lastHandledTime currentTime g)
  else Some g.

(** [while (!player.quit) { update; render; yield }], one frame for each
    turn of the loop; [render] changes nothing here. *)
Fixpoint play_loop (bms : BMS.t) (frames : list Frame) (g : Game.t)
    : option Game.t :=
  match frames with
  | [] => Some g
  | frame :: frames' =>
      if negb (Player.quit (Game.player g) =? 0) then Some g else
      g' ← update bms frame g;
      play_loop bms frames' g'
  end.

(** [play], started at clock value [start]. *)
Definition play (bms : BMS.t) (start : Q) (frames : list Frame) (g : Game.t)
    : option Game.t :=
  let score := Score.set_totalNotes (Player.totalNotes (Game.player g)) (Game.score g) in
  let player := Player.set_startTime start (Game.player g) in
  play_loop bms frames (Game.set_player player (Game.set_score score g)).

(** The game as [main] sets it up from the options and the chart. *)
Definition start_game (option : Option.t) (bms : BMS.t) : Game.t :=
  Game.mk (newGame bms) option Score.zero [] 0.

(** ** Exact formulas the code is compared with *)

(** The bonus of a combo of [c] over a chart of [t] notes, in exact
    integers: the quotient truncates toward zero. *)
Definition bonus (c t : Z) : Z :=
  Z.quot (1250 * (c * c - (c - 10) * Z.abs (c - 11) + 19 * c - 110)) (2 * t - 11).



(** ** Charts and games used as examples *)

Definition default_option : Option.t := Option.mk 1.00 "azsxdcfv" 0.

(** A chart with a tempo and one background cue, and no note. *)
Definition cue_chart : list Line :=
  [ Command "BPM" "120" (Some 120%Q); Channel 0 1 "01" ].

(** Indices that never go back. *)
Definition forward (cursors : list nat) : Prop := Sorted le cursors.


(** [handler] before it looks at the key: every input history shifted
    by one frame. *)
Definition shift_inputs (g : Game.t) : Game.t :=
  Game.set_player
    (Player.set_inputs
       (map (fun x => Z.shiftl x 1 mod 4294967296) (Player.inputs (Game.player g)))
       (Game.player g)) g.

(** The keys [handler] takes for itself: '3', '4', 'q' and ctrl-L. *)
Definition is_command_key (input : Z) : bool :=
  (input =? 51) || (input =? 52) || (input =? 113) || (input =? 12).

(** [player.inputs[index] |= 1], the key of lane [index] going down. *)
Definition press (index : nat) (g : Game.t) : option Game.t :=
  inp ← Player.inputs (Game.player g) !! index;
  p ← set_input index (Z.lor inp 1) (Game.player g);
  Some (Game.set_player p g).

(** One short note at beat 1 in lane 1, at 120 beats per minute. *)
Definition one_note_chart : list Line :=
  [ Command "BPM" "120" (Some 120%Q); Channel 0 11 "00010000" ].

Definition one_note_bms : BMS.t :=
  Eval vm_compute in
    match parseBMS one_note_chart BMS.zero with
    | Some bms => bms
    | None => BMS.zero
    end.

(** The game on that chart at a given clock value (in milliseconds),
    after one frame in which no key was read. *)
Definition one_note_game (now : Q) : Game.t :=
  match play one_note_bms 0 [mkFrame now true (-1)]
             (start_game default_option one_note_bms) with
  | Some g => g
  | None => start_game default_option one_note_bms
  end.

(** That game at 0.6 s, the note 0.1 s late, with the key of lane 1
    going down. *)
Definition one_note_pressed : Game.t :=
  Eval vm_compute in
    match press 1 (shift_inputs (one_note_game 600)) with
    | Some g => g
    | None => one_note_game 600
    end.

(** ** Order of the chip sequences *)

(** Beats never decrease along the vector (ties allowed). *)
Definition ascending (chips : Chips) : Prop :=
  forall i j a b, (i <= j)%nat -> chips !! i = Some a -> chips !! j = Some b ->
                  (Chip.beat a <= Chip.beat b)%Q.

(** Every chip before index [i] lies at or before [beat]. *)
Definition before_le (chips : Chips) (i : nat) (beat : Q) : Prop :=
  forall k a, (k < i)%nat -> chips !! k = Some a -> (Chip.beat a <= beat)%Q.

(** Every chip from index [i] on lies after [beat]. *)
Definition from_gt (chips : Chips) (i : nat) (beat : Q) : Prop :=
  forall k a, (i <= k)%nat -> chips !! k = Some a -> (beat < Chip.beat a)%Q.

(** ** Where the chips of a chart come from *)

(** The beat length of measure [m] as the directives of the chart give
    it: 4, or four times the number of the last directive for [m]. *)
Definition directive (m : nat) (len : Q) (line : Line) : Q :=
  match line with
  | Measure m' (Some x) =>
      if (m' =? m)%nat then default len (measure_length x) else len
  | _ => len
  end.

Definition beat_length (lines : list Line) (m : nat) : Q :=
  fold_left (directive m) lines 4%Q.

(** [beat] is the beat of a token other than "00" of the notation of
    measure [measure]: the sum of the beat lengths of the measures
    before, plus [c] times the beat length of the measure divided by the
    number of tokens. *)
Definition token_beat (beats : list Q) (measure : nat) (notation : string)
    (beat : Q) : Prop :=
  exists c b,
    (c < String.length notation / 2)%nat /\
    token notation c <> "00"%string /\
    beats !! measure = Some b /\
    beat = chip_beat (accumulate beats measure) c b (String.length notation / 2).

(** The beat of a chip of a parsed chart is that of a sentinel, that of
    the chip of a [#BPM] line, or that of a token of a channel line. *)
Definition beat_origin (lines : list Line) (beats : list Q) (beat : Q) : Prop :=
  beat = INT_MAX \/
  (beat = 0%Q /\ exists arg x, Command "BPM" arg (Some x) ∈ lines) \/
  (exists measure channel notation,
      Channel measure channel notation ∈ lines /\
      token_beat beats measure notation beat).

(** A float that is not below zero, a NaN apart. *)
Definition sign_plus (x : spec_float) : Prop :=
  match x with
  | S754_infinity s | S754_finite s _ _ => s = false
  | _ => True
  end.

(** The directives of the chart carry numbers that are not negative
    (they match [[.0-9]+]). *)
Definition line_ok (line : Line) : bool :=
  match line with
  | Measure _ (Some x) => Qleb 0 x
  | _ => true
  end.

Definition lines_ok (lines : list Line) : Prop := forallb line_ok lines = true.

Definition beats_ok (beats : list Q) : Prop :=
  forall m b, beats !! m = Some b -> (0 <= b)%Q.

(** A chip sequence of a chart being parsed: ascending, every chip
    accounted for. *)
Definition chips_ok (lines : list Line) (beats : list Q) (chips : Chips) : Prop :=
  ascending chips /\
  Forall (fun chip => beat_origin lines beats (Chip.beat chip)) chips.

(** The chart while the second pass reads [lines]. *)
Definition chart_ok (lines : list Line) (beats : list Q) (bms : BMS.t) : Prop :=
  BMS.beats bms = beats /\
  chips_ok lines beats (BMS.bgms bms) /\
  chips_ok lines beats (BMS.bpms bms) /\
  Forall (chips_ok lines beats) (BMS.lanes bms).

(** A chart with a directive after the lines of its measure, a long
    note closed by the marker, a tempo change and a pause. *)
Definition demo_chart : list Line :=
  [ Command "TITLE" "demo" None;
    Command "BPM" "120" (Some 120%Q);
    Command "LNOBJ" "ZZ" None;
    Command "STOP01" "96" (Some 96%Q);
    Channel 0 1 "01";
    Channel 1 11 "01000200";
    Channel 1 11 "0000ZZ";
    Measure 1 (Some 0.5%Q);
    Channel 2 9 "01";
    Channel 3 3 "003C";
    Channel 2 12 "0304";
    Other ].

(** A chart whose only token is the long-note marker, and one where the
    marker follows a note twice. *)
Definition marker_chart : list Line :=
  [ Command "LNOBJ" "ZZ" None; Channel 0 11 "ZZ" ].

Definition marker_twice_chart : list Line :=
  [ Command "LNOBJ" "ZZ" None; Channel 0 11 "01ZZZZ00" ].

Definition demo_bms : BMS.t :=
  Eval vm_compute in
    match parseBMS demo_chart BMS.zero with
    | Some bms => bms
    | None => BMS.zero
    end.

(** Segment times never decrease along the vector. *)
Definition time_le (a b : Segment.t) : Prop := (Segment.time a <= Segment.time b)%Q.

Definition times_ascending (segments : Segments) : Prop :=
  StronglySorted time_le segments.

(** A tempo of one beat per minute, a first measure of 36 million beats
    and a tempo change at the start of the second measure. *)
Definition slow_chart : list Line :=
  [ Command "BPM" "1" (Some 1%Q);
    Measure 0 (Some 9000000%Q);
    Channel 1 3 "02" ].


(** ** The remaining functions of the source *)

(** [measureToBeat]: [for (i = 0; i < measure; i++) beat += beats[i];]
    with [n] turns of the loop left; reading past the array has no
    result. *)
Fixpoint measureToBeat_loop (beats : list Q) (i n : nat) (beat : Q) : option Q :=
  match n with
  | O => Some beat
  | S n' =>
      b ← beats !! i;
      measureToBeat_loop beats (S i) n' (beat + b)%Q
  end.

Definition measureToBeat (beats : list Q) (measure : Z) : option Q :=
  measureToBeat_loop beats 0 (Z.to_nat measure) 0%Q.

(** [std::replace(path.begin(), path.end(), '\\', '/')] *)
Fixpoint replace_backslash (path : string) : string :=
  match path with
  | EmptyString => EmptyString
  | String a path' =>
      String (if Ascii.eqb a "\" then "/"%char else a) (replace_backslash path')
  end.

(** [path.find_last_of('.')], [None] for [npos]. *)
Fixpoint find_last_of_dot (path : string) : option nat :=
  match path with
  | EmptyString => None
  | String a path' =>
      match find_last_of_dot path' with
      | Some pos => Some (S pos)
      | None => if Ascii.eqb a "." then Some 0%nat else None
      end
  end.

(** The path as [bindChunkTable] looks for it: slashes, and everything
    from the last dot on erased. *)
Definition chunk_stem (path : string) : string :=
  let path := replace_backslash path in
  match find_last_of_dot path with
  | Some pos => substring 0 pos path
  | None => path
  end.

(** The loop over [{ ".ogg", ".wav" }]: the first file that
    [Mix_LoadWAV] loads, [load] telling which files it does. *)
Fixpoint load_first (load : string -> bool) (basePath stem : string)
    (extensions : list string) : option string :=
  match extensions with
  | [] => None
  | e :: extensions' =>
      let fullPath := (basePath ++ stem ++ e)%string in
      if load fullPath then Some fullPath
      else load_first load basePath stem extensions'
  end.

(** [bindChunkTable]: a chunk is kept as the path it was loaded from;
    the slot holds the result of the last [Mix_LoadWAV], so a binding
    that finds no file empties it.  [stoi] on the key may throw. *)
Definition bindChunkTable (load : string -> bool) (chunkTable : list (option string))
    (index path basePath : string) : option (list (option string)) :=
  k ← stoi index 36;
  _ ← chunkTable !! Z.to_nat k;
  Some (<[Z.to_nat k := load_first load basePath (chunk_stem path) [".ogg"; ".wav"]%string]>
          chunkTable).

(** [getPos]: the row of a note on a screen of [h] rows. *)
Definition getPos (player : Player.t) (opt : Option.t) (beat : Q) (h : Z) : Z :=
  to_int (inject_Z h * Option.speed opt * (Player.beat player - beat)
          / LIFETIME_BEATS + inject_Z h)%Q.

(** ** More invariants of a parsed chart *)

(** The value of a chip is a sample index inside the chunk table. *)
Definition sample_ok (chip : Chip.t) : Prop :=
  exists v, Chip.value chip = inject_Z v /\ 0 <= v < 1296.

(** The vector ends with the end-of-chart chip. *)
Definition sentinel_last (chips : Chips) : Prop := last chips = Some sentinel.

(** The notes of the lanes: every chip but the sentinel of each lane. *)
Definition count_notes (lanes : list Chips) : nat :=
  sum_list_with (fun chips => (length chips - 1)%nat) lanes.

(** What a token other than "00" does, channel by channel, [i] being
    the index where the scan stops and [beat] the beat of the token. *)
Definition token_effect (bms : BMS.t) (channel : Z) (str : string) (beat : Q)
    (i : nat) (chips : Chips) (total : Z) (chips' : Chips) (total' : Z) : Prop :=
  (channel = 1 /\ total' = total /\
   exists v, stoi str 36 = Some v /\
             chips' = insert_at i (Chip.mk beat 0 (inject_Z v)) chips) \/
  (channel = 3 /\ total' = total /\
   exists v, stoi str 16 = Some v /\
             chips' = insert_at i (Chip.mk beat 0 (inject_Z v)) chips) \/
  (channel = 8 /\ total' = total /\
   exists k v, stoi str 36 = Some k /\ BMS.bpmTable bms !! Z.to_nat k = Some v /\
               chips' = insert_at i (Chip.mk beat 0 v) chips) \/
  (channel = 9 /\ total' = total /\
   exists k v, stoi str 36 = Some k /\ BMS.stopTable bms !! Z.to_nat k = Some v /\
               chips' = insert_at i (Chip.mk beat v 0) chips) \/
  (is_note_channel channel = true /\
   ((i <> 0%nat /\ str = BMS.lnobj bms /\ total' = total /\
     exists prev, chips !! (i - 1)%nat = Some prev /\
                  chips' = <[(i - 1)%nat := Chip.set_beat2 beat prev]> chips) \/
    ((i = 0%nat \/ str <> BMS.lnobj bms) /\ total' = Int.add total 1 /\
     exists v, stoi str 36 = Some v /\
               chips' = insert_at i (Chip.mk beat 0 (inject_Z v)) chips))) \/
  (is_long_channel channel = true /\
   ((i <> 0%nat /\ total' = total /\
     exists prev, chips !! (i - 1)%nat = Some prev /\
                  (Chip.beat2 prev < 0)%Q /\
                  chips' = <[(i - 1)%nat := Chip.set_beat2 beat prev]> chips) \/
    ((i = 0%nat \/
      exists prev, chips !! (i - 1)%nat = Some prev /\ (0 <= Chip.beat2 prev)%Q) /\
     total' = Int.add total 1 /\
     exists v, stoi str 36 = Some v /\
               chips' = insert_at i (Chip.mk beat (-1) (inject_Z v)) chips))) \/
  (channel <> 1 /\ channel <> 3 /\ channel <> 8 /\ channel <> 9 /\
   is_note_channel channel = false /\ is_long_channel channel = false /\
   chips' = chips /\ total' = total).

(** A property of each kind of sequence of a chart. *)
Definition sequences_ok (Pbgm Pbpm Plane : Chips -> Prop) (bms : BMS.t) : Prop :=
  Pbgm (BMS.bgms bms) /\ Pbpm (BMS.bpms bms) /\ Forall Plane (BMS.lanes bms).

(** The counter is the number of chips of the lanes less the number of
    lanes, as an [int]. *)
Definition count_ok (bms : BMS.t) : Prop :=
  Int.in_range (BMS.totalNotes bms) /\
  Int.wrap (BMS.totalNotes bms
            - Z.of_nat (sum_list_with (length (A := Chip.t)) (BMS.lanes bms)))
  = Int.wrap (- Z.of_nat (length (BMS.lanes bms))).

(** A chart with a long note on channel 51, opened and closed. *)
Definition long_chart : list Line :=
  [ Command "BPM" "120" (Some 120%Q); Channel 0 51 "0A00000A"; Channel 1 1 "0B" ].

Definition long_bms : BMS.t :=
  Eval vm_compute in
    match parseBMS long_chart BMS.zero with
    | Some bms => bms
    | None => BMS.zero
    end.

(** ** The timeline as a function *)

(** The beat that [update] computes in segment [s] at time [time]. *)
Definition beat_at (s : Segment.t) (time : Q) : Q :=
  (Segment.beat s + (time - Segment.time s) * Segment.velocity s)%Q.


(** ** What a session keeps *)

(** No cursor of [p'] is behind the same cursor of [p]. *)
Definition lane_le (a b : Lane.t) : Prop :=
  (Lane.begin a <= Lane.begin b)%nat /\ (Lane.end_ a <= Lane.end_ b)%nat.

Definition cursors_le (p p' : Player.t) : Prop :=
  (Player.segments p <= Player.segments p')%nat /\
  (Player.bgm p <= Player.bgm p')%nat /\
  Forall2 lane_le (Player.lanes p) (Player.lanes p').

(** The four counters add up to [totalJudges], as [int]s. *)
Definition tally_ok (s : Score.t) : Prop :=
  Int.wrap (foldr Z.add 0 (Score.judges s)) = Int.wrap (Score.totalJudges s).

(** [n] calls of [handler] in which no lane key is read. *)
Definition idle_polls (n : nat) (g : Game.t) : Game.t := Nat.iter n shift_inputs g.

(** The key read is bound to none of the lanes. *)
Definition unbound_key (keyBinds : string) (input : Z) : Prop :=
  forall i, (i < LANES_COUNT)%nat ->
            exists k, keyBind keyBinds i = Some k /\ k <> input.



(** An option set for automatic play. *)
Definition auto_option : Option.t := Option.mk 1.00 "azsxdcfv" 1.




(** The long note is being held: automatic play, or an input history
    that is not 0. *)
Definition holding (o : Option.t) (inp : Z) : Prop :=
  Option.autoPlay o <> 0 \/ inp <> 0.

(** The game after the key of lane 1 is read 20 ms into [long_bms]:
    the long note of that lane is held. *)
Definition long_held : Game.t :=
  Eval vm_compute in
    default (start_game default_option long_bms)
      (play_loop long_bms [mkFrame 20 true 122] (start_game default_option long_bms)).

(** The file that [bindChunkTable] ends with for the stem [stem]: the
    [.ogg] one if it loads, else the [.wav] one if it loads, else none. *)
Definition chunk_file (load : string -> bool) (basePath stem : string) : option string :=
  let ogg := (basePath ++ stem ++ ".ogg")%string in
  let wav := (basePath ++ stem ++ ".wav")%string in
  if load ogg then Some ogg else if load wav then Some wav else None.

(** A sound directory that holds one file. *)
Definition one_file (name : string) : string -> bool := String.eqb name.

(** A two-character key, as [\w{2}] delivers it. *)
Definition key_of (a b : ascii) : string := String a (String b EmptyString).

(** A lower-case letter as its capital, any other character as it is. *)
Definition capital (a : ascii) : ascii :=
  let n := nat_of_ascii a in
  if ((97 <=? n) && (n <=? 122))%nat then ascii_of_nat (n - 32) else a.

Fixpoint capitals (s : string) : string :=
  match s with
  | EmptyString => EmptyString
  | String a s' => String (capital a) (capitals s')
  end.

(** The notes the lanes have gone past: the sum of the [begin] cursors. *)
Definition begins (lanes : list Lane.t) : Z :=
  foldr (fun lane acc => Z.of_nat (Lane.begin lane) + acc) 0 lanes.

(** Every judgment recorded has moved one lane past one note. *)
Definition judged_ok (g : Game.t) : Prop :=
  Score.totalJudges (Game.score g) = Int.wrap (begins (Player.lanes (Game.player g))).

(** [printScore]: the numbers printed ([judges], [maxCombo], [point]),
    [None] when the function returns without printing. *)
Definition printScore (g : Game.t) : option (list Z * Z * Z) :=
  if (Player.gameover (Game.player g) =? 0) || negb (Option.autoPlay (Game.opt g) =? 0)
  then None
  else Some (Score.judges (Game.score g), Score.maxCombo (Game.score g),
             Score.point (Game.score g)).

(** An automatic session on [one_note_bms], played to its end. *)
Definition auto_frames : list Frame := [mkFrame 500 true (-1); mkFrame 600 false (-1)].

Definition auto_game : Game.t :=
  Eval vm_compute in
    default (start_game auto_option one_note_bms)
      (play one_note_bms 0 auto_frames (start_game auto_option one_note_bms)).

(** ** The phases of [update] *)

(** [update] as far as the end of its loop over the lanes: the clock,
    the segment, the background cues and the time-driven judgments. *)
Definition update_play (bms : BMS.t) (frame : Frame) (g : Game.t) : option Game.t :=
  let player := Game.player g in
  let currentTime := ((now frame - Player.startTime player) / 1000)%Q in
  cursor ← getSegment (BMS.segments bms) (Player.segments player) currentTime;
  segment ← BMS.segments bms !! cursor;
  let beat := (Segment.beat segment
               + (currentTime - Segment.time segment) * Segment.velocity segment)%Q in
  let player :=
    Player.set_bpm (Segment.bpm segment)
      (Player.set_beat beat (Player.set_segments cursor player)) in
  '(bgm, played) ←
    update_bgm (drop (Player.bgm player) (BMS.bgms bms)) beat
               (Player.bgm player) (Game.played g);
  let player := Player.set_bgm bgm player in
  let g := Game.set_played played (Game.set_player player g) in
  let padding :=
    if Option.autoPlay (Game.opt g) =? 0
    then F64.div (F64.mul (F64.add (F64.of_Q JUDGE_BORDER_GOOD) (F64.of_Q 0.001))
                          (F64.of_Q (Player.bpm player)))
                 (F64.of_Z 60)
    else F64.zero in
  update_lanes bms padding (seq 0 LANES_COUNT) g.



(** ** A session with a late key press *)

(** Six short notes in lane 1, at beats 1 to 6, at 120 beats per
    minute. *)
Definition six_chart : list Line :=
  [ Command "BPM" "120" (Some 120%Q);
    Channel 0 11 "00010101"; Channel 1 11 "01010100" ].

Definition six_bms : BMS.t :=
  Eval vm_compute in default BMS.zero (parseBMS six_chart BMS.zero).

(** The key of lane 1 at 0.5 s and at 1 s, on the first two notes, and
    no key at 1.7 s, when the third note is 0.2 s late. *)
Definition six_frames : list Frame :=
  [ mkFrame 500 true 122; mkFrame 1000 true 122; mkFrame 1700 true (-1) ].

(** The game after those three frames. *)
Definition six_game : Game.t :=
  Eval vm_compute in
    default (start_game default_option six_bms)
      (play six_bms 0 six_frames (start_game default_option six_bms)).

(** The key of lane 1 at 2.1 s: the fourth note, at beat 4, is
    0.10000000000000009 s late. *)
Definition six_late : Frame := mkFrame 2100 true 122.

(** The game of the fourth frame when [update] calls [handler]. *)
Definition six_game_late : Game.t :=
  Eval vm_compute in default six_game (update_play six_bms six_late six_game).

(** That game inside [handler], the key of lane 1 just recorded, when
    [judge] is called. *)
Definition six_game_pressed : Game.t :=
  Eval vm_compute in default six_game_late (press 1 (shift_inputs six_game_late)).

(** ** A session played to its end *)




(** ** The events of the tokens *)


(** ** The chart reader on [double]s

    [calcChip] once more, on chips whose fields are the [double]s the
    source keeps, for the charts that have a beat length which is not
    finite, on which the reader above has no result. *)

Module Raw.

Record Chip : Type := mk { beat : F64.t; beat2 : F64.t; value : F64.t }.

Definition Chips : Type := list Chip.

Definition set_beat2 (v : F64.t) (c : Chip) : Chip := mk (beat c) v (value c).

(** [{ INT_MAX, 0, 0 }] *)
Definition sentinel : Chip := mk (F64.of_Z Int.max) F64.zero F64.zero.

(** A [float] as the [double] of the same value. *)
Definition widen (x : F32.t) : F64.t :=
  match x with
  | S754_finite s m e =>
      binary_normalize 53 1024 (if s then Zneg m else Zpos m) e false
  | _ => x
  end.

(** [bms.beats[...] = std::stof(m[2]) * 4]: the product of [float]s,
    stored in a [double]. *)
Definition measure_length (x : Q) : F64.t :=
  widen (F32.mul (F32.of_Q x) (F32.of_Z 4)).

(** [parseBMSMeasure] on [bms.beats]. *)
Definition parseBMSMeasure (beats : list F64.t) (line : Line) : option (list F64.t) :=
  match line with
  | Measure m num =>
      x ← num;
      _ ← beats !! m;
      Some (<[m := measure_length x]> beats)
  | _ => Some beats
  end.

(** [std::accumulate(beats.cbegin(), beats.cbegin() + measure, 0.0)] *)
Definition accumulate (beats : list F64.t) (measure : nat) : F64.t :=
  fold_left F64.add (take measure beats) F64.zero.

(** [init_beat + c * bms.beats[measure] / length] *)
Definition chip_beat (init_beat : F64.t) (c : nat) (b : F64.t) (length : nat) : F64.t :=
  F64.add init_beat
    (F64.div (F64.mul (F64.of_Z (Z.of_nat c)) b) (F64.of_Z (Z.of_nat length))).

(** [while (chips.at(i).beat <= beat) i++;] *)
Fixpoint scan_from (rest : Chips) (i : nat) (beat : F64.t) : option nat :=
  match rest with
  | [] => None
  | ch :: rest' =>
      if F64.leb (Raw.beat ch) beat then scan_from rest' (S i) beat else Some i
  end.

Definition scan (chips : Chips) (i : nat) (beat : F64.t) : option nat :=
  scan_from (drop i chips) i beat.

(** [chips.insert(chips.cbegin() + i, chip)] *)
Definition insert_at (i : nat) (chip : Chip) (chips : Chips) : Chips :=
  take i chips ++ chip :: drop i chips.

(** What [calcChip] reads of the chart: [bms.beats], [bms.bpmTable],
    [bms.stopTable] and [bms.lnobj]. *)
Record Tables : Type := mkTables {
  beats : list F64.t;
  bpmTable : list F64.t;
  stopTable : list F64.t;
  lnobj : string
}.

Definition ChipState : Type := nat * Chips * Z.

(** One iteration of the [for] loop of [calcChip], for the token at
    index [c]. *)
Definition calcChip_token (bms : Tables) (measure : nat) (notation : string)
    (channel : Z) (length : nat) (init_beat : F64.t) (c : nat) (st : ChipState)
    : option ChipState :=
  let '(i0, chips, total) := st in
  let str := token notation c in
  if String.eqb str "00" then Some st else
  b ← beats bms !! measure;
  let beat := chip_beat init_beat c b length in
  i ← scan chips i0 beat;
  if channel =? 1 then
    v ← stoi str 36;
    Some (i, insert_at i (mk beat F64.zero (F64.of_Z v)) chips, total)
  else if channel =? 3 then
    v ← stoi str 16;
    Some (i, insert_at i (mk beat F64.zero (F64.of_Z v)) chips, total)
  else if channel =? 8 then
    k ← stoi str 36;
    v ← bpmTable bms !! Z.to_nat k;
    Some (i, insert_at i (mk beat F64.zero v) chips, total)
  else if channel =? 9 then
    k ← stoi str 36;
    v ← stopTable bms !! Z.to_nat k;
    Some (i, insert_at i (mk beat v F64.zero) chips, total)
  else if is_note_channel channel then
    if negb (i =? 0)%nat && String.eqb str (lnobj bms) then
      prev ← chips !! (i - 1)%nat;
      Some (i, <[(i - 1)%nat := set_beat2 beat prev]> chips, total)
    else
      v ← stoi str 36;
      Some (i, insert_at i (mk beat F64.zero (F64.of_Z v)) chips, Int.add total 1)
  else if is_long_channel channel then
    open ← (if (i =? 0)%nat then Some None
            else prev ← chips !! (i - 1)%nat;
                 Some (if F64.ltb (beat2 prev) F64.zero then Some prev else None));
    match open with
    | Some prev =>
        Some (i, <[(i - 1)%nat := set_beat2 beat prev]> chips, total)
    | None =>
        v ← stoi str 36;
        Some (i, insert_at i (mk beat (F64.of_Z (-1)) (F64.of_Z v)) chips,
              Int.add total 1)
    end
  else Some (i, chips, total).

Fixpoint calcChip_loop (bms : Tables) (measure : nat) (notation : string)
    (channel : Z) (length : nat) (init_beat : F64.t) (cs : list nat)
    (st : ChipState) : option ChipState :=
  match cs with
  | [] => Some st
  | c :: cs' =>
      st' ← calcChip_token bms measure notation channel length init_beat c st;
      calcChip_loop bms measure notation channel length init_beat cs' st'
  end.

(** [calcChip] on the vector [chips], with [bms.totalNotes = total]. *)
Definition calcChip (chips : Chips) (measure : nat) (notation : string)
    (bms : Tables) (channel : Z) (total : Z) : option (Chips * Z) :=
  let length := (String.length notation / 2)%nat in
  let init_beat := accumulate (beats bms) measure in
  '(_, chips', total') ←
    calcChip_loop bms measure notation channel length init_beat
      (seq 0 length) (0%nat, chips, total);
  Some (chips', total').

(** Beats never decrease along the vector, by the comparison of the
    source. *)
Definition ascending (chips : Chips) : Prop :=
  forall i j a b, (i <= j)%nat -> chips !! i = Some a -> chips !! j = Some b ->
                  F64.leb (beat a) (beat b) = true.

End Raw.

(** The chart [#00002:] followed by 1 and 38 zeros, and [#00011:01]:
    the number of the directive as [std::stof] reads it, the beat
    lengths after the first pass ([beats.fill(4)], then the directive
    of measure 0), and the lane of channel 11 before its line is
    read. *)
Definition huge : Q := 99999996802856924650656260769173209088 # 1.

Definition huge_chart : list Line := [ Measure 0 (Some huge); Channel 0 11 "01" ].

Definition huge_beats : list F64.t :=
  default []
    (foldl (fun beats line => beats ≫= fun b => Raw.parseBMSMeasure b line)
           (Some (replicate 1000 (F64.of_Z 4))) huge_chart).

Definition huge_tables : Raw.Tables :=
  Raw.mkTables huge_beats (replicate 1296 F64.zero) (replicate 1296 F64.zero) "".

(** ** A key on the border of the good window *)

(** One short note at beat 0.25 in lane 1, at 120 beats per minute, and
    the game when the beat of the player is the [double] of 0.05. *)
Definition border_chart : list Line :=
  [ Command "BPM" "120" (Some 120%Q);
    Channel 0 11 "00010000000000000000000000000000" ].

Definition border_bms : BMS.t :=
  Eval vm_compute in default BMS.zero (parseBMS border_chart BMS.zero).

Definition border_game : Game.t :=
  let g := start_game default_option border_bms in
  Game.set_player
    (Player.set_bpm 120
       (Player.set_beat (3602879701896397 # 72057594037927936) (Game.player g))) g.
(** * Properties *)

(** ** Machine integers *)

Lemma wrap_small z : Int.in_range z -> Int.wrap z = z.
Proof.
  unfold Int.in_range, Int.wrap, Int.min, Int.max. intros H.
  rewrite Z.mod_small; lia.
Qed.

Lemma wrap_range z : Int.in_range (Int.wrap z).
Proof.
  unfold Int.in_range, Int.wrap, Int.min, Int.max.
  pose proof (Z.mod_pos_bound (z + 2147483648) 4294967296). lia.
Qed.

Lemma wrap_odd z : Z.odd (Int.wrap z) = Z.odd z.
Proof.
  unfold Int.wrap.
  pose proof (Z.div_mod (z + 2147483648) 4294967296) as E.
  set (q := (z + 2147483648) / 4294967296) in *.
  replace ((z + 2147483648) mod 4294967296 - 2147483648)
    with (z + 2 * (- 2147483648 * q)) by lia.
  apply Z.odd_add_mul_2.
Qed.

(** Rewrites [wrap z] to [z] wherever [z] is seen to be in range. *)
Ltac unwrap :=
  unfold Int.add, Int.sub, Int.mul, Int.neg;
  repeat match goal with
    | |- context [Int.wrap ?z] =>
        lazymatch z with
        | context [Int.wrap _] => fail
        | _ => rewrite (wrap_small z)
                 by (unfold Int.in_range, Int.min, Int.max in *; nia)
        end
    end.

(** ** Scoring *)

Lemma comboBonus_num_exact c :
  0 <= c <= 42955 ->
  comboBonus_num c = 1250 * (c * c - (c - 10) * Z.abs (c - 11) + 19 * c - 110).
Proof.
  intros Hc. unfold comboBonus_num.
  assert (E : Int.sub c 11 = c - 11) by (unwrap; lia).
  rewrite E.
  destruct (Z.ltb_spec (c - 11) 0) as [Hlt | Hge].
  - rewrite Z.abs_neq by lia.
    assert (E10 : Int.sub c 10 = c - 10) by (unwrap; lia).
    assert (En : Int.neg (c - 11) = - (c - 11)) by (unwrap; lia).
    rewrite E10, En. unwrap. reflexivity.
  - rewrite Z.abs_eq by lia.
    assert (E10 : Int.sub c 10 = c - 10) by (unwrap; lia).
    rewrite E10. unwrap. reflexivity.
Qed.

Lemma comboBonus_den_odd t : Z.odd (comboBonus_den t) = true.
Proof.
  unfold comboBonus_den, Int.sub, Int.mul.
  rewrite wrap_odd, Z.odd_sub, wrap_odd, Z.odd_mul. reflexivity.
Qed.

Lemma comboBonus_den_nonzero t : comboBonus_den t <> 0.
Proof.
  intros E. pose proof (comboBonus_den_odd t) as H. rewrite E in H. discriminate.
Qed.

Lemma comboBonus_den_exact t :
  -1000000000 <= t <= 1000000000 -> comboBonus_den t = 2 * t - 11.
Proof. intros Ht. unfold comboBonus_den. unwrap. reflexivity. Qed.

Lemma comboBonus_some score :
  comboBonus score =
  Some (Score.set_comboBonus
          (Int.wrap (Z.quot (comboBonus_num (Score.combo score))
                            (comboBonus_den (Score.totalNotes score))))
          score).
Proof.
  unfold comboBonus, Int.div.
  destruct (Z.eqb_spec (comboBonus_den (Score.totalNotes score)) 0) as [E | _].
  - destruct (comboBonus_den_nonzero _ E).
  - reflexivity.
Qed.

Lemma quot_bound a b : 0 <= a -> b <> 0 -> - a <= Z.quot a b <= a.
Proof.
  assert (Hpos : forall a b, 0 <= a -> 0 < b -> 0 <= a / b <= a).
  { intros x y Hx Hy. split; [apply Z.div_pos; lia |].
    apply Z.div_le_upper_bound; [lia |].
    rewrite <- (Z.mul_1_l x) at 1. apply Z.mul_le_mono_nonneg_r; lia. }
  intros Ha Hb.
  destruct (Z.lt_total b 0) as [Hneg | [E | Hgt]]; [| contradiction |].
  - replace b with (- (- b)) by lia. rewrite Z.quot_opp_r by lia.
    rewrite Z.quot_div_nonneg by lia.
    specialize (Hpos a (- b) Ha ltac:(lia)). lia.
  - rewrite Z.quot_div_nonneg by lia.
    specialize (Hpos a b Ha Hgt). lia.
Qed.

Lemma comboBonus_exact score :
  0 <= Score.combo score <= 42955 ->
  -1000000000 <= Score.totalNotes score <= 1000000000 ->
  comboBonus score =
  Some (Score.set_comboBonus (bonus (Score.combo score) (Score.totalNotes score)) score).
Proof.
  intros Hc Ht. rewrite comboBonus_some. unfold bonus.
  rewrite comboBonus_num_exact, comboBonus_den_exact by assumption.
  set (num := 1250 * _).
  assert (Hnum : 0 <= num <= 2147475000).
  { subst num. destruct (Z.abs_spec (Score.combo score - 11)) as [[? ->] | [? ->]]; nia. }
  pose proof (quot_bound num (2 * Score.totalNotes score - 11) ltac:(lia) ltac:(lia)).
  rewrite wrap_small; [reflexivity |].
  unfold Int.in_range, Int.min, Int.max. lia.
Qed.

(** What a combo reset leaves in the score: the former value of
    [comboBonus] does not occur on the right. *)
Lemma comboCount_exact score :
  0 <= Score.combo score <= 42955 ->
  -1000000000 <= Score.totalNotes score <= 1000000000 ->
  comboCount score =
  Some (Score.mk (Score.judges score) 0
                 (bonus (Score.combo score) (Score.totalNotes score))
                 (Z.max (Score.maxCombo score) (Score.combo score))
                 (Score.point score) (Score.totalJudges score)
                 (Score.totalNotes score)).
Proof.
  intros Hc Ht. unfold comboCount.
  destruct (Z.ltb_spec (Score.maxCombo score) (Score.combo score)) as [Hlt | Hge].
  - rewrite comboBonus_exact by assumption. destruct score; simpl in *.
    unfold Score.set_combo, Score.set_comboBonus; simpl.
    rewrite Z.max_r by lia. reflexivity.
  - rewrite comboBonus_exact by assumption. destruct score; simpl in *.
    unfold Score.set_combo, Score.set_comboBonus; simpl.
    rewrite Z.max_l by lia. reflexivity.
Qed.

(** C1 (the code at the failing input).  On a chart of 100 notes a miss
    after a combo of 50 leaves a bonus of 11772; the reset at the end of
    the session, with no combo running, then leaves the bonus 0: the
    second reset replaces what the first one earned, where the sum would
    be 11772. *)
Theorem comboBonus_overwritten :
  let s0 := Score.mk [0; 0; 0; 0] 50 0 0 0 0 100 in
  exists s1 s2,
    calcReset s0 = Some s1 /\
    Score.maxCombo s1 = 50 /\ Score.combo s1 = 0 /\ Score.comboBonus s1 = 11772 /\
    bonus 0 100 = 0 /\
    comboCount s1 = Some s2 /\
    Score.comboBonus s2 = 0 /\ Score.comboBonus s2 <> Score.comboBonus s1 + bonus 0 100.
Proof.
  eexists _, _.
  split; [vm_compute; reflexivity |].
  repeat split; vm_compute; congruence.
Qed.



(** ** What the judgment leaves alone

    [point] is written by [scoreCount] only, [gameover] by [gameOver]
    only, and [quit] is only ever set. *)

(** Splits a successful sequence of fallible steps into its steps. *)
Ltac invert_some :=
  repeat match goal with
    | H : Some _ = Some _ |- _ => injection H as H; try subst
    | H : None = Some _ |- _ => discriminate H
    | H : (_ ≫= _) = Some _ |- _ =>
        let x := fresh "x" in
        let Hx := fresh "Hx" in
        apply bind_Some in H; destruct H as (x & Hx & H)
    | H : (let '(_, _) := ?p in _) = Some _ |- _ => destruct p
    | H : (if ?b then _ else _) = Some _ |- _ => destruct b eqn:?
    | H : match ?o with Some _ => _ | None => _ end = Some _ |- _ =>
        destruct o eqn:?
    end.


























(** ** Division by zero *)

(** C3 (counterexample).  A chart with one background cue and no note
    is parsed with [totalNotes = 0]; a frame one second in, with the cue
    still sounding, is played normally; the score then has
    [totalNotes = 0], its combo reset succeeds and its [scoreCount]
    divides by zero; the same frame with no sound left calls [gameOver]
    and has no result. *)
Lemma zero_notes_reach_scoreCount :
  exists bms g s1,
    parseBMS cue_chart BMS.zero = Some bms /\
    BMS.totalNotes bms = 0 /\
    play bms 0 [mkFrame 1000 true (-1)] (start_game default_option bms) = Some g /\
    Score.totalNotes (Game.score g) = 0 /\
    comboCount (Game.score g) = Some s1 /\
    Int.div (Int.mul 75000 0) (Score.totalNotes s1) = None /\
    scoreCount s1 = None /\
    gameOver g = None /\
    play bms 0 [mkFrame 1000 false (-1)] (start_game default_option bms) = None.
Proof.
  eexists _, _, _.
  split; [vm_compute; reflexivity |].
  split; [reflexivity |].
  split; [vm_compute; reflexivity |].
  split; [reflexivity |].
  split; [vm_compute; reflexivity |].
  repeat split; vm_compute; reflexivity.
Qed.

Lemma scoreCount_is_Some score :
  length (Score.judges score) = JUDGE_PHASES ->
  is_Some (scoreCount score) <-> Score.totalNotes score <> 0.
Proof.
  intros Hlen. unfold scoreCount, Int.div.
  destruct (Score.judges score) as [| j0 [| j1 [| j2 rest]]]; try discriminate Hlen.
  simpl. destruct (Z.eqb_spec (Score.totalNotes score) 0) as [E | E]; simpl.
  - split; [intros [x Hx]; discriminate | contradiction].
  - split; [auto | eauto].
Qed.

(** C3 (amended).  The divisor of [comboBonus], [2 * totalNotes - 11],
    is never zero, so [comboBonus] and the combo reset always have a
    result; [scoreCount] divides by [totalNotes] itself and has a result
    exactly when [totalNotes] is not zero. *)
Theorem scoring_divisors score :
  length (Score.judges score) = JUDGE_PHASES ->
  comboBonus_den (Score.totalNotes score) <> 0 /\
  is_Some (comboBonus score) /\
  is_Some (comboCount score) /\
  (is_Some (scoreCount score) <-> Score.totalNotes score <> 0).
Proof.
  intros Hlen.
  split; [apply comboBonus_den_nonzero |].
  split; [rewrite comboBonus_some; eauto |].
  split; [| apply scoreCount_is_Some; assumption].
  unfold comboCount.
  destruct (Score.maxCombo score <? Score.combo score);
    rewrite comboBonus_some; simpl; eauto.
Qed.

Lemma scoring_divisors_witness :
  comboBonus_den 5 <> 0 /\
  is_Some (comboBonus (Score.mk [0; 0; 0; 0] 3 0 0 0 0 5)) /\
  is_Some (comboCount (Score.mk [0; 0; 0; 0] 3 0 0 0 0 5)) /\
  (is_Some (scoreCount (Score.mk [0; 0; 0; 0] 3 0 0 0 0 5)) <-> 5 <> 0).
Proof.
  apply (scoring_divisors (Score.mk [0; 0; 0; 0] 3 0 0 0 0 5)). reflexivity.
Defined.

(** ** The segment cursor *)

Lemma getSegment_from_spec next i time j :
  getSegment_from next i time = Some j ->
  (i <= j)%nat /\
  (forall k s, (k < j - i)%nat -> next !! k = Some s ->
               Qleb (Segment.time s) time = true) /\
  (exists s, next !! (j - i)%nat = Some s /\ Qleb (Segment.time s) time = false).
Proof.
  revert i. induction next as [| s0 next IH]; simpl; intros i H; [discriminate |].
  destruct (Qleb (Segment.time s0) time) eqn:E.
  - apply IH in H. destruct H as (Hle & Hbefore & s & Hs & Hlt).
    split; [lia |]. split.
    + intros k s' Hk Hs'. destruct k as [| k]; simpl in Hs'.
      * congruence.
      * apply (Hbefore k); [lia | assumption].
    + exists s. replace (j - i)%nat with (S (j - S i)) by lia. auto.
  - injection H as <-. split; [lia |]. split.
    + intros k s' Hk. lia.
    + exists s0. rewrite Nat.sub_diag. auto.
Qed.

Lemma getSegment_from_total next i time k s :
  next !! k = Some s -> Qleb (Segment.time s) time = false ->
  is_Some (getSegment_from next i time).
Proof.
  revert i k. induction next as [| s0 next IH]; simpl; intros i k Hs Hlt.
  - discriminate.
  - destruct (Qleb (Segment.time s0) time) eqn:E; [| eauto].
    destruct k as [| k]; simpl in Hs; [congruence |]. eauto.
Qed.

Lemma getSegment_calls_forward all segments times cursors :
  getSegment_calls all segments times = Some cursors ->
  forward (segments :: cursors).
Proof.
  revert segments cursors. induction times as [| time times IH];
    simpl; intros segments cursors H.
  - invert_some. unfold forward. repeat constructor.
  - invert_some. unfold forward in *.
    apply Sorted_cons; [apply IH; assumption |]. apply HdRel_cons.
    match goal with
    | H : getSegment _ _ _ = Some _ |- _ =>
        unfold getSegment in H; apply getSegment_from_spec in H; lia
    end.
Qed.

(** C7.  [getSegment] only moves its cursor forward: the new cursor [j]
    is at or after the old one, every segment passed on the way has a
    time at most [time] and the segment after [j] has a later time;
    it has a result as soon as some later segment has a time above
    [time]; and over successive calls on one cursor the indices returned
    never decrease (whatever the times asked for, so in particular for
    times that do not decrease). *)
Theorem getSegment_forward (all : Segments) (segments : nat) (time : Q) :
  (forall j, getSegment all segments time = Some j ->
     (segments <= j)%nat /\
     (forall k s, (segments < k <= j)%nat -> all !! k = Some s ->
                  Qleb (Segment.time s) time = true) /\
     (exists s, all !! S j = Some s /\ Qleb (Segment.time s) time = false)) /\
  (forall k s, (segments < k)%nat -> all !! k = Some s ->
     Qleb (Segment.time s) time = false ->
     is_Some (getSegment all segments time)) /\
  (forall times cursors,
     getSegment_calls all segments times = Some cursors ->
     forward (segments :: cursors)).
Proof.
  split; [| split].
  - unfold getSegment. intros j H.
    apply getSegment_from_spec in H. destruct H as (Hle & Hbefore & s & Hs & Hlt).
    split; [assumption |]. split.
    + intros k s' Hk Hs'. apply (Hbefore (k - S segments)%nat); [lia |].
      rewrite lookup_drop. replace (S segments + (k - S segments))%nat with k by lia.
      assumption.
    + exists s. rewrite lookup_drop in Hs.
      replace (S segments + (j - segments))%nat with (S j) in Hs by lia. auto.
  - unfold getSegment. intros k s Hk Hs Hlt.
    apply (getSegment_from_total _ _ _ (k - S segments)%nat s); [| assumption].
    rewrite lookup_drop. replace (S segments + (k - S segments))%nat with k by lia.
    assumption.
  - apply getSegment_calls_forward.
Qed.

Lemma getSegment_forward_witness :
  let all := [Segment.mk 0 0 2 120; Segment.mk 1 2 2 120;
              Segment.mk 3 6 1 60; Segment.mk INT_MAX INT_MAX 0 0] in
  getSegment_calls all 0 [2%Q; 1%Q; 5%Q] = Some [1; 1; 2]%nat /\
  forward [0; 1; 1; 2]%nat.
Proof.
  intros all. split; [vm_compute; reflexivity |].
  apply (proj2 (proj2 (getSegment_forward all 0 2)) [2%Q; 1%Q; 5%Q] [1; 1; 2]%nat).
  vm_compute. reflexivity.
Defined.

(** ** Comparisons of [double] *)

Lemma Qleb_true x y : Qleb x y = true <-> (x <= y)%Q.
Proof. apply Qle_bool_iff. Qed.

Lemma Qleb_false x y : Qleb x y = false <-> (y < x)%Q.
Proof.
  unfold Qleb. rewrite <- not_true_iff_false, Qle_bool_iff.
  split; [apply Qnot_le_lt | apply Qlt_not_le].
Qed.

Lemma Qltb_true x y : Qltb x y = true <-> (x < y)%Q.
Proof. unfold Qltb. rewrite negb_true_iff. apply Qleb_false. Qed.

Lemma Qltb_false x y : Qltb x y = false <-> (y <= x)%Q.
Proof. unfold Qltb. rewrite negb_false_iff. apply Qleb_true. Qed.

(** Turns the boolean comparisons in the context and the goal into
    propositions. *)
Ltac Qbool :=
  repeat match goal with
    | H : Qleb _ _ = true |- _ => apply Qleb_true in H
    | H : Qleb _ _ = false |- _ => apply Qleb_false in H
    | H : Qltb _ _ = true |- _ => apply Qltb_true in H
    | H : Qltb _ _ = false |- _ => apply Qltb_false in H
    | |- Qleb _ _ = true => apply Qleb_true
    | |- Qleb _ _ = false => apply Qleb_false
    | |- Qltb _ _ = true => apply Qltb_true
    | |- Qltb _ _ = false => apply Qltb_false
    end.

(** ** Judging a key press *)

(** ** Comparisons of floats *)






Lemma leb_not_leb_opp t mg eg :
  F64.leb t (F64.opp (S754_finite false mg eg)) = true ->
  F64.leb (S754_finite false mg eg) t = false.
Proof.
  destruct t as [s | s | | s m e]; try reflexivity; try discriminate;
    destruct s; try reflexivity; discriminate.
Qed.


(** ** Judging a key press *)





(** On the border of the good window the code decides on the
    [double]s: with the note at beat 0.25 and the player at the
    [double] of 0.05, at 120 beats per minute, the timing error in
    exact numbers is below 0.1, but the code computes the [double] of
    0.1 itself, which is not below the border, and [judge] ignores the
    key. *)
Example judge_press_border :
  let player := Game.player border_game in
  begin_chip border_bms player 1 = Some (Chip.mk (4 # 16) 0 1) /\
  ((Chip.beat (Chip.mk (4 # 16) 0 1) - Player.beat player) * 60 / Player.bpm player
   < JUDGE_BORDER_GOOD)%Q /\
  judge_time (Chip.mk (4 # 16) 0 1) player = F64.of_Q JUDGE_BORDER_GOOD /\
  judge border_bms 1 border_game = Some border_game.
Proof. vm_compute. repeat split. Qed.

Lemma one_note_parse : parseBMS one_note_chart BMS.zero = Some one_note_bms.
Proof. vm_compute. reflexivity. Qed.


(** ** A key pressed too late *)

(** A miss in exact integers. *)
Lemma calcReset_exact score j3 :
  Score.judges score !! 3%nat = Some j3 ->
  0 <= Score.combo score <= 42955 ->
  -1000000000 <= Score.totalNotes score <= 1000000000 ->
  calcReset score =
  Some (Score.mk (<[3%nat := Int.add j3 1]> (Score.judges score)) 0
                 (bonus (Score.combo score) (Score.totalNotes score))
                 (Z.max (Score.maxCombo score) (Score.combo score))
                 (Score.point score)
                 (Int.add (Score.totalJudges score) 1)
                 (Score.totalNotes score)).
Proof.
  intros Hj Hc Ht. unfold calcReset, incr_judge. simpl.
  rewrite Hj. simpl. rewrite comboCount_exact by assumption. reflexivity.
Qed.

Lemma handler_lanes_first bms input before index after g :
  (forall i, i ∈ before ->
     exists k, keyBind (Option.keyBinds (Game.opt g)) i = Some k /\ k <> input) ->
  keyBind (Option.keyBinds (Game.opt g)) index = Some input ->
  handler_lanes bms input (before ++ index :: after) g
  = press index g ≫= judge bms index.
Proof.
  intros Hbefore Hindex. induction before as [| i before IH]; simpl.
  - rewrite Hindex. simpl. rewrite Z.eqb_refl. simpl. unfold press.
    destruct (Player.inputs (Game.player g) !! index); simpl; [| reflexivity].
    destruct (set_input index _ _); reflexivity.
  - destruct (Hbefore i) as (k & Hk & Hne); [left |].
    rewrite Hk. simpl.
    destruct (Z.eqb_spec input k); [congruence |]. simpl.
    apply IH. intros i' Hi'. apply Hbefore. right. assumption.
Qed.

(** The key of lane [index] reaches [judge] through [handler]. *)
Lemma handler_judges bms input index g :
  Option.autoPlay (Game.opt g) = 0 ->
  is_command_key input = false ->
  (index < LANES_COUNT)%nat ->
  (forall i, (i < index)%nat ->
     exists k, keyBind (Option.keyBinds (Game.opt g)) i = Some k /\ k <> input) ->
  keyBind (Option.keyBinds (Game.opt g)) index = Some input ->
  handler bms input g = press index (shift_inputs g) ≫= judge bms index.
Proof.
  intros Hauto Hkey Hlt Hbefore Hindex. unfold handler, is_command_key in *.
  cbv zeta. fold (shift_inputs g).
  change (Game.opt (shift_inputs g)) with (Game.opt g).
  apply orb_false_elim in Hkey. destruct Hkey as [Hkey H12].
  apply orb_false_elim in Hkey. destruct Hkey as [Hkey H113].
  apply orb_false_elim in Hkey. destruct Hkey as [H51 H52].
  rewrite H51, H52, H113, H12, Hauto.
  change (negb (0 =? 0)) with false. cbv iota.
  replace (seq 0 LANES_COUNT)
    with (seq 0 index ++ index :: seq (S index) (LANES_COUNT - S index)).
  - apply handler_lanes_first; [| assumption].
    intros i Hi. apply Hbefore. apply elem_of_seq in Hi. lia.
  - replace LANES_COUNT with (index + S (LANES_COUNT - S index))%nat at 2 by lia.
    rewrite seq_app. reflexivity.
Qed.


(** The late branch of [judge] tests [time <= -0.100] after
    [time >= 0.100]; the first test cannot succeed when the second
    does. *)
Lemma late_not_early t :
  F64.leb t (F64.opp (F64.of_Q JUDGE_BORDER_GOOD)) = true ->
  F64.leb (F64.of_Q JUDGE_BORDER_GOOD) t = false.
Proof.
  change (F64.of_Q JUDGE_BORDER_GOOD) with (S754_finite false 7205759403792794 (-56)).
  apply leb_not_leb_opp.
Qed.

(** The late branch of [judge]. *)
Lemma judge_miss bms index g note lane j3 :
  Player.judges (Game.player g) !! index = Some 0 ->
  Player.lanes (Game.player g) !! index = Some lane ->
  begin_chip bms (Game.player g) index = Some note ->
  F64.leb (judge_time note (Game.player g)) (F64.opp (F64.of_Q JUDGE_BORDER_GOOD)) = true ->
  Score.judges (Game.score g) !! 3%nat = Some j3 ->
  0 <= Score.combo (Game.score g) <= 42955 ->
  -1000000000 <= Score.totalNotes (Game.score g) <= 1000000000 ->
  judge bms index g =
    Some (Game.set_player
            (Player.set_lanes
               (<[index := Lane.mk (S (Lane.begin lane)) (Lane.end_ lane)]>
                  (Player.lanes (Game.player g))) (Game.player g))
            (Game.set_score
               (Score.mk (<[3%nat := Int.add j3 1]> (Score.judges (Game.score g))) 0
                         (bonus (Score.combo (Game.score g))
                                (Score.totalNotes (Game.score g)))
                         (Z.max (Score.maxCombo (Game.score g))
                                (Score.combo (Game.score g)))
                         (Score.point (Game.score g))
                         (Int.add (Score.totalJudges (Game.score g)) 1)
                         (Score.totalNotes (Game.score g))) g)).
Proof.
  intros Hpending Hlane Hnote Hlate Hj Hc Ht.
  unfold judge. rewrite Hpending. simpl. rewrite Hnote. simpl.
  rewrite (late_not_early _ Hlate), Hlate.
  rewrite (calcReset_exact (Game.score g) j3) by assumption. simpl.
  unfold begin_incr. rewrite Hlane. reflexivity.
Qed.

(** X22.  A judgment on a lane with no pending tier whose next note is
    late by the good window or more, [dt <= -0.100] for the timing
    error [dt] as the code computes it in [double]s, records a miss:
    the miss counter and [totalJudges] are incremented, [maxCombo]
    becomes the larger of itself and [combo], [comboBonus] becomes the
    bonus of [combo] alone, [combo] becomes 0 and [begin] advances by
    one.  Both entry points come to this branch: [handler], in manual
    mode, for the key bound to the lane; and the loop of [update] over
    the lanes, once the beat of the note plus the padding is reached,
    whose result for the lane has this score and this [begin]. *)
Theorem late_press bms index g note lane j3 :
  let player := Game.player g in
  let score := Game.score g in
  let missed :=
    Score.mk (<[3%nat := Int.add j3 1]> (Score.judges score)) 0
             (bonus (Score.combo score) (Score.totalNotes score))
             (Z.max (Score.maxCombo score) (Score.combo score))
             (Score.point score)
             (Int.add (Score.totalJudges score) 1)
             (Score.totalNotes score) in
  Player.judges player !! index = Some 0 ->
  Player.lanes player !! index = Some lane ->
  begin_chip bms player index = Some note ->
  F64.leb (judge_time note player) (F64.opp (F64.of_Q JUDGE_BORDER_GOOD)) = true ->
  Score.judges score !! 3%nat = Some j3 ->
  0 <= Score.combo score <= 42955 ->
  -1000000000 <= Score.totalNotes score <= 1000000000 ->
  judge bms index g =
    Some (Game.set_player
            (Player.set_lanes
               (<[index := Lane.mk (S (Lane.begin lane)) (Lane.end_ lane)]>
                  (Player.lanes player)) player)
            (Game.set_score missed g)) /\
  (forall g0 input,
      Option.autoPlay (Game.opt g0) = 0 ->
      is_command_key input = false ->
      (index < LANES_COUNT)%nat ->
      (forall i, (i < index)%nat ->
         exists k, keyBind (Option.keyBinds (Game.opt g0)) i = Some k /\ k <> input) ->
      keyBind (Option.keyBinds (Game.opt g0)) index = Some input ->
      press index (shift_inputs g0) = Some g ->
      handler bms input g0 = judge bms index g) /\
  (forall padding last,
      F64.leb (F64.add (F64.of_Q (Chip.beat note)) padding)
              (F64.of_Q (Player.beat player)) = true ->
      end_chip bms player index = Some last ->
      exists g' end',
        update_lane bms padding index g = Some g' /\
        Game.score g' = missed /\
        Player.lanes (Game.player g') !! index
          = Some (Lane.mk (S (Lane.begin lane)) end')).
Proof.
  intros player score missed Hpending Hlane Hnote Hlate Hj Hc Ht.
  pose proof (judge_miss bms index g note lane j3 Hpending Hlane Hnote Hlate Hj Hc Ht)
    as Hjudge.
  assert (Hindex : (index < length (Player.lanes player))%nat)
    by (apply lookup_lt_is_Some; eauto).
  split; [exact Hjudge | split].
  - intros g0 input Hauto Hkey Hlt Hbefore Hkeybind Hpress.
    rewrite (handler_judges bms input index g0) by assumption.
    rewrite Hpress. reflexivity.
  - intros padding last Hreached Hlast.
    remember (Game.set_player
                (Player.set_lanes
                   (<[index := Lane.mk (S (Lane.begin lane)) (Lane.end_ lane)]>
                      (Player.lanes player)) player)
                (Game.set_score missed g)) as g1 eqn:Hg1.
    assert (Hlanes1 : Player.lanes (Game.player g1) !! index
                      = Some (Lane.mk (S (Lane.begin lane)) (Lane.end_ lane))).
    { subst g1. simpl. apply list_lookup_insert_eq. exact Hindex. }
    assert (Hend : end_chip bms (Game.player g1) index = Some last).
    { unfold end_chip in *. rewrite Hlanes1. simpl.
      fold player in Hlast. rewrite Hlane in Hlast. exact Hlast. }
    assert (Hjudge1 : judge bms index g = Some g1) by (subst g1; exact Hjudge).
    assert (Hpending1 : Player.judges (Game.player g1) !! index = Some 0).
    { subst g1. exact Hpending. }
    assert (Hscore1 : Game.score g1 = missed) by (subst g1; reflexivity).
    unfold update_lane. fold player. rewrite Hnote. simpl. rewrite Hreached.
    rewrite Hjudge1. simpl. rewrite Hend. simpl.
    destruct (F64.leb (F64.sub _ _) _).
    + unfold end_incr. rewrite Hlanes1. simpl. rewrite Hpending1. simpl.
      eexists. eexists. split; [reflexivity |]. split; [exact Hscore1 |].
      simpl. rewrite list_lookup_insert_eq; [reflexivity |].
      apply lookup_lt_is_Some. eauto.
    + simpl. rewrite Hpending1. simpl.
      eexists. eexists. split; [reflexivity |]. split; [exact Hscore1 |].
      exact Hlanes1.
Qed.

Lemma late_press_witness :
  exists g',
    judge six_bms 1 six_game_pressed = Some g' /\
    handler six_bms 122 six_game_late = Some g' /\
    Score.judges (Game.score g') = [2; 0; 0; 2] /\
    Score.totalJudges (Game.score g') = 4 /\
    Player.lanes (Game.player g') !! 1%nat = Some (Lane.mk 4 4).
Proof.
  destruct (late_press six_bms 1 six_game_pressed
              (Chip.mk (16 # 4) 0 1) (Lane.mk 3 4) 1
              ltac:(vm_compute; reflexivity) ltac:(vm_compute; reflexivity)
              ltac:(vm_compute; reflexivity) ltac:(vm_compute; reflexivity)
              ltac:(vm_compute; reflexivity) ltac:(vm_compute; split; discriminate)
              ltac:(vm_compute; split; discriminate))
    as (Hjudge & Hhandler & _).
  eexists. split; [exact Hjudge |].
  split.
  - rewrite <- Hjudge.
    apply (Hhandler six_game_late 122); try (vm_compute; reflexivity).
    + vm_compute. lia.
    + intros i Hi. assert (i = 0%nat) as -> by lia.
      exists 97. split; [reflexivity | discriminate].
  - vm_compute. repeat split; reflexivity.
Defined.

(** ** The forward scan of [calcChip] *)

Lemma scan_from_spec rest i beat j :
  scan_from rest i beat = Some j ->
  (i <= j)%nat /\
  (forall k a, (k < j - i)%nat -> rest !! k = Some a -> (Chip.beat a <= beat)%Q) /\
  (exists a, rest !! (j - i)%nat = Some a /\ (beat < Chip.beat a)%Q).
Proof.
  revert i. induction rest as [| ch rest IH]; simpl; intros i H; [discriminate |].
  destruct (Qleb (Chip.beat ch) beat) eqn:E.
  - apply IH in H. destruct H as (Hle & Hbefore & a & Ha & Hgt).
    split; [lia |]. split.
    + intros k a' Hk Ha'. destruct k as [| k]; simpl in Ha'.
      * injection Ha' as <-. Qbool. assumption.
      * apply (Hbefore k); [lia | assumption].
    + exists a. replace (j - i)%nat with (S (j - S i)) by lia. auto.
  - injection H as <-. split; [lia |]. split.
    + intros k a' Hk. lia.
    + exists ch. rewrite Nat.sub_diag. Qbool. auto.
Qed.

Lemma scan_spec chips i0 beat i :
  scan chips i0 beat = Some i ->
  (i0 <= i < length chips)%nat /\
  (forall k a, (i0 <= k < i)%nat -> chips !! k = Some a -> (Chip.beat a <= beat)%Q) /\
  (exists a, chips !! i = Some a /\ (beat < Chip.beat a)%Q).
Proof.
  unfold scan. intros H. apply scan_from_spec in H.
  destruct H as (Hle & Hbefore & a & Ha & Hgt).
  rewrite lookup_drop in Ha. replace (i0 + (i - i0))%nat with i in Ha by lia.
  split; [split; [assumption | eapply lookup_lt_Some; eassumption] |].
  split; [| eauto].
  intros k a' Hk Ha'. apply (Hbefore (k - i0)%nat); [lia |].
  rewrite lookup_drop. replace (i0 + (k - i0))%nat with k by lia. assumption.
Qed.

(** Where the scan stops is the place of the new chip: in an ascending
    vector whose chips before the start of the scan lie at or before
    [beat], all chips before the stop lie at or before [beat] and all
    chips from the stop on lie after it. *)
Lemma scan_position chips i0 beat i :
  ascending chips -> before_le chips i0 beat ->
  scan chips i0 beat = Some i ->
  before_le chips i beat /\ from_gt chips i beat.
Proof.
  intros Hasc Hprefix H. apply scan_spec in H.
  destruct H as ((Hle & Hlen) & Hscanned & a & Ha & Hgt). split.
  - intros k a' Hk Ha'. destruct (Nat.lt_ge_cases k i0) as [Hlt | Hge].
    + eapply Hprefix; eassumption.
    + apply (Hscanned k); [lia | assumption].
  - intros k a' Hk Ha'.
    eapply Qlt_le_trans; [exact Hgt |]. eapply Hasc; eassumption.
Qed.

Lemma lookup_insert_at i chip (chips : Chips) k :
  (i <= length chips)%nat ->
  insert_at i chip chips !! k =
  if (k <? i)%nat then chips !! k
  else if (k =? i)%nat then Some chip
  else chips !! (k - 1)%nat.
Proof.
  intros Hi. unfold insert_at.
  destruct (Nat.ltb_spec k i) as [Hlt | Hge].
  - rewrite lookup_app_l by (rewrite length_take; lia).
    apply lookup_take_lt. assumption.
  - rewrite lookup_app_r by (rewrite length_take; lia).
    rewrite length_take, Nat.min_l by lia.
    destruct (Nat.eqb_spec k i) as [-> | Hne].
    + rewrite Nat.sub_diag. reflexivity.
    + replace (k - i)%nat with (S (k - i - 1)) by lia. simpl.
      rewrite lookup_drop. f_equal. lia.
Qed.

Lemma insert_at_ascending i chip chips :
  (i <= length chips)%nat ->
  ascending chips ->
  before_le chips i (Chip.beat chip) ->
  from_gt chips i (Chip.beat chip) ->
  ascending (insert_at i chip chips).
Proof.
  intros Hi Hasc Hbefore Hafter a b x y Hab.
  rewrite !lookup_insert_at by assumption.
  destruct (Nat.ltb_spec a i) as [Ha | Ha];
    destruct (Nat.ltb_spec b i) as [Hb | Hb]; try lia.
  - intros Hx Hy. eapply Hasc; [| eassumption | eassumption]. lia.
  - intros Hx. destruct (Nat.eqb_spec b i) as [-> | Hne]; intros Hy.
    + injection Hy as <-. eapply Hbefore; eassumption.
    + eapply Qle_trans; [eapply Hbefore; eassumption |].
      apply Qlt_le_weak. apply (Hafter (b - 1)%nat); [lia | assumption].
  - destruct (Nat.eqb_spec a i) as [-> | Hna]; intros Hx.
    + injection Hx as <-.
      destruct (Nat.eqb_spec b i) as [-> | Hnb]; intros Hy.
      * injection Hy as <-. apply Qle_refl.
      * apply Qlt_le_weak. apply (Hafter (b - 1)%nat); [lia | assumption].
    + destruct (Nat.eqb_spec b i) as [-> | Hnb]; [lia |]. intros Hy.
      eapply Hasc; [| eassumption | eassumption]. lia.
Qed.

(** ** One token of [calcChip] *)

(** What a token can do to the vector: nothing, set the [beat2] of the
    chip before the place found, or insert a chip at the place found. *)
Lemma calcChip_token_inv bms measure notation channel length init_beat c
    i0 chips total i chips' total' :
  calcChip_token bms measure notation channel length init_beat c (i0, chips, total)
  = Some (i, chips', total') ->
  (token notation c = "00"%string /\ i = i0 /\ chips' = chips /\ total' = total) \/
  (token notation c <> "00"%string /\
   exists b,
     BMS.beats bms !! measure = Some b /\
     scan chips i0 (chip_beat init_beat c b length) = Some i /\
     ((chips' = chips /\ total' = total) \/
      (exists prev,
          i <> 0%nat /\ chips !! (i - 1)%nat = Some prev /\
          chips' = <[(i - 1)%nat := Chip.set_beat2 (chip_beat init_beat c b length) prev]> chips /\
          total' = total) \/
      (exists beat2 value,
          chips' = insert_at i (Chip.mk (chip_beat init_beat c b length) beat2 value) chips /\
          (total' = total \/ total' = Int.add total 1)))).
Proof.
  unfold calcChip_token. intros H.
  destruct (String.eqb_spec (token notation c) "00") as [E | E].
  { left. invert_some. auto. }
  right. split; [assumption |].
  apply bind_Some in H. destruct H as (b & Hb & H).
  apply bind_Some in H. destruct H as (i' & Hscan & H).
  exists b. split; [assumption |].
  assert (Hi : i' = i /\
    ((chips' = chips /\ total' = total) \/
     (exists prev,
         i' <> 0%nat /\ chips !! (i' - 1)%nat = Some prev /\
         chips' = <[(i' - 1)%nat := Chip.set_beat2 (chip_beat init_beat c b length) prev]> chips /\
         total' = total) \/
     (exists beat2 value,
         chips' = insert_at i' (Chip.mk (chip_beat init_beat c b length) beat2 value) chips /\
         (total' = total \/ total' = Int.add total 1)))).
  { invert_some; split; try reflexivity; eauto 8;
      try (right; left; eexists; split; [| eauto];
           match goal with
           | H : (_ && _) = true |- _ =>
               apply andb_true_iff in H; destruct H as [H _];
               apply negb_true_iff, Nat.eqb_neq in H; exact H
           | H : (_ =? _)%nat = false |- _ => apply Nat.eqb_neq in H; exact H
           end). }
  destruct Hi as [<- Hi]. split; assumption.
Qed.

Lemma set_beat2_ascending i beat2 prev chips :
  chips !! i = Some prev ->
  ascending chips -> ascending (<[i := Chip.set_beat2 beat2 prev]> chips).
Proof.
  intros Hprev Hasc a b x y Hab Hx Hy.
  assert (Hsame : forall k z, <[i := Chip.set_beat2 beat2 prev]> chips !! k = Some z ->
                    exists z', chips !! k = Some z' /\ Chip.beat z' = Chip.beat z).
  { intros k z Hz. destruct (decide (i = k)) as [<- | Hne].
    - rewrite list_lookup_insert_eq in Hz by (eapply lookup_lt_Some; eassumption).
      injection Hz as <-. eauto.
    - rewrite list_lookup_insert_ne in Hz by assumption. eauto. }
  destruct (Hsame _ _ Hx) as (x' & Hx' & <-).
  destruct (Hsame _ _ Hy) as (y' & Hy' & <-).
  eapply Hasc; eassumption.
Qed.

Lemma set_beat2_before_le i beat2 prev chips k beat :
  chips !! i = Some prev ->
  before_le chips k beat -> before_le (<[i := Chip.set_beat2 beat2 prev]> chips) k beat.
Proof.
  intros Hprev Hbefore j a Hj Ha.
  destruct (decide (i = j)) as [<- | Hne].
  - rewrite list_lookup_insert_eq in Ha by (eapply lookup_lt_Some; eassumption).
    injection Ha as <-. simpl. eapply (Hbefore i); eassumption.
  - rewrite list_lookup_insert_ne in Ha by assumption. eapply Hbefore; eassumption.
Qed.

Lemma chip_beat_mono init_beat c b length :
  (0 <= b)%Q -> (chip_beat init_beat c b length <= chip_beat init_beat (S c) b length)%Q.
Proof.
  intros Hb. unfold chip_beat, Qdiv.
  assert (Hr : (0 <= / inject_Z (Z.of_nat length))%Q).
  { apply Qinv_le_0_compat. change 0%Q with (inject_Z 0).
    rewrite <- Zle_Qle. lia. }
  set (r := (/ inject_Z (Z.of_nat length))%Q) in *.
  rewrite Nat2Z.inj_succ. unfold Z.succ. rewrite inject_Z_plus.
  assert (Hc : (0 <= inject_Z (Z.of_nat c))%Q).
  { change 0%Q with (inject_Z 0). rewrite <- Zle_Qle. lia. }
  change (inject_Z 1) with 1%Q.
  nra.
Qed.

(** The invariant of the loop of [calcChip] before the token [c]: the
    vector is ascending and the chips before [i] lie at or before the
    beat of the token. *)
Lemma calcChip_token_ascending bms measure notation channel length init_beat c
    b i0 chips total i chips' total' :
  BMS.beats bms !! measure = Some b -> (0 <= b)%Q ->
  ascending chips ->
  before_le chips i0 (chip_beat init_beat c b length) ->
  calcChip_token bms measure notation channel length init_beat c (i0, chips, total)
  = Some (i, chips', total') ->
  ascending chips' /\ before_le chips' i (chip_beat init_beat (S c) b length).
Proof.
  intros Hb Hpos Hasc Hbefore H.
  pose proof (chip_beat_mono init_beat c b length Hpos) as Hmono.
  assert (Hweaken : forall l k, before_le l k (chip_beat init_beat c b length) ->
                                before_le l k (chip_beat init_beat (S c) b length)).
  { intros l k Hl j a Hj Ha. eapply Qle_trans; [eapply Hl; eassumption | exact Hmono]. }
  apply calcChip_token_inv in H.
  destruct H as [(_ & -> & -> & _) | (_ & b' & Hb' & Hscan & Hcase)]; [auto |].
  assert (b' = b) as -> by congruence.
  destruct (scan_position _ _ _ _ Hasc Hbefore Hscan) as [Hle Hgt].
  pose proof (scan_spec _ _ _ _ Hscan) as ((_ & Hlen) & _).
  destruct Hcase as [(-> & _) | [(prev & Hi & Hprev & -> & _) | (beat2 & value & -> & _)]].
  - auto.
  - split; [apply set_beat2_ascending; assumption |].
    apply Hweaken. apply set_beat2_before_le; assumption.
  - split; [apply insert_at_ascending; simpl; [lia | assumption ..] |].
    apply Hweaken. intros k a Hk Ha.
    rewrite lookup_insert_at in Ha by lia.
    destruct (Nat.ltb_spec k i); [| lia]. eapply Hle; eassumption.
Qed.

Lemma calcChip_loop_ascending bms measure notation channel length init_beat b n :
  BMS.beats bms !! measure = Some b -> (0 <= b)%Q ->
  forall c i0 chips total i chips' total',
    ascending chips ->
    before_le chips i0 (chip_beat init_beat c b length) ->
    calcChip_loop bms measure notation channel length init_beat (seq c n)
                  (i0, chips, total) = Some (i, chips', total') ->
    ascending chips'.
Proof.
  intros Hb Hpos. induction n as [| n IH]; simpl; intros c i0 chips total i chips' total' Hasc Hbefore H.
  - invert_some. assumption.
  - apply bind_Some in H. destruct H as ([[i1 chips1] total1] & Hstep & H).
    destruct (calcChip_token_ascending _ _ _ _ _ _ _ _ _ _ _ _ _ _ Hb Hpos Hasc Hbefore Hstep)
      as [Hasc1 Hbefore1].
    eapply IH; eassumption.
Qed.

(** [calcChip] keeps a vector ascending, when the beat length of the
    measure is not negative (or the notation has no token at all). *)
Lemma calcChip_ascending chips measure notation bms channel chips' total' :
  (forall b, BMS.beats bms !! measure = Some b -> (0 <= b)%Q) ->
  ascending chips ->
  calcChip chips measure notation bms channel = Some (chips', total') ->
  ascending chips'.
Proof.
  intros Hpos Hasc H. unfold calcChip in H.
  apply bind_Some in H. destruct H as ([[i chips1] total1] & Hloop & H).
  injection H as <- <-.
  destruct (BMS.beats bms !! measure) as [b |] eqn:Hb.
  - eapply (calcChip_loop_ascending _ _ _ _ _ _ b); try eassumption; [auto |].
    intros k a Hk. lia.
  - (* no beat length: only "00" tokens can have been read *)
    clear Hpos. revert Hloop. generalize (0%nat) at 2.
    generalize (String.length notation / 2)%nat at 2.
    generalize 0%nat at 1.
    intros c n. revert c chips Hasc.
    induction n as [| n IH]; simpl; intros c chips Hasc i0 Hloop.
    + invert_some. assumption.
    + apply bind_Some in Hloop. destruct Hloop as ([[i1 chips2] total2] & Hstep & Hloop).
      apply calcChip_token_inv in Hstep.
      destruct Hstep as [(_ & -> & -> & ->) | (_ & b & Hb' & _)]; [| congruence].
      eapply IH; eassumption.
Qed.

(** ** The beats of the chips *)

(** A property of beats that holds for the chips of the vector and for
    the beat of the token holds for the chips after the token. *)
Lemma calcChip_token_beats (P : Q -> Prop) bms measure notation channel length
    init_beat c i0 chips total i chips' total' :
  Forall (fun chip => P (Chip.beat chip)) chips ->
  (forall b, BMS.beats bms !! measure = Some b ->
             token notation c <> "00"%string ->
             P (chip_beat init_beat c b length)) ->
  calcChip_token bms measure notation channel length init_beat c (i0, chips, total)
  = Some (i, chips', total') ->
  Forall (fun chip => P (Chip.beat chip)) chips'.
Proof.
  intros Hall Htoken H. apply calcChip_token_inv in H.
  destruct H as [(_ & _ & -> & _) | (Hne & b & Hb & _ & Hcase)]; [assumption |].
  destruct Hcase as [(-> & _) | [(prev & _ & Hprev & -> & _) | (beat2 & value & -> & _)]].
  - assumption.
  - apply Forall_insert; [assumption |]. simpl.
    rewrite Forall_lookup in Hall. apply (Hall _ _ Hprev).
  - unfold insert_at. apply Forall_app. split; [apply Forall_take; assumption |].
    constructor; [simpl; auto | apply Forall_drop; assumption].
Qed.

Lemma calcChip_loop_beats (P : Q -> Prop) bms measure notation channel length
    init_beat n :
  forall c i0 chips total i chips' total',
    Forall (fun chip => P (Chip.beat chip)) chips ->
    (forall c' b, (c <= c' < c + n)%nat ->
                  BMS.beats bms !! measure = Some b ->
                  token notation c' <> "00"%string ->
                  P (chip_beat init_beat c' b length)) ->
    calcChip_loop bms measure notation channel length init_beat (seq c n)
                  (i0, chips, total) = Some (i, chips', total') ->
    Forall (fun chip => P (Chip.beat chip)) chips'.
Proof.
  induction n as [| n IH]; simpl; intros c i0 chips total i chips' total' Hall Htoken H.
  - invert_some. assumption.
  - apply bind_Some in H. destruct H as ([[i1 chips1] total1] & Hstep & H).
    eapply IH; [| | exact H].
    + eapply calcChip_token_beats; [exact Hall | | exact Hstep].
      intros b Hb Hne. apply Htoken; [lia | assumption ..].
    + intros c' b Hc'. apply Htoken. lia.
Qed.

(** Every chip after [calcChip] stands where a chip stood before, or at
    the beat of a token of the notation. *)
Lemma calcChip_beats (P : Q -> Prop) chips measure notation bms channel chips' total' :
  Forall (fun chip => P (Chip.beat chip)) chips ->
  (forall beat, token_beat (BMS.beats bms) measure notation beat -> P beat) ->
  calcChip chips measure notation bms channel = Some (chips', total') ->
  Forall (fun chip => P (Chip.beat chip)) chips'.
Proof.
  intros Hall Htoken H. unfold calcChip in H.
  apply bind_Some in H. destruct H as ([[i chips1] total1] & Hloop & H).
  injection H as <- <-.
  eapply calcChip_loop_beats; [exact Hall | | exact Hloop].
  intros c b Hc Hb Hne. apply Htoken. exists c, b. auto with lia.
Qed.

Lemma accumulate_nonneg beats measure : beats_ok beats -> (0 <= accumulate beats measure)%Q.
Proof.
  intros Hok. unfold accumulate.
  assert (Hall : Forall (fun b => (0 <= b)%Q) (take measure beats)).
  { apply Forall_lookup. intros k b Hk. apply lookup_take_Some in Hk.
    destruct Hk as [Hk _]. eapply Hok; eassumption. }
  assert (Hgen : forall l acc, Forall (fun b => (0 <= b)%Q) l -> (0 <= acc)%Q ->
                               (0 <= fold_left Qplus l acc)%Q).
  { induction l as [| b l IH]; simpl; intros acc Hl Hacc; [assumption |].
    inversion Hl; subst. apply IH; [assumption |]. lra. }
  apply Hgen; [assumption | lra].
Qed.

Lemma chip_beat_nonneg init_beat c b length :
  (0 <= init_beat)%Q -> (0 <= b)%Q -> (0 <= chip_beat init_beat c b length)%Q.
Proof.
  intros Hi Hb. unfold chip_beat, Qdiv.
  assert (Hr : (0 <= / inject_Z (Z.of_nat length))%Q).
  { apply Qinv_le_0_compat. change 0%Q with (inject_Z 0).
    rewrite <- Zle_Qle. lia. }
  assert (Hc : (0 <= inject_Z (Z.of_nat c))%Q).
  { change 0%Q with (inject_Z 0). rewrite <- Zle_Qle. lia. }
  set (r := (/ inject_Z (Z.of_nat length))%Q) in *.
  assert (Hprod : (0 <= inject_Z (Z.of_nat c) * b * r)%Q)
    by (repeat apply Qmult_le_0_compat; assumption).
  lra.
Qed.

Lemma beat_origin_nonneg lines beats beat :
  beats_ok beats -> beat_origin lines beats beat -> (0 <= beat)%Q.
Proof.
  intros Hok [-> | [[-> _] | (m & ch & notation & _ & c & b & _ & _ & Hb & ->)]].
  - unfold INT_MAX, Int.max. change 0%Q with (inject_Z 0). rewrite <- Zle_Qle. lia.
  - apply Qle_refl.
  - apply chip_beat_nonneg; [apply accumulate_nonneg; assumption |].
    eapply Hok; eassumption.
Qed.

Lemma beat_origin_more lines line beats beat :
  beat_origin lines beats beat -> beat_origin (lines ++ [line]) beats beat.
Proof.
  intros [H | [[H (arg & x & Hin)] | (m & ch & notation & Hin & H)]].
  - left. assumption.
  - right. left. split; [assumption |]. exists arg, x. apply elem_of_app. auto.
  - right. right. exists m, ch, notation. split; [apply elem_of_app; auto | assumption].
Qed.

(** ** The chart while it is parsed *)

Lemma chips_ok_more lines line beats chips :
  chips_ok lines beats chips -> chips_ok (lines ++ [line]) beats chips.
Proof.
  intros [Hasc Hall]. split; [assumption |].
  eapply Forall_impl; [exact Hall |]. intros chip. apply beat_origin_more.
Qed.

Lemma chart_ok_more lines line beats bms :
  chart_ok lines beats bms -> chart_ok (lines ++ [line]) beats bms.
Proof.
  intros (Hb & Hbgms & Hbpms & Hlanes).
  split; [assumption |].
  split; [apply chips_ok_more; assumption |].
  split; [apply chips_ok_more; assumption |].
  eapply Forall_impl; [exact Hlanes |]. intros chips. apply chips_ok_more.
Qed.

Lemma calcChip_ok lines beats chips measure notation bms channel chips' total' :
  BMS.beats bms = beats -> beats_ok beats ->
  chips_ok lines beats chips ->
  calcChip chips measure notation bms channel = Some (chips', total') ->
  chips_ok (lines ++ [Channel measure channel notation]) beats chips'.
Proof.
  intros Hb Hok [Hasc Hall] H. split.
  - eapply calcChip_ascending; [| exact Hasc | exact H].
    intros b Hlookup. rewrite Hb in Hlookup. eapply Hok; eassumption.
  - eapply calcChip_beats; [| | exact H].
    + eapply Forall_impl; [exact Hall |]. intros chip. apply beat_origin_more.
    + intros beat Htoken. right. right. exists measure, channel, notation.
      split; [apply elem_of_app; right; left |]. rewrite <- Hb. assumption.
Qed.

Lemma ascending_cons chip chips :
  ascending chips ->
  Forall (fun chip' => (Chip.beat chip <= Chip.beat chip')%Q) chips ->
  ascending (chip :: chips).
Proof.
  intros Hasc Hall i j a b Hij Ha Hb.
  destruct i as [| i]; destruct j as [| j]; simpl in *; try lia.
  - injection Ha as <-. injection Hb as <-. apply Qle_refl.
  - injection Ha as <-. rewrite Forall_lookup in Hall. eapply Hall; eassumption.
  - eapply Hasc; [| eassumption | eassumption]. lia.
Qed.

Lemma calcChip_lane_ok lines beats bms c measure notation channel bms' :
  beats_ok beats -> chart_ok lines beats bms ->
  calcChip_lane bms c measure notation channel = Some bms' ->
  chart_ok (lines ++ [Channel measure channel notation]) beats bms'.
Proof.
  intros Hok Hchart H. unfold calcChip_lane in H.
  apply bind_Some in H. destruct H as (chips & Hchips & H).
  apply bind_Some in H. destruct H as ([chips' total'] & Hcalc & H).
  injection H as <-.
  pose proof (chart_ok_more _ (Channel measure channel notation) _ _ Hchart)
    as (Hb & Hbgms & Hbpms & Hlanes).
  destruct Hchart as (Hb0 & _ & _ & Hlanes0).
  split; [assumption |]. split; [assumption |]. split; [assumption |].
  simpl. apply Forall_insert; [assumption |].
  eapply calcChip_ok; [exact Hb0 | exact Hok | | exact Hcalc].
  rewrite Forall_lookup in Hlanes0. eapply Hlanes0; eassumption.
Qed.

Lemma parseBMSChannel_ok lines beats bms line bms' :
  beats_ok beats -> chart_ok lines beats bms ->
  parseBMSChannel bms line = Some bms' ->
  chart_ok (lines ++ [line]) beats bms'.
Proof.
  intros Hok Hchart H. unfold parseBMSChannel in H.
  destruct line as [| | measure channel notation |];
    try (injection H as <-; apply chart_ok_more; assumption).
  pose proof (chart_ok_more _ (Channel measure channel notation) _ _ Hchart)
    as (Hb & Hbgms & Hbpms & Hlanes).
  destruct (channel =? 1).
  { apply bind_Some in H. destruct H as ([chips' total'] & Hcalc & H).
    injection H as <-. destruct Hchart as (Hb0 & Hbgms0 & _).
    split; [assumption |]. split; [| split; assumption].
    simpl. eapply calcChip_ok; eassumption. }
  destruct ((channel =? 3) || (8 <=? channel) && (channel <=? 9)).
  { apply bind_Some in H. destruct H as ([chips' total'] & Hcalc & H).
    injection H as <-. destruct Hchart as (Hb0 & _ & Hbpms0 & _).
    split; [assumption |]. split; [assumption |]. split; [| assumption].
    simpl. eapply calcChip_ok; eassumption. }
  destruct (is_note_channel channel); [eapply calcChip_lane_ok; eassumption |].
  destruct (is_long_channel channel); [eapply calcChip_lane_ok; eassumption |].
  injection H as <-. apply chart_ok_more. assumption.
Qed.

Lemma parseBMSTable_ok lines line beats bms name num bms' :
  chart_ok lines beats bms ->
  parseBMSTable bms name num = Some bms' ->
  chart_ok (lines ++ [line]) beats bms'.
Proof.
  intros Hchart H. apply (chart_ok_more _ line) in Hchart.
  unfold parseBMSTable in H. invert_some; exact Hchart.
Qed.

Lemma parseBMSCommand_ok lines beats bms line bms' :
  beats_ok beats -> chart_ok lines beats bms ->
  parseBMSCommand bms line = Some bms' ->
  chart_ok (lines ++ [line]) beats bms'.
Proof.
  intros Hok Hchart H. unfold parseBMSCommand in H.
  destruct line as [m num | name arg num | m channel notation |];
    try (eapply parseBMSChannel_ok; eassumption).
  destruct (String.eqb name "TITLE");
    [injection H as <-; apply chart_ok_more; exact Hchart |].
  destruct (String.eqb name "ARTIST");
    [injection H as <-; apply chart_ok_more; exact Hchart |].
  destruct (String.eqb name "GENRE");
    [injection H as <-; apply chart_ok_more; exact Hchart |].
  destruct (String.eqb name "PLAYLEVEL");
    [injection H as <-; apply chart_ok_more; exact Hchart |].
  destruct (String.eqb name "LNOBJ");
    [injection H as <-; apply chart_ok_more; exact Hchart |].
  destruct (String.eqb_spec name "BPM") as [-> | _];
    [| eapply parseBMSTable_ok; eassumption].
  apply bind_Some in H. destruct H as (x & -> & H). injection H as <-.
  pose proof (chart_ok_more _ (Command "BPM" arg (Some x)) _ _ Hchart)
    as (Hb & Hbgms & [Hasc Hall] & Hlanes).
  split; [assumption |]. split; [assumption |]. split; [| assumption].
  simpl. split.
  - apply ascending_cons; [assumption |]. simpl.
    eapply Forall_impl; [exact Hall |]. intros chip. simpl.
    apply beat_origin_nonneg. assumption.
  - constructor; [| assumption]. simpl. right. left. split; [reflexivity |].
    exists arg, x. apply elem_of_app. right. left.
Qed.

Lemma each_line_ok beats lines :
  beats_ok beats ->
  forall read bms bms',
    chart_ok read beats bms ->
    each_line parseBMSCommand lines bms = Some bms' ->
    chart_ok (read ++ lines) beats bms'.
Proof.
  intros Hok. induction lines as [| line lines IH]; simpl; intros read bms bms' Hchart H.
  - injection H as <-. rewrite app_nil_r. assumption.
  - apply bind_Some in H. destruct H as (bms1 & Hline & H).
    replace (read ++ line :: lines) with ((read ++ [line]) ++ lines)
      by (rewrite <- app_assoc; reflexivity).
    eapply IH; [| exact H]. eapply parseBMSCommand_ok; eassumption.
Qed.

(** ** Signs of floats *)

Lemma binary_round_aux_sign prec emax s m e l :
  match binary_round_aux prec emax s m e l with
  | S754_zero s' | S754_infinity s' | S754_finite s' _ _ => s' = s
  | S754_nan => True
  end.
Proof.
  unfold binary_round_aux.
  destruct (shr_fexp prec emax m e l) as [mrs e1].
  destruct (shr_fexp prec emax _ e1 loc_Exact) as [mrs' e2].
  destruct (shr_m mrs'); [reflexivity | | exact I].
  destruct (Z.leb e2 (Z.sub emax prec)); reflexivity.
Qed.

Lemma binary_round_aux_plus prec emax m e l :
  sign_plus (binary_round_aux prec emax false m e l).
Proof.
  pose proof (binary_round_aux_sign prec emax false m e l) as H.
  destruct (binary_round_aux prec emax false m e l); simpl; auto.
Qed.

Lemma of_Q_plus prec emax q : (0 <= q)%Q -> sign_plus (IEEE.of_Q prec emax q).
Proof.
  intros Hq. unfold IEEE.of_Q. destruct q as [n d]. simpl.
  destruct n as [| n | n]; [exact I | |].
  - unfold SFdiv.
    destruct (SFdiv_core_binary prec emax (Zpos n) 0 (Zpos d) 0) as [[mz ez] lz].
    apply binary_round_aux_plus.
  - exfalso. unfold Qle in Hq. simpl in Hq. lia.
Qed.

Lemma of_Z_plus prec emax z : 0 <= z -> sign_plus (binary_normalize prec emax z 0 false).
Proof.
  intros Hz. destruct z as [| p | p]; [exact I | | lia].
  unfold binary_normalize, binary_round.
  destruct (shl_align p 0 _) as [mz ez]. apply binary_round_aux_plus.
Qed.

Lemma SFmul_plus prec emax x y :
  sign_plus x -> sign_plus y -> sign_plus (SFmul prec emax x y).
Proof.
  destruct x as [sx | sx | | sx mx ex], y as [sy | sy | | sy my ey]; simpl;
    intros Hx Hy; subst; try exact I; try reflexivity.
  apply binary_round_aux_plus.
Qed.

Lemma SFdiv_plus prec emax x my ey :
  sign_plus x -> sign_plus (SFdiv prec emax x (S754_finite false my ey)).
Proof.
  destruct x as [sx | sx | | sx mx ex]; simpl; intros Hx; subst;
    try exact I; try reflexivity.
  destruct (SFdiv_core_binary prec emax (Zpos mx) ex (Zpos my) ey) as [[mz ez] lz].
  apply binary_round_aux_plus.
Qed.

Lemma to_Q_plus x q : sign_plus x -> IEEE.to_Q x = Some q -> (0 <= q)%Q.
Proof.
  destruct x as [s | s | | s m e]; simpl; intros Hx H; try discriminate.
  - injection H as <-. apply Qle_refl.
  - subst s. injection H as <-. rewrite Qred_correct.
    destruct e as [| p | p]; unfold Qle; simpl; lia.
Qed.

Lemma measure_length_nonneg x len :
  (0 <= x)%Q -> measure_length x = Some len -> (0 <= len)%Q.
Proof.
  intros Hx H. unfold measure_length in H. eapply to_Q_plus; [| exact H].
  apply SFmul_plus; [apply of_Q_plus; assumption | apply of_Z_plus; lia].
Qed.

Lemma stop_length_nonneg x v :
  (0 <= x)%Q -> stop_length x = Some v -> (0 <= v)%Q.
Proof.
  intros Hx H. unfold stop_length in H. eapply to_Q_plus; [| exact H].
  unfold F32.div.
  change (F32.of_Z 48) with (S754_finite false 12582912 (-18)).
  apply SFdiv_plus. apply of_Q_plus. assumption.
Qed.

(** ** The first pass *)

Lemma parseBMSMeasure_inv bms line bms' :
  parseBMSMeasure bms line = Some bms' ->
  BMS.bgms bms' = BMS.bgms bms /\ BMS.bpms bms' = BMS.bpms bms /\
  BMS.lanes bms' = BMS.lanes bms /\
  length (BMS.beats bms') = length (BMS.beats bms) /\
  forall m b, BMS.beats bms !! m = Some b ->
              BMS.beats bms' !! m = Some (directive m b line).
Proof.
  unfold parseBMSMeasure. intros H.
  destruct line as [m' [x |] | | |]; simpl in H; try discriminate;
    try (injection H as <-; repeat split; auto).
  apply bind_Some in H. destruct H as (len & Hlen & H).
  apply bind_Some in H. destruct H as (b' & Hb' & H). injection H as <-. simpl.
  rewrite Hlen. simpl.
  repeat split; try reflexivity; [apply length_insert |].
  intros m b Hb. destruct (Nat.eqb_spec m' m) as [-> | Hne].
  - apply list_lookup_insert_eq. eapply lookup_lt_Some; eassumption.
  - rewrite list_lookup_insert_ne by assumption. assumption.
Qed.

Lemma first_pass_inv lines :
  forall bms bms',
    each_line parseBMSMeasure lines bms = Some bms' ->
    BMS.bgms bms' = BMS.bgms bms /\ BMS.bpms bms' = BMS.bpms bms /\
    BMS.lanes bms' = BMS.lanes bms /\
    length (BMS.beats bms') = length (BMS.beats bms) /\
    forall m b, BMS.beats bms !! m = Some b ->
                BMS.beats bms' !! m = Some (fold_left (directive m) lines b).
Proof.
  induction lines as [| line lines IH]; simpl; intros bms bms' H.
  - injection H as <-. auto.
  - apply bind_Some in H. destruct H as (bms1 & Hline & H).
    apply parseBMSMeasure_inv in Hline. apply IH in H.
    destruct Hline as (E1 & E2 & E3 & E4 & Hbeats1).
    destruct H as (F1 & F2 & F3 & F4 & Hbeats).
    repeat split; try congruence.
    intros m b Hb. apply Hbeats, Hbeats1, Hb.
Qed.

Lemma directive_nonneg m lines :
  lines_ok lines ->
  forall b, (0 <= b)%Q -> (0 <= fold_left (directive m) lines b)%Q.
Proof.
  unfold lines_ok. induction lines as [| line lines IH]; simpl; intros Hok b Hb.
  - assumption.
  - apply andb_true_iff in Hok. destruct Hok as [Hline Hok].
    apply IH; [assumption |].
    destruct line as [m' [x |] | | |]; simpl in *; try assumption.
    destruct (m' =? m)%nat; [| assumption]. Qbool.
    destruct (measure_length x) as [len |] eqn:Hlen; simpl; [| assumption].
    exact (measure_length_nonneg x len Hline Hlen).
Qed.

Lemma lookup_fill (beats : list Q) m b :
  map (fun _ => 4%Q) beats !! m = Some b <-> (m < length beats)%nat /\ b = 4%Q.
Proof.
  revert m. induction beats as [| x beats IH]; intros m; simpl.
  - split; [discriminate | lia].
  - destruct m as [| m]; simpl.
    + split; [intros [= <-]; split; [lia | reflexivity] | intros [_ ->]; reflexivity].
    + rewrite IH. split; intros [? ?]; split; auto with lia.
Qed.

Lemma init_beats m b :
  BMS.beats (parseBMS_init BMS.zero) !! m = Some b <-> (m < 1000)%nat /\ b = 4%Q.
Proof.
  change (BMS.beats (parseBMS_init BMS.zero))
    with (map (fun _ => 4%Q) (replicate 1000 0%Q)).
  rewrite lookup_fill, length_replicate. reflexivity.
Qed.

(** After the first pass the beat length of every measure is the one
    the directives give, and none is negative. *)
Lemma first_pass_beats lines bms1 :
  each_line parseBMSMeasure lines (parseBMS_init BMS.zero) = Some bms1 ->
  (forall m, (m < 1000)%nat -> BMS.beats bms1 !! m = Some (beat_length lines m)) /\
  (lines_ok lines -> beats_ok (BMS.beats bms1)) /\
  chart_ok [] (BMS.beats bms1) bms1.
Proof.
  intros H. apply first_pass_inv in H.
  destruct H as (Hbgms & Hbpms & Hlanes & Hlen & Hbeats).
  split; [| split].
  - intros m Hm. apply Hbeats. apply init_beats. auto.
  - intros Hok m b Hb.
    assert (Hm : (m < 1000)%nat).
    { apply lookup_lt_Some in Hb. rewrite Hlen in Hb.
      change (BMS.beats (parseBMS_init BMS.zero))
        with (map (fun _ => 4%Q) (replicate 1000 0%Q)) in Hb.
      rewrite length_map, length_replicate in Hb. exact Hb. }
    rewrite (Hbeats m 4%Q) in Hb by (apply init_beats; auto).
    injection Hb as <-. apply directive_nonneg; [assumption | lra].
  - assert (Hsentinel : chips_ok [] (BMS.beats bms1) [sentinel]).
    { split.
      - intros i j a b _ Ha Hb.
        destruct i; [| discriminate]. destruct j; [| discriminate].
        injection Ha as <-. injection Hb as <-. apply Qle_refl.
      - repeat constructor. }
    split; [reflexivity |]. rewrite Hbgms, Hbpms, Hlanes. simpl.
    repeat split; try apply Hsentinel. repeat constructor; apply Hsentinel.
Qed.

(** ** Beat lengths that are not finite *)

(** C9 (counterexample).  The directive [#00002:] followed by 1 and 38
    zeros has its number read as the [float] nearest to 1e38; four
    times it is beyond the [float]s, and the beat length of measure 0
    is +infinity.  The token at index 0 of [#00011:01] then has the
    beat [0 + 0 * inf / 1], a NaN; the scan stops at once, since
    [INT_MAX <= NaN] does not hold, and the chip is inserted in front
    of the sentinel.  A NaN is [<=] nothing: the lane is not
    non-decreasing in beat.  The reader on exact lengths has no result
    on this chart. *)
Lemma nan_beat_not_ascending :
  let lane := [Raw.mk S754_nan F64.zero (F64.of_Z 1); Raw.sentinel] in
  F32.mul (F32.of_Q huge) (F32.of_Z 4) = S754_infinity false /\
  Raw.parseBMSMeasure (replicate 1000 (F64.of_Z 4)) (Measure 0 (Some huge))
    = Some (Raw.beats huge_tables) /\
  Raw.beats huge_tables !! 0%nat = Some (S754_infinity false) /\
  Raw.chip_beat (Raw.accumulate (Raw.beats huge_tables) 0) 0 (S754_infinity false) 1
    = S754_nan /\
  Raw.calcChip [Raw.sentinel] 0 "01" huge_tables 11 0 = Some (lane, 1) /\
  F64.leb S754_nan (Raw.beat Raw.sentinel) = false /\
  ~ Raw.ascending lane /\
  parseBMS huge_chart BMS.zero = None.
Proof.
  split; [vm_compute; reflexivity |].
  split; [vm_compute; reflexivity |].
  split; [vm_compute; reflexivity |].
  split; [vm_compute; reflexivity |].
  split; [vm_compute; reflexivity |].
  split; [vm_compute; reflexivity |].
  split; [| vm_compute; reflexivity].
  intros Hasc.
  specialize (Hasc 0%nat 1%nat _ _ ltac:(lia) eq_refl eq_refl).
  vm_compute in Hasc. discriminate Hasc.
Qed.

(** C9 (amended).  For a chart whose beat lengths are all finite (the
    first pass has a result) and whose directives carry numbers that
    are not negative, whatever lines the second pass has read, the
    background cues, the tempo chips and every lane are ascending in
    beat (ties allowed); every token keeps its vector ascending, a
    closing token included, with the chips before the index reached at
    or before the beat of the next token; and the place where the scan
    stops, started from the index reached by the token before, has
    every earlier chip at or before the new beat and every later chip
    after it, so that a chip inserted there leaves the vector
    ascending. *)
Theorem chips_ascending lines read bms1 bms2 :
  lines_ok lines ->
  each_line parseBMSMeasure lines (parseBMS_init BMS.zero) = Some bms1 ->
  each_line parseBMSCommand read bms1 = Some bms2 ->
  (ascending (BMS.bgms bms2) /\
   ascending (BMS.bpms bms2) /\
   forall k chips, BMS.lanes bms2 !! k = Some chips -> ascending chips) /\
  (forall chips measure notation channel length init_beat c b i0 total i chips' total',
      BMS.beats bms2 !! measure = Some b ->
      ascending chips ->
      before_le chips i0 (chip_beat init_beat c b length) ->
      calcChip_token bms2 measure notation channel length init_beat c (i0, chips, total)
      = Some (i, chips', total') ->
      ascending chips' /\ before_le chips' i (chip_beat init_beat (S c) b length)) /\
  (forall chips i0 beat i,
      ascending chips -> before_le chips i0 beat ->
      scan chips i0 beat = Some i ->
      (i0 <= i)%nat /\ before_le chips i beat /\ from_gt chips i beat /\
      forall chip, Chip.beat chip = beat -> ascending (insert_at i chip chips)).
Proof.
  intros Hlines Hfirst Hsecond.
  destruct (first_pass_beats _ _ Hfirst) as (_ & Hok & Hchart).
  specialize (Hok Hlines).
  pose proof (each_line_ok _ _ Hok _ _ _ Hchart Hsecond)
    as (Hbeats & [Hbgms _] & [Hbpms _] & Hlanes).
  split; [| split].
  - split; [assumption |]. split; [assumption |].
    intros k chips Hk. rewrite Forall_lookup in Hlanes. apply (Hlanes _ _ Hk).
  - intros chips measure notation channel length init_beat c b i0 total i chips' total'
           Hb Hasc Hbefore Hstep.
    eapply calcChip_token_ascending; try eassumption.
    rewrite Hbeats in Hb. eapply Hok; eassumption.
  - intros chips i0 beat i Hasc Hbefore Hscan.
    destruct (scan_position _ _ _ _ Hasc Hbefore Hscan) as [Hle Hgt].
    pose proof (scan_spec _ _ _ _ Hscan) as ((Hi0 & Hlen) & _).
    split; [assumption |]. split; [assumption |]. split; [assumption |].
    intros chip <-. apply insert_at_ascending; [lia | assumption ..].
Qed.

Lemma chips_ascending_witness :
  exists bms1 bms2,
    each_line parseBMSMeasure demo_chart (parseBMS_init BMS.zero) = Some bms1 /\
    each_line parseBMSCommand demo_chart bms1 = Some bms2 /\
    map (length (A := Chip.t)) (BMS.lanes bms2) = [1; 3; 3; 1; 1; 1; 1; 1]%nat /\
    ascending (BMS.bgms bms2) /\
    ascending (BMS.bpms bms2) /\
    forall k chips, BMS.lanes bms2 !! k = Some chips -> ascending chips.
Proof.
  eexists _, _.
  split; [vm_compute; reflexivity |].
  split; [vm_compute; reflexivity |].
  split; [vm_compute; reflexivity |].
  refine (proj1 (chips_ascending demo_chart demo_chart _ _ _ _ _)).
  - reflexivity.
  - vm_compute. reflexivity.
  - vm_compute. reflexivity.
Defined.

(** ** The long-note marker on a note channel *)

(** C4 (counterexample).  With [#LNOBJ ZZ], a lane whose only token is
    [ZZ] gets a new chip of value 1295 and [totalNotes] becomes 1: the
    marker with nothing to close is not ignored.  And in [01ZZZZ00] the
    second marker finds the note already closed at beat 1; no chip is
    inserted, the counter stays at 1 and the end of the note is moved to
    beat 2. *)
Lemma marker_not_ignored :
  (exists bms,
      parseBMS marker_chart BMS.zero = Some bms /\
      BMS.totalNotes bms = 1 /\
      BMS.lanes bms !! 1%nat = Some [Chip.mk (0 # 1) 0 1295; sentinel]) /\
  (exists bms note,
      parseBMS marker_twice_chart BMS.zero = Some bms /\
      BMS.totalNotes bms = 1 /\
      BMS.lanes bms !! 1%nat = Some [note; sentinel] /\
      (Chip.beat2 note == 2)%Q).
Proof.
  split.
  - eexists. split; [vm_compute; reflexivity |]. split; reflexivity.
  - eexists _, _. split; [vm_compute; reflexivity |].
    split; [reflexivity |]. split; [reflexivity |]. vm_compute. reflexivity.
Qed.

Lemma note_channel_not_special channel :
  is_note_channel channel = true ->
  (channel =? 1) = false /\ (channel =? 3) = false /\
  (channel =? 8) = false /\ (channel =? 9) = false.
Proof.
  unfold is_note_channel. intros H.
  apply orb_true_iff in H.
  destruct H as [H | H]; apply andb_true_iff in H; destruct H as [H1 H2];
    apply Z.leb_le in H1, H2; repeat split; apply Z.eqb_neq; lia.
Qed.

(** C4 (amended).  A token other than "00" on a note channel (11-16,
    18-19), [i] being the index where the scan stops: if [i] is not 0
    and the token is the marker of the chart, the chip at [i - 1] gets
    the beat of the token as its [beat2], whatever its [beat2] was, no
    chip is inserted and the counter is unchanged; otherwise (the marker
    with [i = 0] included) a chip with [beat2 = 0] and the value of the
    token is inserted at [i] and the counter is incremented, and the
    token that [stoi] rejects has no result. *)
Theorem note_token bms measure notation channel length init_beat c i0 chips total b i :
  let str := token notation c in
  let beat := chip_beat init_beat c b length in
  let result :=
    calcChip_token bms measure notation channel length init_beat c (i0, chips, total) in
  is_note_channel channel = true ->
  str <> "00"%string ->
  BMS.beats bms !! measure = Some b ->
  scan chips i0 beat = Some i ->
  (i <> 0%nat -> str = BMS.lnobj bms ->
   exists prev,
     chips !! (i - 1)%nat = Some prev /\
     result = Some (i, <[(i - 1)%nat := Chip.set_beat2 beat prev]> chips, total)) /\
  (i = 0%nat \/ str <> BMS.lnobj bms ->
   forall v, stoi str 36 = Some v ->
     result = Some (i, insert_at i (Chip.mk beat 0 (inject_Z v)) chips, Int.add total 1)) /\
  (i = 0%nat \/ str <> BMS.lnobj bms ->
   stoi str 36 = None -> result = None).
Proof.
  intros str beat result Hchannel Hstr Hb Hscan.
  destruct (note_channel_not_special _ Hchannel) as (H1 & H3 & H8 & H9).
  assert (Hresult : result =
    if negb (i =? 0)%nat && String.eqb str (BMS.lnobj bms) then
      prev ← chips !! (i - 1)%nat;
      Some (i, <[(i - 1)%nat := Chip.set_beat2 beat prev]> chips, total)
    else
      v ← stoi str 36;
      Some (i, insert_at i (Chip.mk beat 0 (inject_Z v)) chips, Int.add total 1)).
  { subst result. unfold calcChip_token. fold str.
    destruct (String.eqb_spec str "00") as [E | _]; [contradiction |].
    rewrite Hb. simpl. fold beat. rewrite Hscan. simpl.
    rewrite H1, H3, H8, H9, Hchannel. reflexivity. }
  rewrite Hresult. clear Hresult.
  pose proof (scan_spec _ _ _ _ Hscan) as ((_ & Hlen) & _).
  split; [| split].
  - intros Hi Hmarker.
    destruct (lookup_lt_is_Some_2 chips (i - 1)%nat ltac:(lia)) as [prev Hprev].
    exists prev. split; [assumption |].
    apply Nat.eqb_neq in Hi. rewrite Hi.
    apply String.eqb_eq in Hmarker. rewrite Hmarker. simpl.
    rewrite Hprev. reflexivity.
  - intros Hcase v Hv.
    assert (Hcond : negb (i =? 0)%nat && String.eqb str (BMS.lnobj bms) = false).
    { destruct Hcase as [-> | Hne]; [reflexivity |].
      apply String.eqb_neq in Hne. rewrite Hne. apply andb_false_r. }
    rewrite Hcond, Hv. reflexivity.
  - intros Hcase Hv.
    assert (Hcond : negb (i =? 0)%nat && String.eqb str (BMS.lnobj bms) = false).
    { destruct Hcase as [-> | Hne]; [reflexivity |].
      apply String.eqb_neq in Hne. rewrite Hne. apply andb_false_r. }
    rewrite Hcond, Hv. reflexivity.
Qed.

Lemma note_token_witness :
  let bms := BMS.set_lnobj "ZZ" (parseBMS_init BMS.zero) in
  calcChip_token bms 0 "01ZZ" 11 2 0 1 (0%nat, [Chip.mk 0 0 1; sentinel], 1)
  = Some (1%nat,
          [Chip.mk 0 (chip_beat 0 1 4 2) 1; sentinel], 1) /\
  calcChip_token bms 0 "ZZ01" 11 2 0 0 (0%nat, [sentinel], 0)
  = Some (0%nat, [Chip.mk (chip_beat 0 0 4 2) 0 1295; sentinel], 1).
Proof.
  intros bms. split.
  - destruct (proj1 (note_token bms 0 "01ZZ" 11 2 0 1 0 [Chip.mk 0 0 1; sentinel] 1 4 1
                       ltac:(reflexivity) ltac:(discriminate)
                       ltac:(vm_compute; reflexivity) ltac:(vm_compute; reflexivity))
                    ltac:(discriminate) ltac:(reflexivity))
      as (prev & Hprev & Hresult).
    injection Hprev as <-. exact Hresult.
  - exact (proj1 (proj2 (note_token bms 0 "ZZ01" 11 2 0 0 0 [sentinel] 0 4 0
                   ltac:(reflexivity) ltac:(discriminate)
                   ltac:(vm_compute; reflexivity) ltac:(vm_compute; reflexivity)))
                 (or_introl eq_refl) 1295 ltac:(reflexivity)).
Defined.

(** ** The two passes *)

Lemma parseBMS_inv lines bms :
  parseBMS lines BMS.zero = Some bms ->
  exists bms1 bms2 segments,
    each_line parseBMSMeasure lines (parseBMS_init BMS.zero) = Some bms1 /\
    each_line parseBMSCommand lines bms1 = Some bms2 /\
    calcSegment (BMS.bpms bms2) (BMS.segments bms2) = Some segments /\
    bms = BMS.set_segments segments bms2.
Proof.
  unfold parseBMS. intros H.
  apply bind_Some in H. destruct H as (bms1 & H1 & H).
  apply bind_Some in H. destruct H as (bms2 & H2 & H).
  apply bind_Some in H. destruct H as (segments & H3 & H).
  injection H as <-. eauto 8.
Qed.








(** ** The timeline *)

Lemma calcSegment_loop_app st before after :
  calcSegment_loop st (before ++ after)
  = calcSegment_loop st before
    ++ calcSegment_loop (calcSegment_state st before) after.
Proof.
  revert st. induction before as [| bpm before IH]; intros st; [reflexivity |].
  simpl. unfold calcSegment_state. simpl.
  destruct (calcSegment_chip st bpm) as [st' pushed] eqn:E. simpl.
  rewrite IH, <- app_assoc. reflexivity.
Qed.

(** What a pause pushes: a segment of velocity 0 at its time and beat,
    and a segment with the velocity of the running tempo at the same
    beat, later by [beat2 * 60 / bpm]. *)
Lemma calcSegment_chip_pause time beat bpm pause :
  (Chip.value pause <= 0)%Q -> (0 < Chip.beat2 pause)%Q ->
  let start := (time + (Chip.beat pause - beat) * 60 / bpm)%Q in
  let resume := (start + Chip.beat2 pause * 60 / bpm)%Q in
  calcSegment_chip (time, beat, bpm) pause
  = ((resume, Chip.beat pause, bpm),
     [Segment.mk start (Chip.beat pause) 0 bpm;
      Segment.mk resume (Chip.beat pause) (bpm / 60) bpm]).
Proof.
  intros Hvalue Hbeat2. simpl.
  apply Qltb_false in Hvalue. apply Qltb_true in Hbeat2.
  rewrite Hvalue, Hbeat2. reflexivity.
Qed.

Lemma ascending_inv chip chips :
  ascending (chip :: chips) ->
  Forall (fun chip' => (Chip.beat chip <= Chip.beat chip')%Q) chips /\ ascending chips.
Proof.
  intros Hasc. split.
  - apply Forall_lookup. intros k chip' Hk.
    apply (Hasc 0%nat (S k)); [lia | reflexivity | exact Hk].
  - intros i j a b Hij Ha Hb. apply (Hasc (S i) (S j)); [lia | exact Ha | exact Hb].
Qed.

Lemma duration_nonneg beats bpm :
  (0 <= beats)%Q -> (0 < bpm)%Q -> (0 <= beats * 60 / bpm)%Q.
Proof.
  intros Hbeats Hbpm. unfold Qdiv.
  apply Qmult_le_0_compat; [lra |].
  apply Qinv_le_0_compat. lra.
Qed.

(** From a state with a positive tempo, over chips in ascending order
    none of which lies before the beat of the state, the segments pushed
    come in ascending time, none before the time of the state. *)
Lemma calcSegment_loop_cons st chip bpms :
  calcSegment_loop st (chip :: bpms)
  = snd (calcSegment_chip st chip)
    ++ calcSegment_loop (fst (calcSegment_chip st chip)) bpms.
Proof. simpl. destruct (calcSegment_chip st chip). reflexivity. Qed.

Lemma calcSegment_chip_cases time beat bpm chip :
  let start := (time + (Chip.beat chip - beat) * 60 / bpm)%Q in
  let resume := (start + Chip.beat2 chip * 60 / bpm)%Q in
  ((0 < Chip.value chip)%Q /\
   calcSegment_chip (time, beat, bpm) chip
   = ((start, Chip.beat chip, Chip.value chip),
      [Segment.mk start (Chip.beat chip) (Chip.value chip / 60) (Chip.value chip)]))
  \/
  ((Chip.value chip <= 0)%Q /\ (0 < Chip.beat2 chip)%Q /\
   calcSegment_chip (time, beat, bpm) chip
   = ((resume, Chip.beat chip, bpm),
      [Segment.mk start (Chip.beat chip) 0 bpm;
       Segment.mk resume (Chip.beat chip) (bpm / 60) bpm]))
  \/
  ((Chip.value chip <= 0)%Q /\ (Chip.beat2 chip <= 0)%Q /\
   calcSegment_chip (time, beat, bpm) chip = ((time, beat, bpm), [])).
Proof.
  intros start resume. unfold calcSegment_chip.
  destruct (Qltb 0 (Chip.value chip)) eqn:Hvalue.
  - left. Qbool. auto.
  - right. destruct (Qltb 0 (Chip.beat2 chip)) eqn:Hbeat2; Qbool; auto.
Qed.

(** From a state with a positive tempo, over chips in ascending order
    none of which lies before the beat of the state, the segments pushed
    come in ascending time, none before the time of the state. *)
Lemma calcSegment_loop_times bpms :
  forall time beat bpm,
    (0 < bpm)%Q ->
    ascending bpms ->
    Forall (fun chip => (beat <= Chip.beat chip)%Q) bpms ->
    times_ascending (calcSegment_loop (time, beat, bpm) bpms) /\
    Forall (fun s => (time <= Segment.time s)%Q) (calcSegment_loop (time, beat, bpm) bpms).
Proof.
  unfold times_ascending.
  induction bpms as [| chip bpms IH]; intros time beat bpm Hbpm Hasc Hfrom.
  - split; constructor.
  - apply ascending_inv in Hasc. destruct Hasc as [Hnext Hasc].
    inversion Hfrom as [| ? ? Hchip Hrest]; subst.
    pose proof (duration_nonneg (Chip.beat chip - beat) bpm ltac:(lra) Hbpm) as Hstep.
    rewrite calcSegment_loop_cons.
    destruct (calcSegment_chip_cases time beat bpm chip)
      as [(Hvalue & ->) | [(Hvalue & Hbeat2 & ->) | (_ & _ & ->)]];
      cbn [fst snd app].
    + set (d := ((Chip.beat chip - beat) * 60 / bpm)%Q) in *. clearbody d.
      destruct (IH (time + d)%Q (Chip.beat chip) (Chip.value chip) Hvalue Hasc Hnext)
        as [Hsorted Hall].
      split.
      * constructor; [assumption | exact Hall].
      * constructor; [cbn; lra |].
        eapply Forall_impl; [exact Hall |]. intros s Hs. cbv beta in *. lra.
    + pose proof (duration_nonneg (Chip.beat2 chip) bpm ltac:(lra) Hbpm) as Hpause.
      set (d := ((Chip.beat chip - beat) * 60 / bpm)%Q) in *. clearbody d.
      set (p := (Chip.beat2 chip * 60 / bpm)%Q) in *. clearbody p.
      destruct (IH (time + d + p)%Q (Chip.beat chip) bpm Hbpm Hasc Hnext)
        as [Hsorted Hall].
      split.
      * constructor.
        -- constructor; [assumption | exact Hall].
        -- constructor; [unfold time_le; cbn; lra |].
           eapply Forall_impl; [exact Hall |].
           intros s Hs. unfold time_le. cbn. cbv beta in Hs. lra.
      * constructor; [cbn; lra |]. constructor; [cbn; lra |].
        eapply Forall_impl; [exact Hall |]. intros s Hs. cbv beta in *. lra.
    + apply IH; assumption.
Qed.

Lemma times_ascending_snoc body last :
  times_ascending body ->
  Forall (fun s => (Segment.time s <= Segment.time last)%Q) body ->
  times_ascending (body ++ [last]).
Proof.
  unfold times_ascending. intros Hsorted Hall.
  induction Hsorted as [| s body Hbody IH Hs]; simpl.
  - repeat constructor.
  - inversion Hall; subst. constructor; [apply IH; assumption |].
    apply Forall_app. split; [assumption |]. repeat constructor. assumption.
Qed.

(** C6 (counterexample).  At one beat per minute a tempo change at beat
    36,000,000 falls at 2,160,000,000 seconds; the vector ends with the
    sentinel, whose time is [INT_MAX] = 2,147,483,647: the last time is
    smaller than the one before. *)
Lemma sentinel_not_last_in_time :
  exists bms change last,
    parseBMS slow_chart BMS.zero = Some bms /\
    BMS.segments bms !! 2%nat = Some change /\
    BMS.segments bms !! 3%nat = Some last /\
    length (BMS.segments bms) = 4%nat /\
    last = Segment.mk INT_MAX INT_MAX 0 0 /\
    (Segment.time last < Segment.time change)%Q /\
    ~ times_ascending (BMS.segments bms).
Proof.
  eexists _, _, _.
  split; [vm_compute; reflexivity |].
  split; [reflexivity |]. split; [reflexivity |]. split; [reflexivity |].
  split; [reflexivity |]. split; [vm_compute; reflexivity |].
  unfold times_ascending. intros Hsorted. simpl in Hsorted.
  inversion Hsorted as [| ? ? Hs1 _]; subst.
  inversion Hs1 as [| ? ? Hs2 _]; subst.
  inversion Hs2 as [| ? ? _ Hall]; subst.
  inversion Hall as [| ? ? Hle _]; subst.
  vm_compute in Hle. apply Hle. reflexivity.
Qed.

(** C6 (amended).  For tempo and pause chips in ascending beat order
    that start with a positive tempo at a beat that is not negative,
    [calcSegment] appends the first segment, the segments of the chips
    and the sentinel [{INT_MAX, INT_MAX, 0, 0}].  The times before the
    sentinel never decrease, and the sentinel keeps the order when none
    of them exceeds [INT_MAX].  A pause (no positive [value],
    [beat2 > 0]) pushes exactly two segments between those of the chips
    before it and those of the chips after it: one of velocity 0 at its
    time and beat, one at the same beat, later by [beat2 * 60 / bpm],
    with the velocity [bpm / 60] of the tempo running before the
    pause. *)
Theorem calcSegment_timeline bpms first rest segments :
  bpms = first :: rest ->
  ascending bpms ->
  (0 < Chip.value first)%Q ->
  (0 <= Chip.beat first)%Q ->
  let tempo := Chip.value first in
  let body := Segment.mk 0 0 (tempo / 60) tempo :: calcSegment_loop (0%Q, 0%Q, tempo) bpms in
  let last := Segment.mk INT_MAX INT_MAX 0 0 in
  calcSegment bpms segments = Some (segments ++ body ++ [last]) /\
  times_ascending body /\
  (Forall (fun s => (Segment.time s <= INT_MAX)%Q) body ->
   times_ascending (body ++ [last])) /\
  (forall before pause after,
      bpms = before ++ pause :: after ->
      (Chip.value pause <= 0)%Q -> (0 < Chip.beat2 pause)%Q ->
      forall time beat bpm,
        calcSegment_state (0%Q, 0%Q, tempo) before = (time, beat, bpm) ->
        let start := (time + (Chip.beat pause - beat) * 60 / bpm)%Q in
        let resume := (start + Chip.beat2 pause * 60 / bpm)%Q in
        calcSegment_loop (0%Q, 0%Q, tempo) bpms
        = calcSegment_loop (0%Q, 0%Q, tempo) before
          ++ [Segment.mk start (Chip.beat pause) 0 bpm;
              Segment.mk resume (Chip.beat pause) (bpm / 60) bpm]
          ++ calcSegment_loop (resume, Chip.beat pause, bpm) after).
Proof.
  intros Hbpms Hasc Htempo Hbeat tempo body last. subst bpms.
  assert (Hloop : times_ascending (calcSegment_loop (0%Q, 0%Q, tempo) (first :: rest)) /\
                  Forall (fun s => (0 <= Segment.time s)%Q)
                         (calcSegment_loop (0%Q, 0%Q, tempo) (first :: rest))).
  { apply calcSegment_loop_times; [assumption | assumption |].
    destruct (ascending_inv _ _ Hasc) as [Hnext _].
    constructor; [assumption |].
    eapply Forall_impl; [exact Hnext |]. intros chip Hchip. cbv beta in Hchip. lra. }
  destruct Hloop as [Hsorted Hall].
  assert (Hbody : times_ascending body).
  { constructor; [exact Hsorted | exact Hall]. }
  split; [| split; [| split]].
  - reflexivity.
  - exact Hbody.
  - intros Hbound. apply times_ascending_snoc; assumption.
  - intros before pause after Hsplit Hvalue Hbeat2 time beat bpm Hstate start resume.
    rewrite Hsplit, calcSegment_loop_app, Hstate, calcSegment_loop_cons.
    rewrite (calcSegment_chip_pause time beat bpm pause Hvalue Hbeat2).
    reflexivity.
Qed.

Lemma ascending_nil : ascending [].
Proof. intros i j a b _ Ha. discriminate. Qed.

Lemma calcSegment_timeline_witness :
  let pause := Chip.mk 6 2 0 in
  let change := Chip.mk (24 # 2) 0 60 in
  BMS.bpms demo_bms = [Chip.mk 0 0 120] ++ pause :: [change; sentinel] /\
  calcSegment (BMS.bpms demo_bms) [] = Some (BMS.segments demo_bms) /\
  times_ascending (BMS.segments demo_bms) /\
  map Segment.velocity (BMS.segments demo_bms)
  = [(120 / 60)%Q; (120 / 60)%Q; 0%Q; (120 / 60)%Q; (60 / 60)%Q; 0%Q].
Proof.
  intros pause change.
  assert (Hbpms : BMS.bpms demo_bms = [Chip.mk 0 0 120; pause; change; sentinel])
    by reflexivity.
  assert (Hasc : ascending (BMS.bpms demo_bms)).
  { rewrite Hbpms.
    repeat (apply ascending_cons;
            [| repeat constructor; vm_compute; discriminate]).
    apply ascending_nil. }
  destruct (calcSegment_timeline (BMS.bpms demo_bms) (Chip.mk 0 0 120)
              [pause; change; sentinel] []
              Hbpms Hasc ltac:(reflexivity) ltac:(vm_compute; discriminate))
    as (Hresult & _ & Hsorted & _).
  split; [exact Hbpms |].
  assert (Hsegments : calcSegment (BMS.bpms demo_bms) [] = Some (BMS.segments demo_bms))
    by (vm_compute; reflexivity).
  split; [exact Hsegments |].
  split.
  - refine (Hsorted _). rewrite Hbpms. repeat constructor; vm_compute; discriminate.
  - vm_compute. reflexivity.
Defined.

(** * The rest of the code *)

(** ** One token of [calcChip], channel by channel *)

Lemma long_channel_not_special channel :
  is_long_channel channel = true ->
  (channel =? 1) = false /\ (channel =? 3) = false /\
  (channel =? 8) = false /\ (channel =? 9) = false /\
  is_note_channel channel = false.
Proof.
  unfold is_long_channel, is_note_channel. intros H.
  apply orb_true_iff in H.
  destruct H as [H | H]; apply andb_true_iff in H; destruct H as [H1 H2];
    apply Z.leb_le in H1, H2; repeat split;
    try (apply Z.eqb_neq; lia);
    apply orb_false_iff; split; apply andb_false_iff;
    first [left; apply Z.leb_gt; lia | right; apply Z.leb_gt; lia].
Qed.

Lemma calcChip_token_effect bms measure notation channel length init_beat c
    i0 chips total i chips' total' :
  token notation c <> "00"%string ->
  calcChip_token bms measure notation channel length init_beat c (i0, chips, total)
  = Some (i, chips', total') ->
  exists b,
    BMS.beats bms !! measure = Some b /\
    scan chips i0 (chip_beat init_beat c b length) = Some i /\
    token_effect bms channel (token notation c) (chip_beat init_beat c b length)
                 i chips total chips' total'.
Proof.
  intros Hne H. unfold calcChip_token in H.
  destruct (String.eqb_spec (token notation c) "00") as [E | _]; [contradiction |].
  apply bind_Some in H. destruct H as (b & Hb & H).
  apply bind_Some in H. destruct H as (i' & Hscan & H).
  exists b. split; [assumption |].
  set (beat := chip_beat init_beat c b length) in *.
  set (str := token notation c) in *.
  cut (i' = i /\ token_effect bms channel str beat i' chips total chips' total').
  { intros [<- Heffect]. split; assumption. }
  unfold token_effect.
  destruct (Z.eqb_spec channel 1) as [-> | H1].
  { apply bind_Some in H. destruct H as (v & Hv & H). injection H as <- <- <-.
    split; [reflexivity |]. left. eauto 8. }
  destruct (Z.eqb_spec channel 3) as [-> | H3].
  { apply bind_Some in H. destruct H as (v & Hv & H). injection H as <- <- <-.
    split; [reflexivity |]. right. left. eauto 8. }
  destruct (Z.eqb_spec channel 8) as [-> | H8].
  { apply bind_Some in H. destruct H as (k & Hk & H).
    apply bind_Some in H. destruct H as (v & Hv & H). injection H as <- <- <-.
    split; [reflexivity |]. right. right. left. eauto 10. }
  destruct (Z.eqb_spec channel 9) as [-> | H9].
  { apply bind_Some in H. destruct H as (k & Hk & H).
    apply bind_Some in H. destruct H as (v & Hv & H). injection H as <- <- <-.
    split; [reflexivity |]. right. right. right. left. eauto 10. }
  destruct (is_note_channel channel) eqn:Hnote.
  { destruct (negb (i' =? 0)%nat && String.eqb str (BMS.lnobj bms)) eqn:Hcond.
    - apply andb_true_iff in Hcond. destruct Hcond as [Hi Hstr].
      apply negb_true_iff, Nat.eqb_neq in Hi. apply String.eqb_eq in Hstr.
      apply bind_Some in H. destruct H as (prev & Hprev & H). injection H as <- <- <-.
      split; [reflexivity |]. do 4 right. left. split; [reflexivity |].
      left. eauto 10.
    - apply bind_Some in H. destruct H as (v & Hv & H). injection H as <- <- <-.
      split; [reflexivity |]. do 4 right. left. split; [reflexivity |].
      right. split; [| eauto 10].
      apply andb_false_iff in Hcond. destruct Hcond as [Hi | Hstr].
      + left. apply negb_false_iff, Nat.eqb_eq in Hi. assumption.
      + right. apply String.eqb_neq. assumption. }
  destruct (is_long_channel channel) eqn:Hlong.
  { apply bind_Some in H. destruct H as (open & Hopen & H).
    destruct (Nat.eqb_spec i' 0) as [Hi | Hi].
    - injection Hopen as <-.
      apply bind_Some in H. destruct H as (v & Hv & H). injection H as <- <- <-.
      split; [reflexivity |]. do 5 right. left. split; [reflexivity |].
      right. eauto 10.
    - apply bind_Some in Hopen. destruct Hopen as (prev & Hprev & Hopen).
      injection Hopen as <-.
      destruct (Qltb (Chip.beat2 prev) 0) eqn:Hbeat2; Qbool.
      + injection H as <- <- <-.
        split; [reflexivity |]. do 5 right. left. split; [reflexivity |].
        left. eauto 10.
      + apply bind_Some in H. destruct H as (v & Hv & H). injection H as <- <- <-.
        split; [reflexivity |]. do 5 right. left. split; [reflexivity |].
        right. split; [eauto |]. eauto 10. }
  injection H as <- <- <-. split; [reflexivity |].
  do 6 right. auto 10.
Qed.

(** ** Keys and sample indices *)

Lemma digit_of_range a d : digit_of a = Some d -> 0 <= d < 36.
Proof.
  unfold digit_of. set (n := Z.of_nat (nat_of_ascii a)). intros H.
  destruct ((48 <=? n) && (n <=? 57)) eqn:E1.
  { apply andb_true_iff in E1. destruct E1 as [H1 H2].
    apply Z.leb_le in H1, H2. injection H as <-. lia. }
  destruct ((65 <=? n) && (n <=? 90)) eqn:E2.
  { apply andb_true_iff in E2. destruct E2 as [H1 H2].
    apply Z.leb_le in H1, H2. injection H as <-. lia. }
  destruct ((97 <=? n) && (n <=? 122)) eqn:E3; [| discriminate].
  apply andb_true_iff in E3. destruct E3 as [H1 H2].
  apply Z.leb_le in H1, H2. injection H as <-. lia.
Qed.

Lemma substring_length_le n m s : (String.length (substring n m s) <= m)%nat.
Proof.
  revert n m. induction s as [| a s IH]; intros n m.
  - destruct n, m; simpl; lia.
  - destruct n as [| n]; simpl.
    + destruct m as [| m]; simpl; [lia |]. specialize (IH 0%nat m). lia.
    + apply IH.
Qed.

(** [stoi] on a string of at most two characters is below the square of
    the base. *)
Lemma stoi_range s base v :
  (String.length s <= 2)%nat -> 0 < base ->
  stoi s base = Some v -> 0 <= v < base * base.
Proof.
  intros Hlen Hbase H. destruct s as [| a s]; simpl in H; [discriminate |].
  apply bind_Some in H. destruct H as (d1 & Hd1 & H).
  pose proof (digit_of_range _ _ Hd1) as Hr1.
  destruct (Z.ltb_spec d1 base) as [Hlt1 |]; [| discriminate].
  injection H as <-.
  destruct s as [| a2 s]; simpl; [nia |].
  destruct (digit_of a2) as [d2 |] eqn:Hd2; [| nia].
  pose proof (digit_of_range _ _ Hd2) as Hr2.
  destruct (Z.ltb_spec d2 base) as [Hlt2 |]; [| nia].
  destruct s as [| a3 s]; [simpl; nia |].
  simpl in Hlen. lia.
Qed.

Lemma token_key_range notation c v :
  stoi (token notation c) 36 = Some v -> 0 <= v < 1296.
Proof.
  intros H. apply stoi_range in H; [lia | apply substring_length_le | lia].
Qed.

Lemma to_int_inject v : Int.in_range v -> to_int (inject_Z v) = v.
Proof.
  intros Hv. unfold to_int. simpl. rewrite Z.quot_1_r. apply wrap_small. assumption.
Qed.

(** ** Invariants of one token *)

Lemma last_insert_at i chip (chips : Chips) :
  (i < length chips)%nat -> last (insert_at i chip chips) = last chips.
Proof.
  intros Hi. unfold insert_at.
  rewrite <- (take_drop i chips) at 3.
  assert (Hdrop : drop i chips <> []).
  { intros E. apply (f_equal (length (A := Chip.t))) in E.
    rewrite length_drop in E. simpl in E. lia. }
  destruct (drop i chips) as [| x rest] eqn:E; [contradiction |].
  rewrite !last_app. simpl. rewrite !last_cons.
  destruct (last rest); reflexivity.
Qed.

Lemma last_insert_before i chip (chips : Chips) :
  (S i < length chips)%nat -> last (<[i := chip]> chips) = last chips.
Proof.
  intros Hi. rewrite !last_lookup, length_insert.
  apply list_lookup_insert_ne. lia.
Qed.

Lemma token_effect_sentinel bms channel str beat i0 i chips total chips' total' :
  scan chips i0 beat = Some i ->
  token_effect bms channel str beat i chips total chips' total' ->
  sentinel_last chips -> sentinel_last chips'.
Proof.
  intros Hscan Heffect Hlast. unfold sentinel_last in *.
  pose proof (scan_spec _ _ _ _ Hscan) as ((_ & Hlen) & _).
  destruct Heffect as
    [(_ & _ & v & _ & ->) |
     [(_ & _ & v & _ & ->) |
      [(_ & _ & k & v & _ & _ & ->) |
       [(_ & _ & k & v & _ & _ & ->) |
        [(_ & [(Hi & _ & _ & prev & _ & ->) | (_ & _ & v & _ & ->)]) |
         [(_ & [(Hi & _ & prev & _ & _ & ->) | (_ & _ & v & _ & ->)]) |
          (_ & _ & _ & _ & _ & _ & -> & _)]]]]]];
    try (rewrite last_insert_at by assumption; assumption);
    try (rewrite last_insert_before by lia; assumption);
    assumption.
Qed.

Lemma token_effect_samples bms channel notation c beat i chips total chips' total' :
  channel = 1 \/ is_note_channel channel = true \/ is_long_channel channel = true ->
  token_effect bms channel (token notation c) beat i chips total chips' total' ->
  Forall sample_ok chips -> Forall sample_ok chips'.
Proof.
  intros Hchannel Heffect Hall.
  assert (Hinsert : forall beat2 v,
    stoi (token notation c) 36 = Some v ->
    Forall sample_ok (insert_at i (Chip.mk beat beat2 (inject_Z v)) chips)).
  { intros beat2 v Hv. unfold insert_at. apply Forall_app.
    split; [apply Forall_take; assumption |].
    constructor; [| apply Forall_drop; assumption].
    exists v. split; [reflexivity | eapply token_key_range; eassumption]. }
  assert (Hset : forall prev,
    chips !! (i - 1)%nat = Some prev ->
    Forall sample_ok (<[(i - 1)%nat := Chip.set_beat2 beat prev]> chips)).
  { intros prev Hprev. apply Forall_insert; [assumption |].
    rewrite Forall_lookup in Hall. apply (Hall _ _ Hprev). }
  destruct Heffect as
    [(_ & _ & v & Hv & ->) |
     [(-> & _) |
      [(-> & _) |
       [(-> & _) |
        [(_ & [(_ & _ & _ & prev & Hprev & ->) | (_ & _ & v & Hv & ->)]) |
         [(_ & [(_ & _ & prev & Hprev & _ & ->) | (_ & _ & v & Hv & ->)]) |
          (_ & _ & _ & _ & _ & _ & -> & _)]]]]]];
    eauto;
    destruct Hchannel as [? | [? | ?]]; discriminate.
Qed.

Lemma wrap_add_l a b : Int.wrap (Int.wrap a + b) = Int.wrap (a + b).
Proof.
  unfold Int.wrap.
  replace ((a + 2147483648) mod 4294967296 - 2147483648 + b + 2147483648)
    with ((a + 2147483648) mod 4294967296 + b) by lia.
  rewrite Zplus_mod_idemp_l. f_equal. f_equal. lia.
Qed.

Lemma length_insert_at i chip (chips : Chips) :
  (i <= length chips)%nat -> length (insert_at i chip chips) = S (length chips).
Proof.
  intros Hi. unfold insert_at.
  rewrite length_app, length_take. simpl. rewrite length_drop. lia.
Qed.

(** On the note channels the counter moves with the length of the
    vector; on the other channels it does not move. *)
Lemma token_effect_count bms channel str beat i0 i chips total chips' total' :
  scan chips i0 beat = Some i ->
  token_effect bms channel str beat i chips total chips' total' ->
  (is_note_channel channel || is_long_channel channel = true ->
   Int.wrap (total' - Z.of_nat (length chips'))
   = Int.wrap (total - Z.of_nat (length chips))) /\
  (is_note_channel channel || is_long_channel channel = false -> total' = total).
Proof.
  intros Hscan Heffect.
  pose proof (scan_spec _ _ _ _ Hscan) as ((_ & Hlen) & _).
  assert (Hgrow : forall chip,
    Int.wrap (Int.add total 1 - Z.of_nat (length (insert_at i chip chips)))
    = Int.wrap (total - Z.of_nat (length chips))).
  { intros chip. rewrite length_insert_at by lia. unfold Int.add.
    replace (Int.wrap (total + 1) - Z.of_nat (S (length chips)))
      with (Int.wrap (total + 1) + (- Z.of_nat (S (length chips)))) by lia.
    rewrite wrap_add_l. f_equal. lia. }
  destruct Heffect as
    [(-> & -> & _) |
     [(-> & -> & _) |
      [(-> & -> & _) |
       [(-> & -> & _) |
        [(Hnote & [(_ & _ & -> & prev & _ & ->) | (_ & -> & v & _ & ->)]) |
         [(Hlong & [(_ & -> & prev & _ & _ & ->) | (_ & -> & v & _ & ->)]) |
          (_ & _ & _ & _ & Hnote & Hlong & -> & ->)]]]]]];
    split; intros Hclass;
    try reflexivity; try discriminate Hclass;
    try (rewrite length_insert; reflexivity);
    try apply Hgrow;
    try (rewrite Hnote in Hclass; discriminate Hclass);
    try (rewrite Hlong, orb_true_r in Hclass; discriminate Hclass).
Qed.

(** ** Invariants of [calcChip] *)

(** A relation between the vector and the counter that every token
    other than "00" keeps is kept by [calcChip]. *)
Lemma calcChip_loop_keeps (R : Chips -> Z -> Prop) bms measure notation channel
    length init_beat :
  (forall c b i0 i chips total chips' total',
      R chips total ->
      scan chips i0 (chip_beat init_beat c b length) = Some i ->
      token_effect bms channel (token notation c) (chip_beat init_beat c b length)
                   i chips total chips' total' ->
      R chips' total') ->
  forall cs i0 chips total i chips' total',
    R chips total ->
    calcChip_loop bms measure notation channel length init_beat cs (i0, chips, total)
    = Some (i, chips', total') ->
    R chips' total'.
Proof.
  intros Hstep. induction cs as [| c cs IH];
    intros i0 chips total i chips' total' HR H; cbn [calcChip_loop] in H.
  - injection H as <- <- <-. assumption.
  - apply bind_Some in H. destruct H as ([[i1 chips1] total1] & Htoken & H).
    eapply IH; [| exact H].
    destruct (String.eqb_spec (token notation c) "00") as [E | Hne].
    + apply calcChip_token_inv in Htoken.
      destruct Htoken as [(_ & _ & -> & ->) | (Hne & _)]; [assumption | contradiction].
    + destruct (calcChip_token_effect _ _ _ _ _ _ _ _ _ _ _ _ _ Hne Htoken)
        as (b & _ & Hscan & Heffect).
      eapply Hstep; eassumption.
Qed.

Lemma calcChip_keeps (R : Chips -> Z -> Prop) chips measure notation bms channel
    chips' total' :
  (forall c beat i0 i chips total chips' total',
      R chips total ->
      scan chips i0 beat = Some i ->
      token_effect bms channel (token notation c) beat i chips total chips' total' ->
      R chips' total') ->
  R chips (BMS.totalNotes bms) ->
  calcChip chips measure notation bms channel = Some (chips', total') ->
  R chips' total'.
Proof.
  intros Hstep HR H. unfold calcChip in H.
  apply bind_Some in H. destruct H as ([[i chips1] total1] & Hloop & H).
  injection H as <- <-.
  eapply (calcChip_loop_keeps R); [| exact HR | exact Hloop].
  intros c b i0 i1 chips0 total0 chips2 total2. apply Hstep.
Qed.

Lemma calcChip_sentinel chips measure notation bms channel chips' total' :
  sentinel_last chips ->
  calcChip chips measure notation bms channel = Some (chips', total') ->
  sentinel_last chips'.
Proof.
  intros Hlast H.
  apply (calcChip_keeps (fun chips _ => sentinel_last chips) _ _ _ _ _ _ _) with (3 := H);
    [| assumption].
  intros c beat i0 i chips0 total0 chips1 total1 H0 Hscan Heffect.
  eapply token_effect_sentinel; eassumption.
Qed.

Lemma calcChip_samples chips measure notation bms channel chips' total' :
  channel = 1 \/ is_note_channel channel = true \/ is_long_channel channel = true ->
  Forall sample_ok chips ->
  calcChip chips measure notation bms channel = Some (chips', total') ->
  Forall sample_ok chips'.
Proof.
  intros Hchannel Hall H.
  apply (calcChip_keeps (fun chips _ => Forall sample_ok chips) _ _ _ _ _ _ _) with (3 := H);
    [| assumption].
  intros c beat i0 i chips0 total0 chips1 total1 H0 Hscan Heffect.
  eapply token_effect_samples; eassumption.
Qed.

Lemma calcChip_count chips measure notation bms channel chips' total' :
  calcChip chips measure notation bms channel = Some (chips', total') ->
  (is_note_channel channel || is_long_channel channel = true ->
   Int.wrap (total' - Z.of_nat (length chips'))
   = Int.wrap (BMS.totalNotes bms - Z.of_nat (length chips))) /\
  (is_note_channel channel || is_long_channel channel = false ->
   total' = BMS.totalNotes bms).
Proof.
  intros H.
  apply (calcChip_keeps
           (fun chips1 total1 =>
              (is_note_channel channel || is_long_channel channel = true ->
               Int.wrap (total1 - Z.of_nat (length chips1))
               = Int.wrap (BMS.totalNotes bms - Z.of_nat (length chips))) /\
              (is_note_channel channel || is_long_channel channel = false ->
               total1 = BMS.totalNotes bms))
           _ _ _ _ _ _ _) with (3 := H); [| split; reflexivity].
  intros c beat i0 i chips0 total0 chips1 total1 [Hyes Hno] Hscan Heffect.
  destruct (token_effect_count _ _ _ _ _ _ _ _ _ _ Hscan Heffect) as [Hyes1 Hno1].
  split; intros Hclass.
  - rewrite Hyes1 by assumption. apply Hyes. assumption.
  - rewrite Hno1 by assumption. apply Hno. assumption.
Qed.

Lemma calcChip_total_range chips measure notation bms channel chips' total' :
  Int.in_range (BMS.totalNotes bms) ->
  calcChip chips measure notation bms channel = Some (chips', total') ->
  Int.in_range total'.
Proof.
  intros Hrange H.
  apply (calcChip_keeps (fun _ total => Int.in_range total) _ _ _ _ _ _ _) with (3 := H);
    [| assumption].
  intros c beat i0 i chips0 total0 chips1 total1 H0 Hscan Heffect.
  destruct Heffect as
    [(_ & -> & _) |
     [(_ & -> & _) |
      [(_ & -> & _) |
       [(_ & -> & _) |
        [(_ & [(_ & _ & -> & _) | (_ & -> & _)]) |
         [(_ & [(_ & -> & _) | (_ & -> & _)]) |
          (_ & _ & _ & _ & _ & _ & _ & ->)]]]]]];
    try assumption; apply wrap_range.
Qed.

(** ** Invariants of the second pass *)

Section SecondPass.

Variables Pbgm Pbpm Plane : Chips -> Prop.

Hypothesis Hbgm : forall bms measure notation chips chips' total',
  Pbgm chips -> calcChip chips measure notation bms 1 = Some (chips', total') ->
  Pbgm chips'.

Hypothesis Hbpm : forall bms measure notation channel chips chips' total',
  Pbpm chips -> calcChip chips measure notation bms channel = Some (chips', total') ->
  Pbpm chips'.

Hypothesis Htempo : forall x chips, Pbpm chips -> Pbpm (Chip.mk 0 0 x :: chips).

Hypothesis Hlane : forall bms measure notation channel chips chips' total',
  is_note_channel channel = true \/ is_long_channel channel = true ->
  Plane chips -> calcChip chips measure notation bms channel = Some (chips', total') ->
  Plane chips'.

Lemma calcChip_lane_keeps bms c measure notation channel bms' :
  is_note_channel channel = true \/ is_long_channel channel = true ->
  sequences_ok Pbgm Pbpm Plane bms ->
  calcChip_lane bms c measure notation channel = Some bms' ->
  sequences_ok Pbgm Pbpm Plane bms'.
Proof.
  intros Hchannel (Hg & Hb & Hl) H. unfold calcChip_lane in H.
  apply bind_Some in H. destruct H as (chips & Hchips & H).
  apply bind_Some in H. destruct H as ([chips' total'] & Hcalc & H).
  injection H as <-. repeat split; try assumption. simpl.
  apply Forall_insert; [assumption |].
  eapply Hlane; [exact Hchannel | | exact Hcalc].
  rewrite Forall_lookup in Hl. eapply Hl; eassumption.
Qed.

Lemma parseBMSCommand_keeps bms line bms' :
  sequences_ok Pbgm Pbpm Plane bms ->
  parseBMSCommand bms line = Some bms' ->
  sequences_ok Pbgm Pbpm Plane bms'.
Proof.
  intros Hok H. pose proof Hok as (Hg & Hb & Hl).
  destruct line as [m num | name arg num | m channel notation |];
    cbn [parseBMSCommand parseBMSChannel] in H;
    try (injection H as <-; exact Hok).
  - destruct (String.eqb name "TITLE"); [injection H as <-; exact Hok |].
    destruct (String.eqb name "ARTIST"); [injection H as <-; exact Hok |].
    destruct (String.eqb name "GENRE"); [injection H as <-; exact Hok |].
    destruct (String.eqb name "PLAYLEVEL"); [injection H as <-; exact Hok |].
    destruct (String.eqb name "LNOBJ"); [injection H as <-; exact Hok |].
    destruct (String.eqb name "BPM").
    + apply bind_Some in H. destruct H as (x & _ & H). injection H as <-.
      repeat split; try assumption. simpl. apply Htempo. assumption.
    + unfold parseBMSTable in H. invert_some; exact Hok.
  - destruct (channel =? 1) eqn:E1.
    { apply Z.eqb_eq in E1. subst channel.
      apply bind_Some in H. destruct H as ([chips' total'] & Hcalc & H).
      injection H as <-. repeat split; try assumption. simpl. eauto. }
    destruct ((channel =? 3) || (8 <=? channel) && (channel <=? 9)).
    { apply bind_Some in H. destruct H as ([chips' total'] & Hcalc & H).
      injection H as <-. repeat split; try assumption. simpl. eauto. }
    destruct (is_note_channel channel) eqn:Hnote;
      [eapply calcChip_lane_keeps; [left; exact Hnote | exact Hok | exact H] |].
    destruct (is_long_channel channel) eqn:Hlong;
      [eapply calcChip_lane_keeps; [right; exact Hlong | exact Hok | exact H] |].
    injection H as <-. exact Hok.
Qed.

Lemma second_pass_keeps lines :
  forall bms bms',
    sequences_ok Pbgm Pbpm Plane bms ->
    each_line parseBMSCommand lines bms = Some bms' ->
    sequences_ok Pbgm Pbpm Plane bms'.
Proof.
  induction lines as [| line lines IH]; intros bms bms' Hok H; cbn [each_line] in H.
  - injection H as <-. assumption.
  - apply bind_Some in H. destruct H as (bms1 & Hline & H).
    eapply IH; [| exact H]. eapply parseBMSCommand_keeps; eassumption.
Qed.

End SecondPass.

Lemma sum_lengths_insert (lanes : list Chips) c chips chips' :
  lanes !! c = Some chips ->
  (sum_list_with (length (A := Chip.t)) (<[c := chips']> lanes) + length chips
   = sum_list_with (length (A := Chip.t)) lanes + length chips')%nat.
Proof.
  revert c. induction lanes as [| l lanes IH]; intros c Hc; [discriminate |].
  destruct c as [| c]; simpl in *.
  - injection Hc as ->. lia.
  - specialize (IH c Hc). lia.
Qed.

Lemma wrap_add_r a b : Int.wrap (a + Int.wrap b) = Int.wrap (a + b).
Proof. rewrite Z.add_comm, wrap_add_l. f_equal. lia. Qed.

Lemma calcChip_lane_count bms c measure notation channel bms' :
  is_note_channel channel = true \/ is_long_channel channel = true ->
  count_ok bms ->
  calcChip_lane bms c measure notation channel = Some bms' ->
  count_ok bms'.
Proof.
  intros Hchannel [Hrange Hcount] H. unfold calcChip_lane in H.
  apply bind_Some in H. destruct H as (chips & Hchips & H).
  apply bind_Some in H. destruct H as ([chips' total'] & Hcalc & H).
  injection H as <-. unfold count_ok. simpl.
  split; [eapply calcChip_total_range; eassumption |].
  rewrite length_insert, <- Hcount.
  destruct (calcChip_count _ _ _ _ _ _ _ Hcalc) as [Hyes _].
  assert (Hclass : is_note_channel channel || is_long_channel channel = true).
  { destruct Hchannel as [-> | ->]; [reflexivity | apply orb_true_r]. }
  specialize (Hyes Hclass).
  pose proof (sum_lengths_insert _ _ _ chips' Hchips) as Hsum.
  set (sum' := sum_list_with length (<[c := chips']> (BMS.lanes bms))) in *.
  set (sum := sum_list_with length (BMS.lanes bms)) in *.
  replace (total' - Z.of_nat sum')
    with ((total' - Z.of_nat (length chips'))
          + (Z.of_nat (length chips) - Z.of_nat sum)) by lia.
  rewrite <- wrap_add_l, Hyes, wrap_add_l. f_equal. lia.
Qed.

Lemma parseBMSCommand_count bms line bms' :
  count_ok bms -> parseBMSCommand bms line = Some bms' -> count_ok bms'.
Proof.
  intros Hok H. pose proof Hok as [Hrange Hcount].
  destruct line as [m num | name arg num | m channel notation |];
    cbn [parseBMSCommand parseBMSChannel] in H;
    try (injection H as <-; exact Hok).
  - destruct (String.eqb name "TITLE"); [injection H as <-; exact Hok |].
    destruct (String.eqb name "ARTIST"); [injection H as <-; exact Hok |].
    destruct (String.eqb name "GENRE"); [injection H as <-; exact Hok |].
    destruct (String.eqb name "PLAYLEVEL"); [injection H as <-; exact Hok |].
    destruct (String.eqb name "LNOBJ"); [injection H as <-; exact Hok |].
    destruct (String.eqb name "BPM").
    + apply bind_Some in H. destruct H as (x & _ & H). injection H as <-. exact Hok.
    + unfold parseBMSTable in H. invert_some; exact Hok.
  - destruct (channel =? 1) eqn:E1.
    { apply Z.eqb_eq in E1. subst channel.
      apply bind_Some in H. destruct H as ([chips' total'] & Hcalc & H).
      injection H as <-.
      destruct (calcChip_count _ _ _ _ _ _ _ Hcalc) as [_ Hno].
      unfold count_ok. simpl. rewrite (Hno eq_refl). exact Hok. }
    destruct ((channel =? 3) || (8 <=? channel) && (channel <=? 9)) eqn:E2.
    { apply bind_Some in H. destruct H as ([chips' total'] & Hcalc & H).
      injection H as <-.
      destruct (calcChip_count _ _ _ _ _ _ _ Hcalc) as [_ Hno].
      unfold count_ok. simpl. rewrite Hno; [exact Hok |].
      unfold is_note_channel, is_long_channel.
      apply orb_true_iff in E2. destruct E2 as [E2 | E2].
      - apply Z.eqb_eq in E2. subst channel. reflexivity.
      - apply andb_true_iff in E2. destruct E2 as [H8 H9].
        apply Z.leb_le in H8, H9.
        assert (channel = 8 \/ channel = 9) as [-> | ->] by lia; reflexivity. }
    destruct (is_note_channel channel) eqn:Hnote;
      [eapply calcChip_lane_count; [left; exact Hnote | exact Hok | exact H] |].
    destruct (is_long_channel channel) eqn:Hlong;
      [eapply calcChip_lane_count; [right; exact Hlong | exact Hok | exact H] |].
    injection H as <-. exact Hok.
Qed.

Lemma second_pass_count lines :
  forall bms bms',
    count_ok bms -> each_line parseBMSCommand lines bms = Some bms' -> count_ok bms'.
Proof.
  induction lines as [| line lines IH]; intros bms bms' Hok H; cbn [each_line] in H.
  - injection H as <-. assumption.
  - apply bind_Some in H. destruct H as (bms1 & Hline & H).
    eapply IH; [| exact H]. eapply parseBMSCommand_count; eassumption.
Qed.

Lemma first_pass_totalNotes lines :
  forall bms bms',
    each_line parseBMSMeasure lines bms = Some bms' ->
    BMS.totalNotes bms' = BMS.totalNotes bms.
Proof.
  induction lines as [| line lines IH]; intros bms bms' H; cbn [each_line] in H.
  - injection H as <-. reflexivity.
  - apply bind_Some in H. destruct H as (bms1 & Hline & H).
    rewrite (IH _ _ H). unfold parseBMSMeasure in Hline.
    destruct line as [m [x |] | | |]; invert_some; reflexivity.
Qed.

Lemma sentinel_last_length chips : sentinel_last chips -> (1 <= length chips)%nat.
Proof.
  unfold sentinel_last. destruct chips; simpl; [discriminate | lia].
Qed.

Lemma count_notes_sum (lanes : list Chips) :
  Forall sentinel_last lanes ->
  (count_notes lanes + length lanes = sum_list_with (length (A := Chip.t)) lanes)%nat.
Proof.
  unfold count_notes. induction 1 as [| chips lanes Hchips _ IH]; simpl; [reflexivity |].
  apply sentinel_last_length in Hchips. lia.
Qed.

(** The sequences and the counter of a parsed chart. *)
Lemma parsed_sequences lines bms :
  parseBMS lines BMS.zero = Some bms ->
  sequences_ok (fun chips => sentinel_last chips /\ Forall sample_ok chips)
               sentinel_last
               (fun chips => sentinel_last chips /\ Forall sample_ok chips) bms /\
  count_ok bms.
Proof.
  intros H. destruct (parseBMS_inv _ _ H) as (bms1 & bms2 & segments & H1 & H2 & _ & ->).
  pose proof (first_pass_totalNotes _ _ _ H1) as Htotal.
  apply first_pass_inv in H1. destruct H1 as (Hbgms & Hbpms & Hlanes & _).
  assert (Hsentinel : sentinel_last [sentinel] /\ Forall sample_ok [sentinel]).
  { split; [reflexivity |]. repeat constructor. exists 0. split; [reflexivity | lia]. }
  split.
  - apply (second_pass_keeps _ _ _) with (6 := H2).
    + intros b m notation chips chips' total' [Hlast Hall] Hcalc.
      split; [eapply calcChip_sentinel | eapply calcChip_samples]; eauto.
    + intros b m notation channel chips chips' total' Hlast Hcalc.
      eapply calcChip_sentinel; eassumption.
    + intros x chips Hlast. unfold sentinel_last in *.
      rewrite last_cons, Hlast. reflexivity.
    + intros b m notation channel chips chips' total' Hchannel [Hlast Hall] Hcalc.
      split; [eapply calcChip_sentinel | eapply calcChip_samples]; eauto.
    + unfold sequences_ok. rewrite Hbgms, Hbpms, Hlanes. simpl.
      split; [exact Hsentinel |]. split; [reflexivity |].
      repeat (apply Forall_cons; split; [exact Hsentinel |]). apply Forall_nil. exact I.
  - apply (second_pass_count _ _ _) with (2 := H2).
    unfold count_ok. rewrite Htotal, Hlanes. simpl. split; [| reflexivity].
    unfold Int.in_range, Int.min, Int.max. lia.
Qed.

(** ** What a parsed chart guarantees *)

Lemma scan_from_total rest i beat k a :
  rest !! k = Some a -> (beat < Chip.beat a)%Q -> is_Some (scan_from rest i beat).
Proof.
  revert i k. induction rest as [| ch rest IH]; simpl; intros i k Ha Hlt; [discriminate |].
  destruct (Qleb (Chip.beat ch) beat) eqn:E; [| eauto].
  destruct k as [| k]; simpl in Ha.
  - injection Ha as ->. Qbool. lra.
  - eauto.
Qed.

Lemma scan_from_none rest i beat :
  Forall (fun a => (Chip.beat a <= beat)%Q) rest -> scan_from rest i beat = None.
Proof.
  intros Hall. revert i. induction Hall as [| ch rest Hch _ IH]; intros i; simpl.
  - reflexivity.
  - apply Qleb_true in Hch. rewrite Hch. apply IH.
Qed.

(** X1.  Every sequence of a parsed chart still ends with the sentinel
    chip, and there are eight lanes.  In an ascending sequence that ends
    with the sentinel, the scan from an index inside the vector stops
    exactly for the beats below [INT_MAX]: from [INT_MAX] on it runs off
    the end, where [chips.at(i)] throws. *)
Theorem parsed_sentinels lines bms :
  parseBMS lines BMS.zero = Some bms ->
  (sentinel_last (BMS.bgms bms) /\
   sentinel_last (BMS.bpms bms) /\
   Forall sentinel_last (BMS.lanes bms) /\
   length (BMS.lanes bms) = LANES_COUNT) /\
  (forall chips i0 beat,
      ascending chips -> sentinel_last chips -> (i0 < length chips)%nat ->
      (is_Some (scan chips i0 beat) <-> (beat < INT_MAX)%Q)).
Proof.
  intros H. split.
  - destruct (parsed_sequences _ _ H) as [([Hbgms _] & Hbpms & Hlanes) [_ Hcount]].
    split; [assumption |]. split; [assumption |]. split.
    + eapply Forall_impl; [exact Hlanes |]. intros chips [Hlast _]. exact Hlast.
    + destruct (parseBMS_inv _ _ H) as (bms1 & bms2 & segments & H1 & H2 & _ & ->).
      apply first_pass_inv in H1. destruct H1 as (_ & _ & Hl & _).
      simpl. clear - H2 Hl.
      assert (Hlen : length (BMS.lanes bms1) = LANES_COUNT) by (rewrite Hl; reflexivity).
      clear Hl. revert bms1 Hlen H2.
      induction lines as [| line lines IH]; intros bms1 Hlen H2; cbn [each_line] in H2.
      * injection H2 as <-. assumption.
      * apply bind_Some in H2. destruct H2 as (bms' & Hline & H2).
        apply (IH bms'); [| assumption]. rewrite <- Hlen. clear - Hline.
        assert (Hlane : forall c m notation channel b',
                  calcChip_lane bms1 c m notation channel = Some b' ->
                  length (BMS.lanes b') = length (BMS.lanes bms1)).
        { intros c m notation channel b' Hc. unfold calcChip_lane in Hc.
          invert_some. simpl. apply length_insert. }
        destruct line as [m num | name arg num | m channel notation |];
          cbn [parseBMSCommand parseBMSChannel] in Hline;
          try (injection Hline as <-; reflexivity).
        -- unfold parseBMSTable in Hline. invert_some; reflexivity.
        -- destruct (channel =? 1); [invert_some; reflexivity |].
           destruct ((channel =? 3) || (8 <=? channel) && (channel <=? 9));
             [invert_some; reflexivity |].
           destruct (is_note_channel channel); [eapply Hlane; eassumption |].
           destruct (is_long_channel channel); [eapply Hlane; eassumption |].
           injection Hline as <-. reflexivity.
  - intros chips i0 beat Hasc Hlast Hi0. unfold sentinel_last in Hlast.
    rewrite last_lookup in Hlast. split.
    + intros [i Hscan]. apply scan_spec in Hscan.
      destruct Hscan as ((_ & Hlen) & _ & a & Ha & Hlt).
      eapply Qlt_le_trans; [exact Hlt |].
      change INT_MAX with (Chip.beat sentinel).
      apply (Hasc i (pred (length chips))); [lia | assumption | assumption].
    + intros Hbeat. unfold scan.
      apply (scan_from_total _ _ _ (pred (length chips) - i0)%nat sentinel);
        [| exact Hbeat].
      rewrite lookup_drop.
      replace (i0 + (pred (length chips) - i0))%nat with (pred (length chips)) by lia.
      assumption.
Qed.

Lemma parsed_sentinels_witness :
  sentinel_last (BMS.bgms demo_bms) /\
  (is_Some (scan (BMS.bgms demo_bms) 0 8) <-> (8 < INT_MAX)%Q).
Proof.
  destruct (parsed_sentinels demo_chart demo_bms ltac:(vm_compute; reflexivity))
    as [(Hbgms & _) Hscan].
  split; [exact Hbgms |].
  apply Hscan.
  - repeat (apply ascending_cons; [| repeat constructor; vm_compute; discriminate]).
    apply ascending_nil.
  - exact Hbgms.
  - simpl. lia.
Defined.

(** X2.  The value of every background cue and of every note of a
    parsed chart is an integer sample index from 0 to 1295: handing it
    to [Mix_PlayChannel] never makes [chunkTable.at] throw. *)
Theorem parsed_samples_play lines bms chips chip played :
  parseBMS lines BMS.zero = Some bms ->
  chips ∈ BMS.bgms bms :: BMS.lanes bms ->
  chip ∈ chips ->
  exists v,
    Chip.value chip = inject_Z v /\ 0 <= v < 1296 /\
    play_chunk (Chip.value chip) played = Some (played ++ [v]).
Proof.
  intros H Hchips Hchip.
  destruct (parsed_sequences _ _ H) as [([_ Hbgms] & _ & Hlanes) _].
  assert (Hok : sample_ok chip).
  { apply elem_of_cons in Hchips. destruct Hchips as [-> | Hchips].
    - rewrite Forall_forall in Hbgms. apply Hbgms. assumption.
    - rewrite Forall_forall in Hlanes. destruct (Hlanes _ Hchips) as [_ Hall].
      rewrite Forall_forall in Hall. apply Hall. assumption. }
  destruct Hok as (v & Hv & Hrange). exists v.
  split; [assumption |]. split; [assumption |].
  unfold play_chunk. rewrite Hv, to_int_inject
    by (unfold Int.in_range, Int.min, Int.max; lia).
  destruct (Z.leb_spec 0 v); [| lia]. destruct (Z.ltb_spec v 1296); [| lia].
  reflexivity.
Qed.

Lemma parsed_samples_play_witness :
  exists v,
    Chip.value (Chip.mk (0 # 4) (12 # 4) 10) = inject_Z v /\ 0 <= v < 1296 /\
    play_chunk (Chip.value (Chip.mk (0 # 4) (12 # 4) 10)) [11] = Some ([11] ++ [v]).
Proof.
  apply (parsed_samples_play long_chart long_bms
           [Chip.mk (0 # 4) (12 # 4) 10; sentinel]).
  - vm_compute. reflexivity.
  - right. right. left.
  - left.
Defined.

(** X3.  [totalNotes] of a parsed chart is the number of chips of the
    lanes other than their sentinels (as an [int]; the number itself
    when it fits): the closing tokens of long notes, the background
    cues, the tempo changes and the pauses are not counted. *)
Theorem totalNotes_counts_notes lines bms :
  parseBMS lines BMS.zero = Some bms ->
  BMS.totalNotes bms = Int.wrap (Z.of_nat (count_notes (BMS.lanes bms))) /\
  (Z.of_nat (count_notes (BMS.lanes bms)) <= Int.max ->
   BMS.totalNotes bms = Z.of_nat (count_notes (BMS.lanes bms))).
Proof.
  intros H.
  destruct (parsed_sequences _ _ H) as [(_ & _ & Hlanes) [Hrange Hcount]].
  assert (Hlast : Forall sentinel_last (BMS.lanes bms)).
  { eapply Forall_impl; [exact Hlanes |]. intros chips [Hl _]. exact Hl. }
  pose proof (count_notes_sum _ Hlast) as Hsum.
  assert (E : BMS.totalNotes bms = Int.wrap (Z.of_nat (count_notes (BMS.lanes bms)))).
  { rewrite <- (wrap_small (BMS.totalNotes bms)) by assumption.
    replace (BMS.totalNotes bms)
      with ((BMS.totalNotes bms
             - Z.of_nat (sum_list_with length (BMS.lanes bms)))
            + Z.of_nat (sum_list_with length (BMS.lanes bms))) at 1 by lia.
    rewrite <- wrap_add_l, Hcount, wrap_add_l. f_equal. lia. }
  split; [exact E |].
  intros Hfit. rewrite E. apply wrap_small.
  unfold Int.in_range, Int.min, Int.max in *. lia.
Qed.

Lemma totalNotes_counts_notes_witness :
  BMS.totalNotes demo_bms = 4 /\ count_notes (BMS.lanes demo_bms) = 4%nat /\
  BMS.totalNotes long_bms = 1 /\ count_notes (BMS.lanes long_bms) = 1%nat.
Proof.
  destruct (totalNotes_counts_notes demo_chart demo_bms ltac:(vm_compute; reflexivity))
    as [_ Hdemo].
  destruct (totalNotes_counts_notes long_chart long_bms ltac:(vm_compute; reflexivity))
    as [_ Hlong].
  split; [apply Hdemo; vm_compute; discriminate |].
  split; [reflexivity |].
  split; [apply Hlong; vm_compute; discriminate | reflexivity].
Defined.

(** X4.  A token other than "00" on a long-note channel (51-56,
    58-59), [i] being the index where the scan stops: when the chip at
    [i - 1] is open ([beat2 < 0]) it is closed, its [beat2] becoming the
    beat of the token, with no insertion and no count; when there is no
    chip before [i], or that chip is not open, a chip with
    [beat2 = -1] and the value of the token is inserted at [i] and
    counted. *)
Theorem long_token bms measure notation channel length init_beat c i0 chips total b i :
  let str := token notation c in
  let beat := chip_beat init_beat c b length in
  let result :=
    calcChip_token bms measure notation channel length init_beat c (i0, chips, total) in
  is_long_channel channel = true ->
  str <> "00"%string ->
  BMS.beats bms !! measure = Some b ->
  scan chips i0 beat = Some i ->
  (forall prev,
      i <> 0%nat -> chips !! (i - 1)%nat = Some prev -> (Chip.beat2 prev < 0)%Q ->
      result = Some (i, <[(i - 1)%nat := Chip.set_beat2 beat prev]> chips, total)) /\
  (i = 0%nat \/
   (exists prev, chips !! (i - 1)%nat = Some prev /\ (0 <= Chip.beat2 prev)%Q) ->
   forall v, stoi str 36 = Some v ->
     result = Some (i, insert_at i (Chip.mk beat (-1) (inject_Z v)) chips,
                    Int.add total 1)).
Proof.
  intros str beat result Hchannel Hstr Hb Hscan.
  destruct (long_channel_not_special _ Hchannel) as (H1 & H3 & H8 & H9 & Hnote).
  assert (Hresult : result =
    open ← (if (i =? 0)%nat then Some None
            else prev ← chips !! (i - 1)%nat;
                 Some (if Qltb (Chip.beat2 prev) 0 then Some prev else None));
    match open with
    | Some prev =>
        Some (i, <[(i - 1)%nat := Chip.set_beat2 beat prev]> chips, total)
    | None =>
        v ← stoi str 36;
        Some (i, insert_at i (Chip.mk beat (-1) (inject_Z v)) chips, Int.add total 1)
    end).
  { subst result. unfold calcChip_token. fold str.
    destruct (String.eqb_spec str "00") as [E | _]; [contradiction |].
    rewrite Hb. simpl. fold beat. rewrite Hscan. simpl.
    rewrite H1, H3, H8, H9, Hnote, Hchannel. reflexivity. }
  rewrite Hresult. clear Hresult. split.
  - intros prev Hi Hprev Hopen.
    apply Nat.eqb_neq in Hi. rewrite Hi, Hprev. simpl.
    apply Qltb_true in Hopen. rewrite Hopen. reflexivity.
  - intros [-> | (prev & Hprev & Hclosed)] v Hv.
    + simpl. rewrite Hv. reflexivity.
    + destruct (i =? 0)%nat; simpl; [rewrite Hv; reflexivity |].
      rewrite Hprev. simpl. apply Qltb_false in Hclosed. rewrite Hclosed.
      rewrite Hv. reflexivity.
Qed.

Lemma long_token_witness :
  let bms := parseBMS_init BMS.zero in
  calcChip_token bms 0 "0A00000A" 51 4 0 0 (0%nat, [sentinel], 0)
  = Some (0%nat, [Chip.mk (chip_beat 0 0 4 4) (-1) 10; sentinel], 1) /\
  calcChip_token bms 0 "0A00000A" 51 4 0 3
    (0%nat, [Chip.mk (chip_beat 0 0 4 4) (-1) 10; sentinel], 1)
  = Some (1%nat, [Chip.mk (chip_beat 0 0 4 4) (chip_beat 0 3 4 4) 10; sentinel], 1).
Proof.
  intros bms. split.
  - exact (proj2 (long_token bms 0 "0A00000A" 51 4 0 0 0 [sentinel] 0 4 0
                    ltac:(reflexivity) ltac:(discriminate)
                    ltac:(vm_compute; reflexivity) ltac:(vm_compute; reflexivity))
                 (or_introl eq_refl) 10 ltac:(reflexivity)).
  - exact (proj1 (long_token bms 0 "0A00000A" 51 4 0 3 0
                    [Chip.mk (chip_beat 0 0 4 4) (-1) 10; sentinel] 1 4 1
                    ltac:(reflexivity) ltac:(discriminate)
                    ltac:(vm_compute; reflexivity) ltac:(vm_compute; reflexivity))
                 (Chip.mk (chip_beat 0 0 4 4) (-1) 10)
                 ltac:(discriminate) ltac:(reflexivity) ltac:(reflexivity)).
Defined.

(** ** Channels and lanes *)

(** X5.  Each of the eight note channels has its own lane below
    [LANES_COUNT] (16 is lane 0, 11 to 15 are lanes 1 to 5, 18 and 19
    are lanes 6 and 7), and the long-note channel forty above a note
    channel has the same lane. *)
Theorem lane_of_channel_lanes channel channel' :
  is_note_channel channel = true ->
  is_note_channel channel' = true ->
  (lane_of_channel 10 channel < LANES_COUNT)%nat /\
  (lane_of_channel 10 channel = lane_of_channel 10 channel' -> channel = channel') /\
  is_long_channel (channel + 40) = true /\
  lane_of_channel 50 (channel + 40) = lane_of_channel 10 channel /\
  (lane_of_channel 10 channel = 0%nat <-> channel = 16).
Proof.
  intros H H'.
  assert (Hc : channel = 11 \/ channel = 12 \/ channel = 13 \/ channel = 14 \/
               channel = 15 \/ channel = 16 \/ channel = 18 \/ channel = 19).
  { unfold is_note_channel in H. apply orb_true_iff in H.
    destruct H as [H | H]; apply andb_true_iff in H; destruct H as [H1 H2];
      apply Z.leb_le in H1, H2; lia. }
  assert (Hc' : channel' = 11 \/ channel' = 12 \/ channel' = 13 \/ channel' = 14 \/
                channel' = 15 \/ channel' = 16 \/ channel' = 18 \/ channel' = 19).
  { unfold is_note_channel in H'. apply orb_true_iff in H'.
    destruct H' as [H' | H']; apply andb_true_iff in H'; destruct H' as [H1 H2];
      apply Z.leb_le in H1, H2; lia. }
  clear H H'.
  repeat (destruct Hc as [-> | Hc]); try subst channel;
    (split; [unfold LANES_COUNT; vm_compute; lia |]);
    (split; [repeat (destruct Hc' as [-> | Hc']); try subst channel';
             vm_compute; intros E; first [reflexivity | discriminate E] |]);
    (split; [reflexivity |]); (split; [reflexivity |]);
    vm_compute; split; intros E; first [reflexivity | discriminate E].
Qed.

Lemma lane_of_channel_lanes_witness :
  (lane_of_channel 10 16 < LANES_COUNT)%nat /\
  (lane_of_channel 10 16 = lane_of_channel 10 18 -> 16 = 18) /\
  is_long_channel (16 + 40) = true /\
  lane_of_channel 50 (16 + 40) = lane_of_channel 10 16 /\
  (lane_of_channel 10 16 = 0%nat <-> 16 = 16).
Proof.
  apply (lane_of_channel_lanes 16 18); reflexivity.
Defined.

(** ** [measureToBeat] *)

Lemma measureToBeat_loop_spec beats n :
  forall i beat,
    (i + n <= length beats)%nat ->
    measureToBeat_loop beats i n beat
    = Some (fold_left Qplus (take n (drop i beats)) beat).
Proof.
  induction n as [| n IH]; intros i beat Hlen; simpl; [reflexivity |].
  destruct (lookup_lt_is_Some_2 beats i ltac:(lia)) as [b Hb].
  rewrite Hb. simpl. rewrite IH by lia.
  rewrite (drop_S _ _ _ Hb). reflexivity.
Qed.

Lemma measureToBeat_loop_none beats n :
  forall i beat,
    (i <= length beats < i + n)%nat -> measureToBeat_loop beats i n beat = None.
Proof.
  induction n as [| n IH]; intros i beat Hlen; simpl; [lia |].
  destruct (beats !! i) as [b |] eqn:Hb; simpl; [| reflexivity].
  apply lookup_lt_Some in Hb. apply IH. lia.
Qed.

(** X6.  [measureToBeat] is the sum of the beat lengths of the measures
    before [measure], the same value as the [std::accumulate] of
    [calcChip]; it is 0 for a measure that is not positive, and it reads
    past the array for a measure beyond its length. *)
Theorem measureToBeat_accumulate beats measure :
  (0 <= measure <= Z.of_nat (length beats) ->
   measureToBeat beats measure = Some (accumulate beats (Z.to_nat measure))) /\
  (measure <= 0 -> measureToBeat beats measure = Some 0%Q) /\
  (Z.of_nat (length beats) < measure -> measureToBeat beats measure = None).
Proof.
  unfold measureToBeat, accumulate. split; [| split].
  - intros Hm. rewrite measureToBeat_loop_spec by lia. reflexivity.
  - intros Hm. replace (Z.to_nat measure) with 0%nat by lia. reflexivity.
  - intros Hm. apply measureToBeat_loop_none. lia.
Qed.

Lemma measureToBeat_accumulate_witness :
  measureToBeat (BMS.beats demo_bms) 3
  = Some (accumulate (BMS.beats demo_bms) 3) /\
  (accumulate (BMS.beats demo_bms) 3 == 10)%Q.
Proof.
  split.
  - apply (proj1 (measureToBeat_accumulate (BMS.beats demo_bms) 3)).
    vm_compute. split; discriminate.
  - vm_compute. reflexivity.
Defined.

(** ** The timeline is continuous *)





(** ** The segment in force *)

Lemma StronglySorted_lookup_lt {A} (R : A -> A -> Prop) (l : list A) i j a b :
  StronglySorted R l -> (i < j)%nat -> l !! i = Some a -> l !! j = Some b -> R a b.
Proof.
  intros Hsorted. revert i j. induction Hsorted as [| x l Hl IH Hx]; intros i j Hij Ha Hb.
  - discriminate.
  - destruct j as [| j]; [lia |]. destruct i as [| i]; simpl in Ha, Hb.
    + injection Ha as <-. rewrite Forall_lookup in Hx. eapply Hx; eassumption.
    + apply (IH i j); [lia | assumption ..].
Qed.

(** X8.  When the time asked for is not before the segment under the
    cursor, [getSegment] stops on the segment in force: its time is at
    most the time asked for and the time of the next segment is later;
    in a timeline of ascending times every later segment is later
    too. *)
Theorem getSegment_in_force all segments time current j :
  all !! segments = Some current ->
  (Segment.time current <= time)%Q ->
  getSegment all segments time = Some j ->
  exists s next,
    all !! j = Some s /\ all !! S j = Some next /\
    (Segment.time s <= time)%Q /\ (time < Segment.time next)%Q /\
    (times_ascending all ->
     forall k later, (j < k)%nat -> all !! k = Some later ->
                     (time < Segment.time later)%Q).
Proof.
  intros Hcurrent Hle H. unfold getSegment in H.
  apply getSegment_from_spec in H. destruct H as (Hge & Hpassed & next & Hnext & Hlt).
  rewrite lookup_drop in Hnext.
  replace (S segments + (j - segments))%nat with (S j) in Hnext by lia.
  apply Qleb_false in Hlt.
  assert (Hs : exists s, all !! j = Some s /\ (Segment.time s <= time)%Q).
  { destruct (Nat.eq_dec j segments) as [-> | Hne]; [eauto |].
    destruct (lookup_lt_is_Some_2 all j) as [s Hs].
    { apply lookup_lt_Some in Hnext. lia. }
    exists s. split; [assumption |].
    apply Qleb_true. apply (Hpassed (j - S segments)%nat); [lia |].
    rewrite lookup_drop. replace (S segments + (j - S segments))%nat with j by lia.
    assumption. }
  destruct Hs as (s & Hs & Hstime).
  exists s, next. repeat split; try assumption.
  intros Hsorted k later Hk Hlater.
  destruct (Nat.eq_dec k (S j)) as [-> | Hne]; [congruence |].
  eapply Qlt_le_trans; [exact Hlt |].
  apply (StronglySorted_lookup_lt time_le all (S j) k); [assumption | lia | assumption ..].
Qed.

Lemma getSegment_in_force_witness :
  exists s next,
    BMS.segments demo_bms !! 3%nat = Some s /\
    BMS.segments demo_bms !! 4%nat = Some next /\
    (Segment.time s <= 5)%Q /\ (5 < Segment.time next)%Q /\
    (beat_at s 5 == 8)%Q.
Proof.
  destruct (getSegment_in_force (BMS.segments demo_bms) 0 5
              (Segment.mk 0 0 (120 # 60) 120) 3
              ltac:(reflexivity) ltac:(vm_compute; discriminate)
              ltac:(vm_compute; reflexivity))
    as (s & next & Hs & Hnext & Hle & Hlt & _).
  exists s, next. repeat split; try assumption.
  injection Hs as <-. vm_compute. reflexivity.
Defined.

(** ** Cursors only move forward *)

Lemma lanes_le_refl lanes : Forall2 lane_le lanes lanes.
Proof. induction lanes; constructor; [split; lia | assumption]. Qed.

Lemma lanes_le_trans l1 l2 l3 :
  Forall2 lane_le l1 l2 -> Forall2 lane_le l2 l3 -> Forall2 lane_le l1 l3.
Proof.
  intros H12. revert l3. induction H12 as [| a b l1 l2 [Hb He] _ IH]; intros l3 H23.
  - inversion H23. constructor.
  - inversion H23 as [| ? c ? l3' [Hb' He'] Hrest]; subst.
    constructor; [split; lia | apply IH; assumption].
Qed.

Lemma lanes_le_insert lanes i a b :
  lanes !! i = Some a -> lane_le a b -> Forall2 lane_le lanes (<[i := b]> lanes).
Proof.
  revert i. induction lanes as [| x lanes IH]; intros i Ha Hab; [discriminate |].
  destruct i as [| i]; simpl in *.
  - injection Ha as ->. constructor; [assumption | apply lanes_le_refl].
  - constructor; [split; lia | apply IH; assumption].
Qed.

Lemma cursors_le_refl p : cursors_le p p.
Proof. repeat split; try lia. apply lanes_le_refl. Qed.

Lemma cursors_le_trans p1 p2 p3 :
  cursors_le p1 p2 -> cursors_le p2 p3 -> cursors_le p1 p3.
Proof.
  intros (H1 & H2 & H3) (H1' & H2' & H3'). repeat split; try lia.
  eapply lanes_le_trans; eassumption.
Qed.

Lemma begin_incr_le i p p' : begin_incr i p = Some p' -> cursors_le p p'.
Proof.
  unfold begin_incr. intros H. apply bind_Some in H. destruct H as (lane & Hlane & H).
  injection H as <-. repeat split; simpl; try lia.
  apply lanes_le_insert with (1 := Hlane). split; simpl; lia.
Qed.

Lemma end_incr_le i p p' : end_incr i p = Some p' -> cursors_le p p'.
Proof.
  unfold end_incr. intros H. apply bind_Some in H. destruct H as (lane & Hlane & H).
  injection H as <-. repeat split; simpl; try lia.
  apply lanes_le_insert with (1 := Hlane). split; simpl; lia.
Qed.

Lemma set_judge_le i v p p' : set_judge i v p = Some p' -> cursors_le p p'.
Proof.
  unfold set_judge. intros H. invert_some.
  repeat split; simpl; try lia. apply lanes_le_refl.
Qed.

Lemma set_input_le i v p p' : set_input i v p = Some p' -> cursors_le p p'.
Proof.
  unfold set_input. intros H. invert_some.
  repeat split; simpl; try lia. apply lanes_le_refl.
Qed.

(** Chains the steps of a judgment into one comparison of cursors. *)
Ltac cursor_steps :=
  repeat match goal with
    | H : begin_incr _ _ = Some _ |- _ => apply begin_incr_le in H
    | H : end_incr _ _ = Some _ |- _ => apply end_incr_le in H
    | H : set_judge _ _ _ = Some _ |- _ => apply set_judge_le in H
    | H : set_input _ _ _ = Some _ |- _ => apply set_input_le in H
    end;
  simpl;
  repeat match goal with
    | H : cursors_le ?a ?b |- cursors_le ?a _ =>
        apply (cursors_le_trans _ _ _ H); clear H
    end;
  try apply cursors_le_refl.

Lemma judgeln_cursors bms i g g' :
  judgeln bms i g = Some g' -> cursors_le (Game.player g) (Game.player g').
Proof. unfold judgeln. intros H. invert_some; cursor_steps. Qed.

Lemma judge_cursors bms i g g' :
  judge bms i g = Some g' -> cursors_le (Game.player g) (Game.player g').
Proof.
  unfold judge. intros H. invert_some;
    try (eapply judgeln_cursors; eassumption); cursor_steps.
Qed.

Lemma handler_lanes_cursors bms input lanes g g' :
  handler_lanes bms input lanes g = Some g' ->
  cursors_le (Game.player g) (Game.player g').
Proof.
  revert g. induction lanes as [| i lanes IH]; intros g H; cbn [handler_lanes] in H.
  - injection H as <-. apply cursors_le_refl.
  - invert_some; [eauto |].
    match goal with H : judge _ _ _ = Some _ |- _ => apply judge_cursors in H end.
    cursor_steps.
Qed.

Lemma handler_cursors bms input g g' :
  handler bms input g = Some g' -> cursors_le (Game.player g) (Game.player g').
Proof.
  unfold handler. intros H.
  assert (Hshift : cursors_le (Game.player g) (Game.player (shift_inputs g))).
  { repeat split; simpl; try lia. apply lanes_le_refl. }
  fold (shift_inputs g) in H.
  invert_some; try exact Hshift.
  apply handler_lanes_cursors in H.
  eapply cursors_le_trans; [exact Hshift | exact H].
Qed.

Lemma update_lane_cursors bms padding i g g' :
  update_lane bms padding i g = Some g' ->
  cursors_le (Game.player g) (Game.player g').
Proof.
  unfold update_lane. intros H. invert_some;
    repeat match goal with
      | H : judge _ _ _ = Some _ |- _ => apply judge_cursors in H
      | H : judgeln _ _ _ = Some _ |- _ => apply judgeln_cursors in H
      end;
    cursor_steps.
Qed.

Lemma update_lanes_cursors bms padding lanes g g' :
  update_lanes bms padding lanes g = Some g' ->
  cursors_le (Game.player g) (Game.player g').
Proof.
  revert g. induction lanes as [| i lanes IH]; intros g H; cbn [update_lanes] in H.
  - injection H as <-. apply cursors_le_refl.
  - apply bind_Some in H. destruct H as (g1 & H1 & H).
    apply update_lane_cursors in H1. apply IH in H.
    eapply cursors_le_trans; eassumption.
Qed.

Lemma update_bgm_forward rest beat bgm played bgm' played' :
  update_bgm rest beat bgm played = Some (bgm', played') -> (bgm <= bgm')%nat.
Proof.
  revert bgm played. induction rest as [| chip rest IH]; intros bgm played H;
    cbn [update_bgm] in H; [discriminate |].
  destruct (Qleb (Chip.beat chip) beat).
  - apply bind_Some in H. destruct H as (p & _ & H). apply IH in H. lia.
  - injection H as <- <-. lia.
Qed.

Lemma gameOver_cursors g g' :
  gameOver g = Some g' -> cursors_le (Game.player g) (Game.player g').
Proof.
  unfold gameOver. intros H. invert_some.
  repeat split; simpl; try lia. apply lanes_le_refl.
Qed.

Lemma update_cursors bms frame g g' :
  update bms frame g = Some g' -> cursors_le (Game.player g) (Game.player g').
Proof.
  unfold update. intros H.
  apply bind_Some in H. destruct H as (cursor & Hcursor & H).
  apply bind_Some in H. destruct H as (segment & _ & H).
  apply bind_Some in H. destruct H as ([bgm played] & Hbgm & H).
  apply bind_Some in H. destruct H as (g1 & Hlanes & H).
  apply bind_Some in H. destruct H as (cue & _ & H).
  apply bind_Some in H. destruct H as (g2 & Hover & H).
  unfold getSegment in Hcursor. apply getSegment_from_spec in Hcursor.
  destruct Hcursor as (Hcursor & _).
  apply update_bgm_forward in Hbgm. simpl in Hbgm.
  apply update_lanes_cursors in Hlanes. simpl in Hlanes.
  assert (H01 : cursors_le (Game.player g) (Game.player g1)).
  { eapply cursors_le_trans; [| exact Hlanes].
    repeat split; simpl; try lia. apply lanes_le_refl. }
  assert (H12 : cursors_le (Game.player g1) (Game.player g2)).
  { destruct (Qleb INT_MAX (Chip.beat cue) && negb (playing frame)).
    - apply gameOver_cursors. assumption.
    - injection Hover as <-. apply cursors_le_refl. }
  assert (H23 : cursors_le (Game.player g2) (Game.player g')).
  { destruct (Qleb 15 _).
    - apply bind_Some in H. destruct H as (g3 & Hhandler & H). injection H as <-.
      apply handler_cursors in Hhandler. exact Hhandler.
    - injection H as <-. apply cursors_le_refl. }
  eauto using cursors_le_trans.
Qed.

(** X9.  No cursor is ever moved back: over any run of the play loop
    the segment cursor, the background-cue cursor and the [begin] and
    [end] of every lane are at or after where they were, whatever the
    clock and the keys. *)
Theorem play_loop_cursors bms frames g g' :
  play_loop bms frames g = Some g' ->
  cursors_le (Game.player g) (Game.player g').
Proof.
  revert g. induction frames as [| frame frames IH]; intros g H; cbn [play_loop] in H.
  - injection H as <-. apply cursors_le_refl.
  - destruct (negb (Player.quit (Game.player g) =? 0)).
    + injection H as <-. apply cursors_le_refl.
    + apply bind_Some in H. destruct H as (g1 & Hupdate & H).
      apply update_cursors in Hupdate. apply IH in H.
      eapply cursors_le_trans; eassumption.
Qed.

Lemma play_loop_cursors_witness :
  exists g',
    play_loop one_note_bms [mkFrame 500 true (-1); mkFrame 200 true 122]
              (start_game default_option one_note_bms) = Some g' /\
    Player.segments (Game.player g') = 1%nat /\
    Player.lanes (Game.player g') !! 1%nat = Some (Lane.mk 0 1) /\
    cursors_le (Game.player (start_game default_option one_note_bms)) (Game.player g').
Proof.
  eexists. split; [vm_compute; reflexivity |].
  split; [reflexivity |]. split; [reflexivity |].
  apply (play_loop_cursors one_note_bms [mkFrame 500 true (-1); mkFrame 200 true 122]).
  vm_compute. reflexivity.
Defined.

(** ** What every judgment keeps in the score *)

Section ScoreKept.

Variable P : Score.t -> Prop.

Hypothesis Pcalculate : forall s tier s', P s -> calculate s tier = Some s' -> P s'.
Hypothesis PcalcReset : forall s s', P s -> calcReset s = Some s' -> P s'.
Hypothesis PcomboCount : forall s s', P s -> comboCount s = Some s' -> P s'.
Hypothesis PscoreCount : forall s s', P s -> scoreCount s = Some s' -> P s'.

Lemma judgeln_keeps bms i g g' :
  P (Game.score g) -> judgeln bms i g = Some g' -> P (Game.score g').
Proof. unfold judgeln. intros HP H. invert_some; simpl; eauto. Qed.

Lemma judge_keeps bms i g g' :
  P (Game.score g) -> judge bms i g = Some g' -> P (Game.score g').
Proof.
  unfold judge. intros HP H. invert_some; simpl; eauto using judgeln_keeps.
Qed.

Lemma handler_lanes_keeps bms input lanes g g' :
  P (Game.score g) -> handler_lanes bms input lanes g = Some g' -> P (Game.score g').
Proof.
  revert g. induction lanes as [| i lanes IH]; intros g HP H; cbn [handler_lanes] in H.
  - injection H as <-. assumption.
  - invert_some; [eauto |].
    match goal with H : judge _ _ _ = Some _ |- _ =>
      apply judge_keeps in H; [exact H | exact HP] end.
Qed.

Lemma handler_keeps bms input g g' :
  P (Game.score g) -> handler bms input g = Some g' -> P (Game.score g').
Proof.
  unfold handler. intros HP H. fold (shift_inputs g) in H.
  invert_some; try exact HP.
  apply handler_lanes_keeps in H; [exact H | exact HP].
Qed.

Lemma update_lane_keeps bms padding i g g' :
  P (Game.score g) -> update_lane bms padding i g = Some g' -> P (Game.score g').
Proof.
  unfold update_lane. intros HP H.
  apply bind_Some in H. destruct H as (note & _ & H).
  apply bind_Some in H. destruct H as (g1 & H1 & H).
  apply bind_Some in H. destruct H as (last & _ & H).
  apply bind_Some in H. destruct H as (g2 & H2 & H).
  apply bind_Some in H. destruct H as (pending & _ & H).
  assert (HP1 : P (Game.score g1)).
  { match type of H1 with (if ?b then _ else _) = _ => destruct b end;
      [eapply judge_keeps; eassumption |].
    injection H1 as <-. assumption. }
  assert (HP2 : P (Game.score g2)).
  { match type of H2 with (if ?b then _ else _) = _ => destruct b end;
      [| injection H2 as <-; assumption].
    apply bind_Some in H2. destruct H2 as (p & _ & H2). injection H2 as <-.
    exact HP1. }
  destruct (negb (pending =? 0)); [eapply judgeln_keeps; eassumption |].
  injection H as <-. assumption.
Qed.

Lemma update_lanes_keeps bms padding lanes g g' :
  P (Game.score g) -> update_lanes bms padding lanes g = Some g' -> P (Game.score g').
Proof.
  revert g. induction lanes as [| i lanes IH]; intros g HP H; cbn [update_lanes] in H.
  - injection H as <-. assumption.
  - apply bind_Some in H. destruct H as (g1 & H1 & H).
    eapply IH; [| exact H]. eapply update_lane_keeps; eassumption.
Qed.

Lemma gameOver_keeps g g' :
  P (Game.score g) -> gameOver g = Some g' -> P (Game.score g').
Proof. unfold gameOver. intros HP H. invert_some. simpl. eauto. Qed.

Lemma update_keeps bms frame g g' :
  P (Game.score g) -> update bms frame g = Some g' -> P (Game.score g').
Proof.
  unfold update. intros HP H.
  apply bind_Some in H. destruct H as (cursor & _ & H).
  apply bind_Some in H. destruct H as (segment & _ & H).
  apply bind_Some in H. destruct H as ([bgm played] & _ & H).
  apply bind_Some in H. destruct H as (g1 & Hlanes & H).
  apply bind_Some in H. destruct H as (cue & _ & H).
  apply bind_Some in H. destruct H as (g2 & Hover & H).
  apply update_lanes_keeps in Hlanes; [| exact HP].
  assert (HP2 : P (Game.score g2)).
  { destruct (Qleb INT_MAX (Chip.beat cue) && negb (playing frame)).
    - eapply gameOver_keeps; eassumption.
    - injection Hover as <-. assumption. }
  match type of H with (if ?b then _ else _) = _ => destruct b end.
  - apply bind_Some in H. destruct H as (g3 & Hhandler & H). injection H as <-.
    simpl. eapply handler_keeps; eassumption.
  - injection H as <-. assumption.
Qed.

Lemma play_loop_keeps bms frames g g' :
  P (Game.score g) -> play_loop bms frames g = Some g' -> P (Game.score g').
Proof.
  revert g. induction frames as [| frame frames IH]; intros g HP H; cbn [play_loop] in H.
  - injection H as <-. assumption.
  - destruct (negb (Player.quit (Game.player g) =? 0)).
    + injection H as <-. assumption.
    + apply bind_Some in H. destruct H as (g1 & Hupdate & H).
      eapply IH; [| exact H]. eapply update_keeps; eassumption.
Qed.

End ScoreKept.

Lemma sum_insert (l : list Z) k j y :
  l !! k = Some j ->
  foldr Z.add 0 (<[k := y]> l) = foldr Z.add 0 l - j + y.
Proof.
  revert k. induction l as [| x l IH]; intros k Hk; [discriminate |].
  destruct k as [| k]; simpl in *.
  - injection Hk as ->. lia.
  - rewrite (IH k Hk). lia.
Qed.

Lemma incr_judge_tally k s s' :
  incr_judge k s = Some s' ->
  Int.wrap (foldr Z.add 0 (Score.judges s')) = Int.wrap (foldr Z.add 0 (Score.judges s) + 1) /\
  Score.totalJudges s' = Score.totalJudges s.
Proof.
  unfold incr_judge. intros H. apply bind_Some in H. destruct H as (j & Hj & H).
  injection H as <-. simpl. split; [| reflexivity].
  rewrite (sum_insert _ _ _ _ Hj). unfold Int.add.
  rewrite wrap_add_r. f_equal. lia.
Qed.

Lemma comboCount_tally s s' :
  comboCount s = Some s' ->
  Score.judges s' = Score.judges s /\ Score.totalJudges s' = Score.totalJudges s.
Proof.
  unfold comboCount, comboBonus. intros H. invert_some. simpl.
  destruct (Score.maxCombo s <? Score.combo s); auto.
Qed.

Lemma calculate_tally s tier s' : tally_ok s -> calculate s tier = Some s' -> tally_ok s'.
Proof.
  unfold tally_ok, calculate. intros Hs H. invert_some. simpl.
  match goal with H : incr_judge _ _ = Some _ |- _ =>
    apply incr_judge_tally in H; destruct H as [Hsum Htotal] end.
  rewrite Hsum, Htotal. unfold Int.add.
  rewrite <- wrap_add_l, Hs, wrap_add_l. symmetry. apply wrap_small, wrap_range.
Qed.

Lemma calcReset_tally s s' : tally_ok s -> calcReset s = Some s' -> tally_ok s'.
Proof.
  unfold tally_ok, calcReset. intros Hs H. invert_some. simpl.
  match goal with H : incr_judge _ _ = Some _ |- _ =>
    apply incr_judge_tally in H; destruct H as [Hsum Htotal] end.
  match goal with H : comboCount _ = Some _ |- _ =>
    apply comboCount_tally in H; destruct H as [Hj Ht] end.
  rewrite Hj, Ht, Hsum, Htotal. unfold Int.add.
  rewrite <- wrap_add_l, Hs, wrap_add_l. symmetry. apply wrap_small, wrap_range.
Qed.

Lemma scoreCount_tally s s' : tally_ok s -> scoreCount s = Some s' -> tally_ok s'.
Proof. unfold tally_ok, scoreCount. intros Hs H. invert_some. exact Hs. Qed.

(** X10.  Over any run of the play loop the four tier counters add up
    to [totalJudges] (as [int]s, and exactly when both fit): every
    judgment recorded lands in exactly one counter, and the resets and
    the final score leave the counters alone. *)
Theorem play_loop_tally bms frames g g' :
  tally_ok (Game.score g) ->
  play_loop bms frames g = Some g' ->
  tally_ok (Game.score g') /\
  (Int.in_range (foldr Z.add 0 (Score.judges (Game.score g'))) ->
   Int.in_range (Score.totalJudges (Game.score g')) ->
   foldr Z.add 0 (Score.judges (Game.score g')) = Score.totalJudges (Game.score g')).
Proof.
  intros Hs H.
  assert (Hs' : tally_ok (Game.score g')).
  { apply (play_loop_keeps tally_ok) with (5 := Hs) (6 := H).
    - exact calculate_tally.
    - exact calcReset_tally.
    - intros s s' Hok Hc. apply comboCount_tally in Hc. destruct Hc as [Hj Ht].
      unfold tally_ok. rewrite Hj, Ht. exact Hok.
    - exact scoreCount_tally. }
  split; [exact Hs' |].
  intros H1 H2. unfold tally_ok in Hs'. rewrite !wrap_small in Hs'; assumption.
Qed.

Lemma play_loop_tally_witness :
  exists g',
    play_loop one_note_bms [mkFrame 500 true 122]
              (start_game default_option one_note_bms) = Some g' /\
    Score.judges (Game.score g') = [1; 0; 0; 0] /\
    tally_ok (Game.score g') /\
    Score.totalJudges (Game.score g') = 1.
Proof.
  eexists. split; [vm_compute; reflexivity |].
  split; [reflexivity |].
  split; [| reflexivity].
  apply (play_loop_tally one_note_bms [mkFrame 500 true 122]
           (start_game default_option one_note_bms)); reflexivity.
Defined.

(** ** How long a key press is remembered *)

Lemma handler_lanes_unbound bms input lanes g :
  (forall i, i ∈ lanes ->
     exists k, keyBind (Option.keyBinds (Game.opt g)) i = Some k /\ k <> input) ->
  handler_lanes bms input lanes g = Some g.
Proof.
  induction lanes as [| i lanes IH]; intros Hnone; cbn [handler_lanes]; [reflexivity |].
  destruct (Hnone i) as (k & Hk & Hne); [left |].
  rewrite Hk. simpl. destruct (Z.eqb_spec input k); [congruence |]. simpl.
  apply IH. intros j Hj. apply Hnone. right. assumption.
Qed.

Lemma handler_idle bms input g :
  is_command_key input = false ->
  unbound_key (Option.keyBinds (Game.opt g)) input ->
  handler bms input g = Some (shift_inputs g).
Proof.
  intros Hkey Hunbound. unfold handler, is_command_key in *.
  cbv zeta. fold (shift_inputs g).
  change (Game.opt (shift_inputs g)) with (Game.opt g).
  apply orb_false_elim in Hkey. destruct Hkey as [Hkey H12].
  apply orb_false_elim in Hkey. destruct Hkey as [Hkey H113].
  apply orb_false_elim in Hkey. destruct Hkey as [H51 H52].
  rewrite H51, H52, H113, H12.
  destruct (negb (Option.autoPlay (Game.opt g) =? 0)); [reflexivity |].
  apply handler_lanes_unbound. intros i Hi. apply Hunbound.
  apply elem_of_seq in Hi. lia.
Qed.

Lemma shift_iter n x :
  Nat.iter n (fun x => Z.shiftl x 1 mod 4294967296) x
  = (x * 2 ^ Z.of_nat n) mod 4294967296 \/ (n = 0%nat).
Proof.
  destruct n as [| n]; [right; reflexivity |]. left.
  induction n as [| n IH].
  - simpl. rewrite Z.shiftl_mul_pow2 by lia. reflexivity.
  - change (Nat.iter (S (S n)) (fun x => Z.shiftl x 1 mod 4294967296) x)
      with (Z.shiftl (Nat.iter (S n) (fun x => Z.shiftl x 1 mod 4294967296) x) 1
            mod 4294967296).
    rewrite IH, Z.shiftl_mul_pow2 by lia.
    rewrite Zmult_mod_idemp_l. f_equal.
    rewrite (Nat2Z.inj_succ (S n)), Z.pow_succ_r by lia. ring.
Qed.

Lemma idle_polls_inputs n g :
  Player.inputs (Game.player (idle_polls n g))
  = map (Nat.iter n (fun x => Z.shiftl x 1 mod 4294967296))
        (Player.inputs (Game.player g)).
Proof.
  unfold idle_polls. induction n as [| n IH].
  - simpl. symmetry. apply map_id.
  - change (Nat.iter (S n) shift_inputs g) with (shift_inputs (Nat.iter n shift_inputs g)).
    unfold shift_inputs at 1. simpl Player.inputs. rewrite IH, map_map. reflexivity.
Qed.

Lemma odd_shift_nonzero x n :
  Z.odd x = true -> (n < 32)%nat -> (x * 2 ^ Z.of_nat n) mod 4294967296 <> 0.
Proof.
  intros Hodd Hn Hzero.
  apply Z.mod_divide in Hzero; [| lia]. destruct Hzero as [q Hq].
  change 4294967296 with (2 ^ 32) in Hq.
  replace 32 with (Z.of_nat n + (32 - Z.of_nat n)) in Hq by lia.
  rewrite Z.pow_add_r in Hq by lia.
  assert (Hpos : 0 < 2 ^ Z.of_nat n) by (apply Z.pow_pos_nonneg; lia).
  assert (Hx : x = q * 2 ^ (32 - Z.of_nat n)) by nia.
  replace (32 - Z.of_nat n) with (Z.succ (31 - Z.of_nat n)) in Hx by lia.
  rewrite Z.pow_succ_r in Hx by lia.
  rewrite Hx in Hodd.
  replace (q * (2 * 2 ^ (31 - Z.of_nat n))) with (2 * (q * 2 ^ (31 - Z.of_nat n))) in Hodd by ring.
  rewrite Z.odd_mul in Hodd. discriminate.
Qed.

(** X11.  A call of [handler] whose key is neither one of its own nor
    bound to a lane only shifts every input history by one.  After 32
    such calls every history is 0, whatever it was, so a long note being
    held is then judged a miss in manual mode; and a history whose key
    has just gone down (its low bit set) is still not 0 after fewer
    than 32 calls. *)
Theorem key_memory bms input g :
  is_command_key input = false ->
  unbound_key (Option.keyBinds (Game.opt g)) input ->
  handler bms input g = Some (idle_polls 1 g) /\
  Forall (fun x => x = 0) (Player.inputs (Game.player (idle_polls 32 g))) /\
  (forall n i x x',
      (n < 32)%nat ->
      Player.inputs (Game.player g) !! i = Some (Z.lor x 1) ->
      Player.inputs (Game.player (idle_polls n g)) !! i = Some x' ->
      x' <> 0).
Proof.
  intros Hkey Hunbound. split; [apply handler_idle; assumption |]. split.
  - rewrite idle_polls_inputs. apply Forall_forall. intros y Hy.
    apply list_elem_of_In, in_map_iff in Hy. destruct Hy as (x & <- & _).
    destruct (shift_iter 32 x) as [-> | E]; [| discriminate].
    change (2 ^ Z.of_nat 32) with 4294967296. apply Z_mod_mult.
  - intros n i x x' Hn Hx Hx'. rewrite idle_polls_inputs in Hx'.
    change (map ?f ?l) with (f <$> l) in Hx'.
    rewrite list_lookup_fmap, Hx in Hx'. simpl in Hx'. injection Hx' as <-.
    destruct (shift_iter n (Z.lor x 1)) as [-> | ->].
    + apply odd_shift_nonzero; [| assumption].
      rewrite <- Z.bit0_odd, Z.lor_spec. apply orb_true_r.
    + simpl. intros E.
      assert (Hbit : Z.testbit (Z.lor x 1) 0 = true)
        by (rewrite Z.lor_spec; apply orb_true_r).
      rewrite E in Hbit. discriminate.
Qed.

Lemma key_memory_witness :
  handler one_note_bms (-1) one_note_pressed = Some (idle_polls 1 one_note_pressed) /\
  Player.inputs (Game.player (idle_polls 1 one_note_pressed)) !! 1%nat = Some 2 /\
  Forall (fun x => x = 0) (Player.inputs (Game.player (idle_polls 32 one_note_pressed))).
Proof.
  destruct (key_memory one_note_bms (-1) one_note_pressed) as (Hidle & Hzero & _).
  - reflexivity.
  - intros i Hi. unfold LANES_COUNT in Hi.
    do 8 (destruct i as [| i]; [eexists; split; [reflexivity | discriminate] |]). lia.
  - split; [exact Hidle |]. split; [reflexivity | exact Hzero].
Defined.

(** ** Automatic play and the options during a session *)

(** X12.  In automatic play [handler] never judges: whatever key is
    read, the call returns, and the score, the lane cursors, the pending
    tiers and the samples played are as before; the input histories are
    only shifted. *)
Theorem handler_autoplay bms input g :
  Option.autoPlay (Game.opt g) <> 0 ->
  exists g',
    handler bms input g = Some g' /\
    Game.score g' = Game.score g /\
    Game.played g' = Game.played g /\
    Player.lanes (Game.player g') = Player.lanes (Game.player g) /\
    Player.judges (Game.player g') = Player.judges (Game.player g) /\
    Player.inputs (Game.player g') = Player.inputs (Game.player (shift_inputs g)).
Proof.
  intros Hauto. unfold handler. cbv zeta. fold (shift_inputs g).
  change (Game.opt (shift_inputs g)) with (Game.opt g).
  destruct (Z.eqb_spec (Option.autoPlay (Game.opt g)) 0) as [E | _]; [contradiction |].
  simpl negb.
  destruct (input =? 51); [eexists; split; [reflexivity |]; repeat split |].
  destruct (input =? 52); [eexists; split; [reflexivity |]; repeat split |].
  destruct (input =? 113); [eexists; split; [reflexivity |]; repeat split |].
  destruct (input =? 12); eexists; (split; [reflexivity |]); repeat split.
Qed.

Lemma handler_autoplay_witness :
  exists g',
    handler one_note_bms 97 (start_game auto_option one_note_bms) = Some g' /\
    Game.score g' = Score.zero.
Proof.
  destruct (handler_autoplay one_note_bms 97 (start_game auto_option one_note_bms))
    as (g' & Hhandler & Hscore & _).
  - discriminate.
  - exists g'. split; [exact Hhandler | exact Hscore].
Defined.

Section OptionKept.

Variable P : Option.t -> Prop.

Hypothesis Pslower : forall o,
  P o ->
  P (Option.set_speed (if Qltb (Option.speed o - 0.25) 1.00 then 1.00%Q
                       else (Option.speed o - 0.25)%Q) o).
Hypothesis Pfaster : forall o,
  P o ->
  P (Option.set_speed (if Qltb MAX_SPEED (Option.speed o + 0.25) then MAX_SPEED
                       else (Option.speed o + 0.25)%Q) o).

Lemma judgeln_opt bms i g g' : judgeln bms i g = Some g' -> Game.opt g' = Game.opt g.
Proof. unfold judgeln. intros H. invert_some; reflexivity. Qed.

Lemma judge_opt bms i g g' : judge bms i g = Some g' -> Game.opt g' = Game.opt g.
Proof.
  unfold judge. intros H. invert_some; try reflexivity.
  match goal with H : judgeln _ _ _ = Some _ |- _ => apply judgeln_opt in H; exact H end.
Qed.

Lemma handler_lanes_opt bms input lanes g g' :
  handler_lanes bms input lanes g = Some g' -> Game.opt g' = Game.opt g.
Proof.
  induction lanes as [| i lanes IH]; intros H; cbn [handler_lanes] in H.
  - injection H as <-. reflexivity.
  - invert_some; [eauto |].
    match goal with H : judge _ _ _ = Some _ |- _ => apply judge_opt in H; exact H end.
Qed.

Lemma handler_opt bms input g g' :
  P (Game.opt g) -> handler bms input g = Some g' -> P (Game.opt g').
Proof.
  unfold handler. intros HP H. fold (shift_inputs g) in H.
  change (Game.opt (shift_inputs g)) with (Game.opt g) in H.
  invert_some; simpl; try exact HP; try (apply Pslower; exact HP);
    try (apply Pfaster; exact HP).
  apply handler_lanes_opt in H. rewrite H. exact HP.
Qed.

Lemma update_lane_opt bms padding i g g' :
  update_lane bms padding i g = Some g' -> Game.opt g' = Game.opt g.
Proof.
  unfold update_lane. intros H.
  apply bind_Some in H. destruct H as (note & _ & H).
  apply bind_Some in H. destruct H as (g1 & H1 & H).
  apply bind_Some in H. destruct H as (last & _ & H).
  apply bind_Some in H. destruct H as (g2 & H2 & H).
  apply bind_Some in H. destruct H as (pending & _ & H).
  assert (E1 : Game.opt g1 = Game.opt g).
  { match type of H1 with (if ?b then _ else _) = _ => destruct b end;
      [eapply judge_opt; eassumption |].
    injection H1 as <-. reflexivity. }
  assert (E2 : Game.opt g2 = Game.opt g).
  { match type of H2 with (if ?b then _ else _) = _ => destruct b end;
      [| injection H2 as <-; assumption].
    apply bind_Some in H2. destruct H2 as (p & _ & H2). injection H2 as <-.
    exact E1. }
  destruct (negb (pending =? 0)).
  - apply judgeln_opt in H. congruence.
  - injection H as <-. assumption.
Qed.

Lemma update_lanes_opt bms padding lanes g g' :
  update_lanes bms padding lanes g = Some g' -> Game.opt g' = Game.opt g.
Proof.
  revert g. induction lanes as [| i lanes IH]; intros g H; cbn [update_lanes] in H.
  - injection H as <-. reflexivity.
  - apply bind_Some in H. destruct H as (g1 & H1 & H).
    apply IH in H. apply update_lane_opt in H1. congruence.
Qed.

Lemma update_opt bms frame g g' :
  P (Game.opt g) -> update bms frame g = Some g' -> P (Game.opt g').
Proof.
  unfold update. intros HP H.
  apply bind_Some in H. destruct H as (cursor & _ & H).
  apply bind_Some in H. destruct H as (segment & _ & H).
  apply bind_Some in H. destruct H as ([bgm played] & _ & H).
  apply bind_Some in H. destruct H as (g1 & Hlanes & H).
  apply bind_Some in H. destruct H as (cue & _ & H).
  apply bind_Some in H. destruct H as (g2 & Hover & H).
  apply update_lanes_opt in Hlanes. simpl in Hlanes.
  assert (E2 : Game.opt g2 = Game.opt g).
  { destruct (Qleb INT_MAX (Chip.beat cue) && negb (playing frame)).
    - unfold gameOver in Hover.
      apply bind_Some in Hover. destruct Hover as (s1 & _ & Hover).
      apply bind_Some in Hover. destruct Hover as (s2 & _ & Hover).
      injection Hover as <-. simpl. exact Hlanes.
    - injection Hover as <-. exact Hlanes. }
  match type of H with (if ?b then _ else _) = _ => destruct b end.
  - apply bind_Some in H. destruct H as (g3 & Hhandler & H). injection H as <-.
    simpl. eapply handler_opt; [| exact Hhandler]. rewrite E2. exact HP.
  - injection H as <-. rewrite E2. exact HP.
Qed.

Lemma play_loop_opt bms frames g g' :
  P (Game.opt g) -> play_loop bms frames g = Some g' -> P (Game.opt g').
Proof.
  revert g. induction frames as [| frame frames IH]; intros g HP H; cbn [play_loop] in H.
  - injection H as <-. assumption.
  - destruct (negb (Player.quit (Game.player g) =? 0)).
    + injection H as <-. assumption.
    + apply bind_Some in H. destruct H as (g1 & Hupdate & H).
      eapply IH; [| exact H]. eapply update_opt; eassumption.
Qed.

End OptionKept.

(** ** The display speed *)



(** ** Holding a long note *)

Lemma time_positive beats bpm :
  (0 < bpm)%Q -> Qltb 0 (beats * 60 / bpm) = true <-> (0 < beats)%Q.
Proof.
  intros Hbpm. unfold Qdiv.
  assert (Hinv : (0 < / bpm)%Q) by (apply Qinv_lt_0_compat; exact Hbpm).
  split.
  - intros H. Qbool. destruct (Qlt_le_dec 0 beats) as [| Hle]; [assumption |].
    exfalso.
    assert (Hneg : (0 <= (- beats) * 60 * / bpm)%Q)
      by (apply Qmult_le_0_compat; lra).
    set (d := (/ bpm)%Q) in *. clearbody d.
    assert (E : ((- beats) * 60 * d == - (beats * 60 * d))%Q) by ring.
    rewrite E in Hneg. lra.
  - intros H. Qbool.
    apply Qmult_lt_0_compat; [lra | exact Hinv].
Qed.

Lemma holding_test o inp :
  holding o inp -> (Option.autoPlay o =? 0) && (inp =? 0) = false.
Proof.
  intros [Hauto | Hinp].
  - destruct (Z.eqb_spec (Option.autoPlay o) 0); [contradiction | reflexivity].
  - destruct (Z.eqb_spec inp 0); [contradiction | apply andb_false_r].
Qed.

(** X14.  While a long note is held (automatic play, or an input
    history that is not 0) and the tempo is positive, [judgeln] leaves
    the game as it is as long as the beat is before the end [beat2] of
    the note.  From that beat on it records the tier of the press, clears
    the input history and the pending tier of the lane and moves the
    lane to its next note, and plays no sample. *)
Theorem judgeln_hold bms index g inp note :
  (0 < Player.bpm (Game.player g))%Q ->
  Player.inputs (Game.player g) !! index = Some inp ->
  holding (Game.opt g) inp ->
  begin_chip bms (Game.player g) index = Some note ->
  ((Player.beat (Game.player g) < Chip.beat2 note)%Q -> judgeln bms index g = Some g) /\
  ((Chip.beat2 note <= Player.beat (Game.player g))%Q ->
   forall g', judgeln bms index g = Some g' ->
     Game.played g' = Game.played g /\
     Player.judges (Game.player g') !! index = Some 0 /\
     Player.inputs (Game.player g') !! index = Some 0 /\
     (exists lane,
         Player.lanes (Game.player g) !! index = Some lane /\
         Player.lanes (Game.player g') !! index
         = Some (Lane.mk (S (Lane.begin lane)) (Lane.end_ lane))) /\
     (exists pending,
         Player.judges (Game.player g) !! index = Some pending /\
         calculate (Game.score g) pending = Some (Game.score g'))).
Proof.
  intros Hbpm Hinp Hheld Hnote.
  unfold judgeln. cbv zeta. rewrite Hinp. simpl.
  rewrite (holding_test _ _ Hheld), Hnote. simpl.
  split.
  - intros Hbefore.
    assert (Hpos : Qltb 0 ((Chip.beat2 note - Player.beat (Game.player g)) * 60
                           / Player.bpm (Game.player g)) = true)
      by (apply time_positive; [assumption | lra]).
    rewrite Hpos. reflexivity.
  - intros Hafter g' H.
    destruct (Qltb 0 ((Chip.beat2 note - Player.beat (Game.player g)) * 60
                      / Player.bpm (Game.player g))) eqn:Hpos.
    { apply time_positive in Hpos; [lra | assumption]. }
    apply bind_Some in H. destruct H as (pending & Hpending & H).
    apply bind_Some in H. destruct H as (score & Hscore & H).
    apply bind_Some in H. destruct H as (p1 & H1 & H).
    apply bind_Some in H. destruct H as (p2 & H2 & H).
    apply bind_Some in H. destruct H as (p3 & H3 & H).
    injection H as <-.
    unfold set_input in H1. rewrite Hinp in H1. simpl in H1. injection H1 as <-.
    unfold set_judge in H2. simpl in H2. rewrite Hpending in H2. simpl in H2.
    injection H2 as <-.
    unfold begin_incr in H3. simpl in H3.
    apply bind_Some in H3. destruct H3 as (lane & Hlane & H3). injection H3 as <-.
    simpl. split; [reflexivity |].
    split; [apply list_lookup_insert_eq; eapply lookup_lt_Some; eassumption |].
    split; [apply list_lookup_insert_eq; eapply lookup_lt_Some; eassumption |].
    split.
    + exists lane. split; [assumption |].
      apply list_lookup_insert_eq. eapply lookup_lt_Some; eassumption.
    + exists pending. split; assumption.
Qed.

Lemma judgeln_hold_witness :
  Player.judges (Game.player long_held) !! 1%nat = Some 1 /\
  judgeln long_bms 1 long_held = Some long_held.
Proof.
  split; [reflexivity |].
  apply (proj1 (judgeln_hold long_bms 1 long_held 1
                  (Chip.mk (0 # 4) (12 # 4) 10)
                  ltac:(reflexivity) ltac:(reflexivity)
                  ltac:(right; discriminate) ltac:(vm_compute; reflexivity))).
  reflexivity.
Defined.

(** ** Binding a sample *)

Lemma replace_backslash_app a b :
  replace_backslash (a ++ b) = (replace_backslash a ++ replace_backslash b)%string.
Proof. induction a as [| c a IH]; simpl; [reflexivity |]. rewrite IH. reflexivity. Qed.

Lemma replace_backslash_length a : String.length (replace_backslash a) = String.length a.
Proof. induction a as [| c a IH]; simpl; [reflexivity |]. rewrite IH. reflexivity. Qed.

Lemma replace_backslash_get a n : String.get n (replace_backslash a) <> Some "\"%char.
Proof.
  revert n. induction a as [| c a IH]; intros n; simpl; [discriminate |].
  destruct n as [| n]; [| apply IH].
  destruct (Ascii.eqb_spec c "\"%char) as [-> | Hne]; [discriminate |].
  intros E. injection E as E. contradiction.
Qed.

Lemma find_last_of_dot_replace a :
  find_last_of_dot (replace_backslash a) = find_last_of_dot a.
Proof.
  induction a as [| c a IH]; simpl; [reflexivity |]. rewrite IH.
  destruct (find_last_of_dot a); [reflexivity |].
  destruct (Ascii.eqb_spec c "\"%char) as [-> | _]; reflexivity.
Qed.

Lemma find_last_of_dot_app stem ext :
  find_last_of_dot ext = None ->
  find_last_of_dot (stem ++ String "." ext) = Some (String.length stem).
Proof.
  intros Hext. induction stem as [| c stem IH]; simpl.
  - rewrite Hext. reflexivity.
  - rewrite IH. reflexivity.
Qed.

Lemma substring_prefix a b : substring 0 (String.length a) (a ++ b) = a.
Proof.
  induction a as [| c a IH]; simpl.
  - destruct b; reflexivity.
  - rewrite IH. reflexivity.
Qed.

Lemma substring_get n m s k c :
  String.get k (substring n m s) = Some c -> String.get (n + k) s = Some c.
Proof.
  revert n m k. induction s as [| a s IH]; intros n m k H.
  - destruct n, m; simpl in H; destruct k; discriminate.
  - destruct n as [| n].
    + destruct m as [| m]; simpl in H; [destruct k; discriminate |].
      destruct k as [| k]; [exact H |]. simpl. apply (IH 0%nat m k). exact H.
    + simpl in H. simpl. apply (IH n m k). exact H.
Qed.

Lemma chunk_stem_extension stem ext :
  find_last_of_dot ext = None ->
  chunk_stem (stem ++ String "." ext) = replace_backslash stem.
Proof.
  intros Hext. unfold chunk_stem.
  rewrite find_last_of_dot_replace, (find_last_of_dot_app _ _ Hext).
  rewrite replace_backslash_app, <- (replace_backslash_length stem).
  apply substring_prefix.
Qed.

Lemma load_first_file load basePath stem :
  load_first load basePath stem [".ogg"; ".wav"]%string = chunk_file load basePath stem.
Proof. reflexivity. Qed.

(** X15.  [bindChunkTable] on a path [stem.ext], [ext] holding no dot:
    the slot of the key is bound to the file named by the base path, the
    stem with every backslash turned into a slash, and [.ogg] if that
    file loads, else [.wav] if that one loads, and is emptied if neither
    does; the extension written in the chart is not looked at.  No other
    slot changes, and the stem looked for holds no backslash. *)
Theorem bindChunkTable_file load chunkTable index stem ext basePath k :
  stoi index 36 = Some k ->
  (Z.to_nat k < length chunkTable)%nat ->
  find_last_of_dot ext = None ->
  bindChunkTable load chunkTable index (stem ++ String "." ext) basePath
  = Some (<[Z.to_nat k := chunk_file load basePath (replace_backslash stem)]> chunkTable) /\
  (forall n path, String.get n (chunk_stem path) <> Some "\"%char).
Proof.
  intros Hkey Hslot Hext. split.
  - unfold bindChunkTable. rewrite Hkey. simpl.
    destruct (lookup_lt_is_Some_2 chunkTable (Z.to_nat k) Hslot) as [old Hold].
    rewrite Hold. simpl.
    rewrite (chunk_stem_extension _ _ Hext). reflexivity.
  - intros n path. unfold chunk_stem.
    destruct (find_last_of_dot (replace_backslash path)) as [pos |];
      [| apply replace_backslash_get].
    intros E. apply substring_get in E. revert E. apply replace_backslash_get.
Qed.

Lemma bindChunkTable_file_witness :
  bindChunkTable (one_file "songs/drums/kick.v2.wav") (replicate 1296 None)
                 "0A" "drums\kick.v2.mp3" "songs/"
  = Some (<[10%nat := Some "songs/drums/kick.v2.wav"%string]> (replicate 1296 None)).
Proof.
  exact (proj1 (bindChunkTable_file (one_file "songs/drums/kick.v2.wav")
                  (replicate 1296 None) "0A" "drums\kick.v2" "mp3" "songs/" 10
                  ltac:(reflexivity) ltac:(vm_compute; lia) ltac:(reflexivity))).
Defined.

(** ** Keys *)

Lemma digit_of_capital a : digit_of (capital a) = digit_of a.
Proof. destruct a as [[] [] [] [] [] [] [] []]; vm_compute; reflexivity. Qed.

Lemma stoi_digits_capitals base acc s :
  stoi_digits base acc (capitals s) = stoi_digits base acc s.
Proof.
  revert acc. induction s as [| a s IH]; intros acc; simpl; [reflexivity |].
  rewrite digit_of_capital. destruct (digit_of a) as [d |]; [| reflexivity].
  destruct (d <? base); [apply IH | reflexivity].
Qed.

Lemma stoi_capitals s base : stoi (capitals s) base = stoi s base.
Proof.
  destruct s as [| a s]; simpl; [reflexivity |].
  rewrite digit_of_capital. destruct (digit_of a) as [d |]; [| reflexivity].
  simpl. rewrite stoi_digits_capitals. reflexivity.
Qed.

Lemma capital_zero a : Ascii.eqb (capital a) "0" = Ascii.eqb a "0".
Proof. destruct a as [[] [] [] [] [] [] [] []]; vm_compute; reflexivity. Qed.

Lemma capitals_rest s : String.eqb (capitals s) "00" = String.eqb s "00".
Proof.
  destruct s as [| a [| b [| c s]]]; simpl; try reflexivity.
  - rewrite capital_zero. reflexivity.
  - rewrite !capital_zero. reflexivity.
  - rewrite !capital_zero. reflexivity.
Qed.

(** X17.  Outside the note channels [calcChip] does not tell a
    lower-case letter of a token from its capital: on the channels 01,
    03, 08 and 09 and on the long-note channels a token written in
    either case gives the same chips and the same count, and throws in
    one case exactly when it throws in the other. *)
Theorem calcChip_token_capitals bms measure notation notation' channel length
    init_beat c st :
  is_note_channel channel = false ->
  token notation' c = capitals (token notation c) ->
  calcChip_token bms measure notation' channel length init_beat c st
  = calcChip_token bms measure notation channel length init_beat c st.
Proof.
  intros Hchannel Htoken. destruct st as [[i0 chips] total].
  unfold calcChip_token. rewrite Htoken, Hchannel.
  generalize (token notation c). intros str.
  rewrite capitals_rest, !stoi_capitals. reflexivity.
Qed.

Lemma calcChip_token_capitals_witness :
  calcChip_token (parseBMS_init BMS.zero) 0 "0a" 1 1 0 0 (0%nat, [sentinel], 0)
  = calcChip_token (parseBMS_init BMS.zero) 0 "0A" 1 1 0 0 (0%nat, [sentinel], 0).
Proof.
  symmetry.
  apply (calcChip_token_capitals (parseBMS_init BMS.zero) 0 "0a" "0A" 1 1 0 0
           (0%nat, [sentinel], 0)); reflexivity.
Defined.

(** ** One judgment for each note passed *)

Lemma begins_insert lanes k lane lane' :
  lanes !! k = Some lane ->
  begins (<[k := lane']> lanes)
  = begins lanes - Z.of_nat (Lane.begin lane) + Z.of_nat (Lane.begin lane').
Proof.
  revert k. induction lanes as [| x lanes IH]; intros k Hk; [discriminate |].
  destruct k as [| k]; simpl in *.
  - injection Hk as ->. lia.
  - rewrite (IH k Hk). lia.
Qed.

Lemma calculate_total s tier s' :
  calculate s tier = Some s' -> Score.totalJudges s' = Int.add (Score.totalJudges s) 1.
Proof.
  unfold calculate. intros H. destruct (tier <? 1); [discriminate |].
  apply bind_Some in H. destruct H as (s1 & H1 & H). injection H as <-. simpl.
  apply incr_judge_tally in H1. destruct H1 as [_ ->]. reflexivity.
Qed.

Lemma calcReset_total s s' :
  calcReset s = Some s' -> Score.totalJudges s' = Int.add (Score.totalJudges s) 1.
Proof.
  unfold calcReset. intros H.
  apply bind_Some in H. destruct H as (s1 & H1 & H).
  apply bind_Some in H. destruct H as (s2 & H2 & H). injection H as <-. simpl.
  apply incr_judge_tally in H1. destruct H1 as [_ H1].
  apply comboCount_tally in H2. destruct H2 as [_ H2]. congruence.
Qed.

Lemma begin_incr_begins i p p' :
  begin_incr i p = Some p' ->
  begins (Player.lanes p') = begins (Player.lanes p) + 1.
Proof.
  unfold begin_incr. intros H.
  apply bind_Some in H. destruct H as (lane & Hlane & H). injection H as <-. simpl.
  rewrite (begins_insert _ _ _ _ Hlane). simpl. lia.
Qed.

Lemma end_incr_begins i p p' :
  end_incr i p = Some p' -> begins (Player.lanes p') = begins (Player.lanes p).
Proof.
  unfold end_incr. intros H.
  apply bind_Some in H. destruct H as (lane & Hlane & H). injection H as <-. simpl.
  rewrite (begins_insert _ _ _ _ Hlane). simpl. lia.
Qed.

Lemma set_judge_lanes i v p p' :
  set_judge i v p = Some p' -> Player.lanes p' = Player.lanes p.
Proof.
  unfold set_judge. intros H.
  apply bind_Some in H. destruct H as (x & _ & H). injection H as <-. reflexivity.
Qed.

Lemma set_input_lanes i v p p' :
  set_input i v p = Some p' -> Player.lanes p' = Player.lanes p.
Proof.
  unfold set_input. intros H.
  apply bind_Some in H. destruct H as (x & _ & H). injection H as <-. reflexivity.
Qed.

Lemma judged_step total begins0 total' begins' :
  total = Int.wrap begins0 ->
  total' = Int.add total 1 ->
  begins' = begins0 + 1 ->
  total' = Int.wrap begins'.
Proof. intros -> -> ->. unfold Int.add. apply wrap_add_l. Qed.

Lemma judgeln_judged bms i g g' :
  judged_ok g -> judgeln bms i g = Some g' -> judged_ok g'.
Proof.
  unfold judged_ok, judgeln. intros Hok H.
  apply bind_Some in H. destruct H as (inp & _ & H).
  match type of H with (if ?b then _ else _) = _ => destruct b end.
  - apply bind_Some in H. destruct H as (score & Hscore & H).
    apply bind_Some in H. destruct H as (p1 & H1 & H).
    apply bind_Some in H. destruct H as (p2 & H2 & H). injection H as <-. simpl.
    apply calcReset_total in Hscore. apply set_judge_lanes in H1.
    apply begin_incr_begins in H2. rewrite H1 in H2.
    exact (judged_step _ _ _ _ Hok Hscore H2).
  - apply bind_Some in H. destruct H as (note & _ & H).
    match type of H with (if ?b then _ else _) = _ => destruct b end.
    { injection H as <-. exact Hok. }
    apply bind_Some in H. destruct H as (pending & _ & H).
    apply bind_Some in H. destruct H as (score & Hscore & H).
    apply bind_Some in H. destruct H as (p1 & H1 & H).
    apply bind_Some in H. destruct H as (p2 & H2 & H).
    apply bind_Some in H. destruct H as (p3 & H3 & H). injection H as <-. simpl.
    apply calculate_total in Hscore. apply set_input_lanes in H1.
    apply set_judge_lanes in H2. apply begin_incr_begins in H3.
    rewrite H2, H1 in H3.
    exact (judged_step _ _ _ _ Hok Hscore H3).
Qed.

Lemma judge_judged bms i g g' :
  judged_ok g -> judge bms i g = Some g' -> judged_ok g'.
Proof.
  unfold judge. intros Hok H.
  apply bind_Some in H. destruct H as (pending & _ & H).
  destruct (negb (pending =? 0)); [eapply judgeln_judged; eassumption |].
  apply bind_Some in H. destruct H as (note & _ & H).
  match type of H with (if ?b then _ else _) = _ => destruct b end.
  { injection H as <-. exact Hok. }
  unfold judged_ok in *.
  match type of H with (if ?b then _ else _) = _ => destruct b end.
  - apply bind_Some in H. destruct H as (score & Hscore & H).
    apply bind_Some in H. destruct H as (p1 & H1 & H). injection H as <-. simpl.
    apply calcReset_total in Hscore. apply begin_incr_begins in H1.
    exact (judged_step _ _ _ _ Hok Hscore H1).
  - apply bind_Some in H. destruct H as (played & _ & H). cbv zeta in H.
    match type of H with match ?c with _ => _ end = _ => destruct c as [tier |] end;
      [| injection H as <-; exact Hok].
    match type of H with (if ?b then _ else _) = _ => destruct b end.
    + apply bind_Some in H. destruct H as (p1 & H1 & H). injection H as <-. simpl.
      apply set_judge_lanes in H1. rewrite H1. exact Hok.
    + apply bind_Some in H. destruct H as (score & Hscore & H).
      apply bind_Some in H. destruct H as (p1 & H1 & H). injection H as <-. simpl.
      apply calculate_total in Hscore. apply begin_incr_begins in H1. simpl in Hscore.
      exact (judged_step _ _ _ _ Hok Hscore H1).
Qed.

Lemma handler_lanes_judged bms input lanes g g' :
  judged_ok g -> handler_lanes bms input lanes g = Some g' -> judged_ok g'.
Proof.
  induction lanes as [| i lanes IH]; intros Hok H; cbn [handler_lanes] in H.
  - injection H as <-. assumption.
  - apply bind_Some in H. destruct H as (k & _ & H).
    destruct (negb (input =? k)); [eauto |].
    apply bind_Some in H. destruct H as (inp & _ & H).
    apply bind_Some in H. destruct H as (p1 & H1 & H).
    eapply judge_judged; [| exact H].
    unfold judged_ok in *. simpl. apply set_input_lanes in H1. rewrite H1. exact Hok.
Qed.

Lemma handler_judged bms input g g' :
  judged_ok g -> handler bms input g = Some g' -> judged_ok g'.
Proof.
  unfold handler. intros Hok H. fold (shift_inputs g) in H.
  assert (Hshift : judged_ok (shift_inputs g)) by exact Hok.
  cbv zeta in H.
  destruct (input =? 51); [injection H as <-; exact Hok |].
  destruct (input =? 52); [injection H as <-; exact Hok |].
  destruct (input =? 113); [injection H as <-; exact Hok |].
  destruct (input =? 12); [injection H as <-; exact Hok |].
  match type of H with (if ?b then _ else _) = _ => destruct b end;
    [injection H as <-; exact Hok |].
  eapply handler_lanes_judged; eassumption.
Qed.

Lemma update_lane_judged bms padding i g g' :
  judged_ok g -> update_lane bms padding i g = Some g' -> judged_ok g'.
Proof.
  unfold update_lane. intros Hok H.
  apply bind_Some in H. destruct H as (note & _ & H).
  apply bind_Some in H. destruct H as (g1 & H1 & H).
  apply bind_Some in H. destruct H as (last & _ & H).
  apply bind_Some in H. destruct H as (g2 & H2 & H).
  apply bind_Some in H. destruct H as (pending & _ & H).
  assert (Hok1 : judged_ok g1).
  { match type of H1 with (if ?b then _ else _) = _ => destruct b end;
      [eapply judge_judged; eassumption |].
    injection H1 as <-. assumption. }
  assert (Hok2 : judged_ok g2).
  { match type of H2 with (if ?b then _ else _) = _ => destruct b end;
      [| injection H2 as <-; assumption].
    apply bind_Some in H2. destruct H2 as (p & Hp & H2). injection H2 as <-.
    unfold judged_ok in *. simpl. apply end_incr_begins in Hp. rewrite Hp. exact Hok1. }
  destruct (negb (pending =? 0)); [eapply judgeln_judged; eassumption |].
  injection H as <-. assumption.
Qed.

Lemma update_lanes_judged bms padding lanes g g' :
  judged_ok g -> update_lanes bms padding lanes g = Some g' -> judged_ok g'.
Proof.
  revert g. induction lanes as [| i lanes IH]; intros g Hok H; cbn [update_lanes] in H.
  - injection H as <-. assumption.
  - apply bind_Some in H. destruct H as (g1 & H1 & H).
    eapply IH; [| exact H]. eapply update_lane_judged; eassumption.
Qed.

Lemma gameOver_judged g g' : judged_ok g -> gameOver g = Some g' -> judged_ok g'.
Proof.
  unfold gameOver, judged_ok. intros Hok H.
  apply bind_Some in H. destruct H as (s1 & H1 & H).
  apply bind_Some in H. destruct H as (s2 & H2 & H). injection H as <-. simpl.
  apply comboCount_tally in H1. destruct H1 as [_ H1].
  assert (E : Score.totalJudges s2 = Score.totalJudges s1).
  { unfold scoreCount in H2. invert_some. reflexivity. }
  congruence.
Qed.

Lemma update_judged bms frame g g' :
  judged_ok g -> update bms frame g = Some g' -> judged_ok g'.
Proof.
  unfold update. intros Hok H.
  apply bind_Some in H. destruct H as (cursor & _ & H).
  apply bind_Some in H. destruct H as (segment & _ & H).
  apply bind_Some in H. destruct H as ([bgm played] & _ & H).
  apply bind_Some in H. destruct H as (g1 & Hlanes & H).
  apply bind_Some in H. destruct H as (cue & _ & H).
  apply bind_Some in H. destruct H as (g2 & Hover & H).
  apply update_lanes_judged in Hlanes; [| exact Hok].
  assert (Hok2 : judged_ok g2).
  { destruct (Qleb INT_MAX (Chip.beat cue) && negb (playing frame)).
    - eapply gameOver_judged; eassumption.
    - injection Hover as <-. assumption. }
  match type of H with (if ?b then _ else _) = _ => destruct b end.
  - apply bind_Some in H. destruct H as (g3 & Hhandler & H). injection H as <-.
    apply handler_judged in Hhandler; [exact Hhandler | exact Hok2].
  - injection H as <-. assumption.
Qed.

Lemma play_loop_judged bms frames g g' :
  judged_ok g -> play_loop bms frames g = Some g' -> judged_ok g'.
Proof.
  revert g. induction frames as [| frame frames IH]; intros g Hok H; cbn [play_loop] in H.
  - injection H as <-. assumption.
  - destruct (negb (Player.quit (Game.player g) =? 0)).
    + injection H as <-. assumption.
    + apply bind_Some in H. destruct H as (g1 & Hupdate & H).
      eapply IH; [| exact H]. eapply update_judged; eassumption.
Qed.

(** X18.  Through a whole session, from [newGame] on, [totalJudges] is
    the number of notes the lanes have gone past (the sum of their
    [begin] cursors, as an [int]): a judgment is recorded exactly when a
    lane moves to its next note, a press that opens a long note records
    none before the note ends, and the final score adds none. *)
Theorem session_judged bms opt start frames g' :
  play bms start frames (start_game opt bms) = Some g' ->
  judged_ok g' /\
  Score.totalNotes (Game.score g') = BMS.totalNotes bms.
Proof.
  unfold play. intros H. split.
  - apply play_loop_judged in H; [exact H |]. reflexivity.
  - apply (play_loop_keeps (fun s => Score.totalNotes s = BMS.totalNotes bms)) in H.
    + exact H.
    + intros s tier s' Hs Hc. unfold calculate in Hc. destruct (tier <? 1); [discriminate |].
      apply bind_Some in Hc. destruct Hc as (s1 & H1 & Hc). injection Hc as <-.
      unfold incr_judge in H1. apply bind_Some in H1. destruct H1 as (j & _ & H1).
      injection H1 as <-. exact Hs.
    + intros s s' Hs Hc. unfold calcReset, comboCount, comboBonus, incr_judge in Hc.
      invert_some; simpl; destruct (Score.maxCombo s <? Score.combo s); exact Hs.
    + intros s s' Hs Hc. unfold comboCount, comboBonus in Hc.
      invert_some; simpl; destruct (Score.maxCombo s <? Score.combo s); exact Hs.
    + intros s s' Hs Hc. unfold scoreCount in Hc. invert_some. exact Hs.
    + reflexivity.
Qed.

Lemma session_judged_witness :
  exists g',
    play one_note_bms 0 [mkFrame 500 true 122] (start_game default_option one_note_bms)
    = Some g' /\
    Score.totalJudges (Game.score g') = 1 /\
    judged_ok g' /\
    Score.totalNotes (Game.score g') = BMS.totalNotes one_note_bms.
Proof.
  eexists. split; [vm_compute; reflexivity |].
  split; [reflexivity |].
  apply (session_judged one_note_bms default_option 0 [mkFrame 500 true 122]).
  vm_compute; reflexivity.
Defined.

(** ** Rests *)

Lemma calcChip_loop_rests bms measure notation channel length init_beat cs st :
  (forall c, c ∈ cs -> token notation c = "00"%string) ->
  calcChip_loop bms measure notation channel length init_beat cs st = Some st.
Proof.
  induction cs as [| c cs IH]; intros Hrests; cbn [calcChip_loop]; [reflexivity |].
  assert (Hc : calcChip_token bms measure notation channel length init_beat c st = Some st).
  { unfold calcChip_token. destruct st as [[i0 chips] total].
    rewrite (Hrests c) by left. reflexivity. }
  rewrite Hc. simpl. apply IH. intros c' Hc'. apply Hrests. right. assumption.
Qed.

(** X19.  A notation of rests only (every token is 00) changes nothing
    and never throws, on any channel, whatever the measure and even on a
    sequence without a chip: [calcChip] returns the sequence and the
    note count as they were. *)
Theorem calcChip_rests chips measure notation bms channel :
  (forall c, (c < String.length notation / 2)%nat -> token notation c = "00"%string) ->
  calcChip chips measure notation bms channel = Some (chips, BMS.totalNotes bms).
Proof.
  intros Hrests. unfold calcChip. cbv zeta.
  rewrite calcChip_loop_rests; [reflexivity |].
  intros c Hc. apply Hrests. apply elem_of_seq in Hc. lia.
Qed.

Lemma calcChip_rests_witness :
  calcChip [] 999 "000000" BMS.zero 11 = Some ([], 0).
Proof.
  apply (calcChip_rests [] 999 "000000" BMS.zero 11).
  intros c Hc. change (String.length "000000" / 2)%nat with 3%nat in Hc.
  do 3 (destruct c as [| c]; [reflexivity |]). lia.
Defined.

(** ** Rows on the screen *)

Lemma to_int_exact q z : Int.in_range z -> (q == inject_Z z)%Q -> to_int q = z.
Proof.
  intros Hz Hq. unfold to_int.
  unfold Qeq in Hq. simpl in Hq. rewrite Z.mul_1_r in Hq. rewrite Hq.
  rewrite Z.quot_mul by discriminate. apply wrap_small. assumption.
Qed.

(** X20.  The row [getPos] gives on a screen of [h] rows: a note at the
    beat of the player is on row [h], and with a positive speed one that
    is [LIFETIME_BEATS / speed] beats ahead is on row 0, so that the
    rows show [LIFETIME_BEATS / speed] beats. *)
Theorem getPos_rows player opt h :
  Int.in_range h ->
  (0 < Option.speed opt)%Q ->
  getPos player opt (Player.beat player) h = h /\
  getPos player opt (Player.beat player + LIFETIME_BEATS / Option.speed opt) h = 0.
Proof.
  intros Hh Hspeed. unfold getPos, LIFETIME_BEATS. split.
  - apply to_int_exact; [assumption |]. field.
  - apply (to_int_exact _ 0); [unfold Int.in_range, Int.min, Int.max; lia |].
    field. intros E. rewrite E in Hspeed. apply (Qlt_irrefl 0). exact Hspeed.
Qed.

Lemma getPos_rows_witness :
  getPos (newGame BMS.zero) default_option 0 24 = 24 /\
  getPos (newGame BMS.zero) default_option (0 + 5 / 1.00) 24 = 0.
Proof.
  apply (getPos_rows (newGame BMS.zero) default_option 24).
  - unfold Int.in_range, Int.min, Int.max. lia.
  - reflexivity.
Defined.

(** ** The score line *)

(** X21.  A session started in automatic play prints no score,
    whatever happens in it and also when the chart is played to its end:
    the mode cannot change during the session, and [printScore] returns
    at once in that mode. *)
Theorem autoplay_prints_nothing bms opt start frames g' :
  Option.autoPlay opt <> 0 ->
  play bms start frames (start_game opt bms) = Some g' ->
  printScore g' = None.
Proof.
  intros Hauto H. unfold play in H.
  apply (play_loop_opt (fun o => Option.autoPlay o <> 0)) in H.
  - unfold printScore.
    destruct (Z.eqb_spec (Option.autoPlay (Game.opt g')) 0) as [E | _];
      [contradiction |].
    simpl. rewrite orb_true_r. reflexivity.
  - intros o Ho. exact Ho.
  - intros o Ho. exact Ho.
  - exact Hauto.
Qed.

Lemma autoplay_prints_nothing_witness :
  play one_note_bms 0 auto_frames (start_game auto_option one_note_bms) = Some auto_game /\
  Player.gameover (Game.player auto_game) = 1 /\
  Score.judges (Game.score auto_game) = [1; 0; 0; 0] /\
  printScore auto_game = None.
Proof.
  split; [vm_compute; reflexivity |].
  split; [reflexivity |].
  split; [reflexivity |].
  apply (autoplay_prints_nothing one_note_bms auto_option 0 auto_frames).
  - discriminate.
  - vm_compute; reflexivity.
Defined.

(** ** The beats of the events *)























(** ** A pause, from its definition to the timeline *)

Lemma parseBMSCommand_stop bms a b arg x v k :
  stoi (key_of a b) 36 = Some k ->
  stop_length x = Some v ->
  (Z.to_nat k < length (BMS.stopTable bms))%nat ->
  parseBMSCommand bms (Command ("STOP" ++ key_of a b) arg (Some x))
  = Some (BMS.set_stopTable (<[Z.to_nat k := v]> (BMS.stopTable bms)) bms).
Proof.
  intros Hkey Hv Hslot.
  destruct (lookup_lt_is_Some_2 _ _ Hslot) as [old Hold].
  unfold parseBMSCommand, parseBMSTable.
  change (String.eqb ("STOP" ++ key_of a b) "TITLE") with false.
  change (String.eqb ("STOP" ++ key_of a b) "ARTIST") with false.
  change (String.eqb ("STOP" ++ key_of a b) "GENRE") with false.
  change (String.eqb ("STOP" ++ key_of a b) "PLAYLEVEL") with false.
  change (String.eqb ("STOP" ++ key_of a b) "LNOBJ") with false.
  change (String.eqb ("STOP" ++ key_of a b) "BPM") with false.
  cbv zeta.
  change (String.length ("STOP" ++ key_of a b)) with 6%nat.
  change (substring 0 (6 - 2) ("STOP" ++ key_of a b)) with "STOP"%string.
  change (substring (6 - 2) 2 ("STOP" ++ key_of a b)) with (key_of a b).
  cbn [Nat.ltb Nat.leb String.eqb Ascii.eqb Bool.eqb].
  rewrite Hkey. simpl. rewrite Hv. simpl. rewrite Hold. reflexivity.
Qed.

(** X16.  A pause from its definition to the timeline: [#STOPxx x]
    stores under the key the length [v] of the pause in beats, the
    quotient [x / 48] as the code computes it, in [float]s; a token
    [xx] on channel 09 read after it inserts a chip with that length at
    the beat of the token; and [calcSegment] turns the chip, if [v] is
    positive, into a segment of velocity 0 followed, [v * 60 / bpm]
    seconds later, by one at the same beat with the tempo as before.  A
    pause that is not positive adds no segment; and [v] is not negative
    when [x] is not. *)
Theorem stop_pause bms a b arg x v k measure notation length init_beat c i0 chips total
    bt i time beat0 bpm :
  stoi (key_of a b) 36 = Some k ->
  stop_length x = Some v ->
  (Z.to_nat k < List.length (BMS.stopTable bms))%nat ->
  token notation c = key_of a b ->
  key_of a b <> "00"%string ->
  BMS.beats bms !! measure = Some bt ->
  scan chips i0 (chip_beat init_beat c bt length) = Some i ->
  let beat := chip_beat init_beat c bt length in
  let pause := Chip.mk beat v 0 in
  let start := (time + (beat - beat0) * 60 / bpm)%Q in
  let resume := (start + v * 60 / bpm)%Q in
  exists bms1,
    parseBMSCommand bms (Command ("STOP" ++ key_of a b) arg (Some x)) = Some bms1 /\
    BMS.stopTable bms1 !! Z.to_nat k = Some v /\
    calcChip_token bms1 measure notation 9 length init_beat c (i0, chips, total)
    = Some (i, insert_at i pause chips, total) /\
    ((0 < v)%Q ->
     calcSegment_chip (time, beat0, bpm) pause
     = ((resume, beat, bpm),
        [Segment.mk start beat 0 bpm; Segment.mk resume beat (bpm / 60) bpm])) /\
    ((v <= 0)%Q ->
     calcSegment_chip (time, beat0, bpm) pause = ((time, beat0, bpm), [])) /\
    ((0 <= x)%Q -> (0 <= v)%Q).
Proof.
  intros Hkey Hv Hslot Htoken Hne Hbeats Hscan beat pause start resume.
  eexists. split; [apply parseBMSCommand_stop; eassumption |].
  split; [apply list_lookup_insert_eq; exact Hslot |].
  split; [| split; [| split]].
  - fold beat in Hscan. revert Hkey Htoken Hne. generalize (key_of a b).
    intros key Hkey Htoken Hne.
    unfold calcChip_token. rewrite Htoken.
    destruct (String.eqb_spec key "00") as [E | _]; [contradiction |].
    change (BMS.beats (BMS.set_stopTable _ bms)) with (BMS.beats bms).
    rewrite Hbeats. simpl. fold beat. rewrite Hscan. simpl.
    rewrite Hkey. simpl.
    rewrite list_lookup_insert_eq by exact Hslot. reflexivity.
  - intros Hpos. unfold calcSegment_chip, pause. simpl.
    apply Qltb_true in Hpos. rewrite Hpos. reflexivity.
  - intros Hpos. unfold calcSegment_chip, pause. simpl.
    apply Qltb_false in Hpos. rewrite Hpos. reflexivity.
  - intros Hx. exact (stop_length_nonneg x v Hx Hv).
Qed.

Lemma stop_pause_witness :
  stop_length 96 = Some 2%Q /\
  stop_length 10 = Some (13981013 # 67108864) /\
  exists bms1,
    parseBMSCommand (parseBMS_init BMS.zero) (Command "STOP01" "96" (Some 96%Q)) = Some bms1 /\
    BMS.stopTable bms1 !! 1%nat = Some 2%Q /\
    calcChip_token bms1 1 "0001" 9 2 4 1 (0%nat, [sentinel], 0)
    = Some (0%nat, [Chip.mk (chip_beat 4 1 4 2) 2 0; sentinel], 0) /\
    calcSegment_chip (0%Q, 0%Q, 120%Q) (Chip.mk (chip_beat 4 1 4 2) 2 0)
    = ((0 + (chip_beat 4 1 4 2 - 0) * 60 / 120 + 2 * 60 / 120,
        chip_beat 4 1 4 2, 120)%Q,
       [Segment.mk (0 + (chip_beat 4 1 4 2 - 0) * 60 / 120) (chip_beat 4 1 4 2) 0 120;
        Segment.mk (0 + (chip_beat 4 1 4 2 - 0) * 60 / 120 + 2 * 60 / 120)
                   (chip_beat 4 1 4 2) (120 / 60) 120]).
Proof.
  split; [vm_compute; reflexivity |].
  split; [vm_compute; reflexivity |].
  destruct (stop_pause (parseBMS_init BMS.zero) "0" "1" "96" 96 2 1 1 "0001" 2 4 1
              0 [sentinel] 0 4 0 0 0 120
              ltac:(reflexivity) ltac:(vm_compute; reflexivity)
              ltac:(vm_compute; lia) ltac:(reflexivity)
              ltac:(discriminate) ltac:(reflexivity) ltac:(vm_compute; reflexivity))
    as (bms1 & Hparse & Htable & Htoken & Hpause & _).
  exists bms1. split; [exact Hparse |]. split; [exact Htable |].
  split; [exact Htoken |].
  apply Hpause. reflexivity.
Defined.
